(** * The alien delegated-proof-of-stake engine of goiov, embedded in Rocq

    The development follows the Go package [alien]:
    - [custom_tx.go]  votes, cancels, confirmations and the custom
      transaction interpreter ([processEventVote], [processEventCancel],
      [processEventConfirm]);
    - the snapshot file ([Snapshot], [newSnapshot], [copy], [apply] and its
      sub-updates, [inturn], [getLastConfirmedBlockNumber],
      [calculateReward]);
    - the engine file ([getSignerMissing], the chain branch of [Finalize]
      with its unfreeze loop, [accumulateRewards]);
    - the RPC file ([GetRemainingFreezeTime], [GetFreezeBalance]) and the
      signer queue file ([TallySlice.Less], [buildTallySlice],
      [createSignerQueue], [verifySignerQueue]).

    Go values are modelled as the code has them: [uint64] as [Z] with the
    wrap-around written out, [big.Int] as [Z], a [common.Address] as the
    string of its raw bytes (what [Address.Str()] returns), Go maps as
    [gmap], slices that are shared between snapshots as slice headers into
    an explicit store of backing arrays. *)

From stdpp Require Import base numbers option list strings gmap fin_maps sorting.
From Stdlib Require Import ZArith Lia.

Local Open Scope Z_scope.

(** ** Go primitives *)

Module Go.

(** [uint64] arithmetic wraps modulo 2^64. *)
Definition two64 : Z := 2 ^ 64.
Definition u64 (x : Z) : Z := x mod two64.
Definition u64_add (x y : Z) : Z := u64 (x + y).
Definition u64_sub (x y : Z) : Z := u64 (x - y).
Definition u64_mul (x y : Z) : Z := u64 (x * y).

(** [big.Int.Uint64]: the low 64 bits of the magnitude. *)
Definition Uint64 (x : Z) : Z := u64 (Z.abs x).

(** [big.Int.Cmp]: -1, 0 or +1. *)
Definition Cmp (x y : Z) : Z :=
  match x ?= y with Lt => -1 | Eq => 0 | Gt => 1 end.

(** [int(x)] for a [uint64] x, and [int] arithmetic: 64 bits, signed. *)
Definition int64 (x : Z) : Z := (x + 2 ^ 63) mod two64 - 2 ^ 63.

(** The ways a Go function can end: a value, an error value, or a
    run-time panic (nil dereference, index out of range, division by 0).
    [OutOfFuel] is the model's own: a loop that the code does not bound
    was cut off. *)
Inductive outcome (E A : Type) : Type :=
| Ret (a : A)
| Fail (e : E)
| Panic
| OutOfFuel.
Arguments Ret {E A} a.
Arguments Fail {E A} e.
Arguments Panic {E A}.
Arguments OutOfFuel {E A}.

Definition bind {E A B} (m : outcome E A) (k : A → outcome E B) : outcome E B :=
  match m with
  | Ret a => k a
  | Fail e => Fail e
  | Panic => Panic
  | OutOfFuel => OutOfFuel
  end.

(** The bytes of a string, as numbers below 256. *)
Definition bytes_of (s : string) : list N :=
  Ascii.N_of_ascii <$> String.list_ascii_of_string s.

(** [bytes.Compare]: lexicographic comparison; a proper prefix is smaller. *)
Fixpoint bytes_Compare (a b : list N) : Z :=
  match a, b with
  | [], [] => 0
  | [], _ :: _ => -1
  | _ :: _, [] => 1
  | x :: a', y :: b' =>
      if (x <? y)%N then -1
      else if (y <? x)%N then 1
      else bytes_Compare a' b'
  end.

(** [big.Int.SetString] in base 10: an optional sign followed by at least
    one decimal digit and nothing else. *)
Definition digit_of (c : Ascii.ascii) : option Z :=
  let n := Z.of_N (Ascii.N_of_ascii c) in
  if (48 <=? n) && (n <=? 57) then Some (n - 48) else None.

Fixpoint digits_value (acc : Z) (cs : list Ascii.ascii) : option Z :=
  match cs with
  | [] => Some acc
  | c :: cs' =>
      match digit_of c with
      | Some d => digits_value (10 * acc + d) cs'
      | None => None
      end
  end.

Definition unsigned_value (cs : list Ascii.ascii) : option Z :=
  match cs with
  | [] => None
  | _ :: _ => digits_value 0 cs
  end.

Definition SetString10 (s : string) : option Z :=
  match String.list_ascii_of_string s with
  | c :: cs =>
      if decide (c = Ascii.ascii_of_nat 45) then Z.opp <$> unsigned_value cs
      else if decide (c = Ascii.ascii_of_nat 43) then unsigned_value cs
      else unsigned_value (c :: cs)
  | [] => None
  end.

End Go.

Import Go.

#[global] Instance outcome_ret {E} : MRet (outcome E) := λ A a, Ret a.
#[global] Instance outcome_bind {E} : MBind (outcome E) := λ A B k m, Go.bind m k.

(** ** Package alien *)

Module alien.

(** [common.Address] (20 bytes) and [common.Hash] (32 bytes), as the
    string of their bytes. *)
Module common.
Abbreviation Address := string.
Abbreviation Hash := string.
Definition AddressLength : nat := 20.
Definition HashLength : nat := 32.
End common.
Import common.

(** The error values of the package, and the error values that reach it
    from the crypto and rlp packages (never equal to one of its own). *)
Inductive error : Type :=
| errUnknownBlock
| errMissingSignature
| errInvalidVotingChain
| errUnauthorized
| errIncorrectTallyCount
| errNoCancel (address : Address)
| errNoAppId (appId : string)
| errExternal (msg : string).

#[global] Instance error_eq_dec : EqDecision error.
Proof. solve_decision. Defined.

(** *** custom_tx.go: the records carried by a header *)

Record Vote : Type := mkVote {
  Voter : Address;
  Candidate : Address;
  Stake : Z;
  TxHash : Hash;
}.

Record Cancel : Type := mkCancel {
  Canceler : Address;
  Passive : bool;
}.

Record Confirmation : Type := mkConfirmation {
  Signer : Address;
  BlockNumber : Z;
}.

Record HeaderExtra : Type := mkHeaderExtra {
  CurrentBlockConfirmations : list Confirmation;
  CurrentBlockVotes : list Vote;
  CurrentBlockCancels : list Cancel;
  ExtraLoopStartTime : Z;
  SignerQueue : list Address;
  SignerMissing : list Address;
  ConfirmedBlockNumber : Z;
}.

#[global] Instance Vote_eq_dec : EqDecision Vote.
Proof. solve_decision. Defined.
#[global] Instance Cancel_eq_dec : EqDecision Cancel.
Proof. solve_decision. Defined.
#[global] Instance Confirmation_eq_dec : EqDecision Confirmation.
Proof. solve_decision. Defined.


(** *** The consensus parameters and the headers the package reads *)

Module params.
Record AlienConfig : Type := mkAlienConfig {
  Period : Z;
  MaxSignerCount : Z;
  MinVoteValue : Z;
  SelfVoteValue : Z;
  Freeze : Z;
  GenesisTimestamp : Z;
  SelfVoteSigners : list Address;
  AppId : string;
  SideChain : bool;
}.
End params.

(** A [types.Header] as [apply] observes it. [Hash] is what
    [header.Hash()] returns, [ecrecover] what [ecrecover(header, sigcache)]
    returns, and [Extra] what decoding
    [header.Extra[extraVanity : len(header.Extra)-extraSeal]] gives: a
    panic when the field is shorter than vanity plus seal, the error of
    [rlp.DecodeBytes], or the decoded record. *)
Module types.
Record Header : Type := mkHeader {
  Number : Z;
  Time : Z;
  Coinbase : Address;
  Hash : common.Hash;
  ecrecover : outcome error Address;
  Extra : outcome error HeaderExtra;
}.
End types.

(** *** Snapshot file: constants *)

Definition defaultFullCredit : Z := 1000.
Definition missingPublishCredit : Z := 100.
Definition signRewardCredit : Z := 100.
Definition autoRewardCredit : Z := 1.
Definition minCalSignerQueueCredit : Z := 300.

(** *** Slices of votes and the store of their backing arrays

    [Snapshot.copy] copies the slice headers of [Candidates] and not the
    arrays behind them, so a snapshot and its copies read and write the
    same arrays. A slice header is an array of the store, a length and a
    capacity (every slice of the package starts at index 0 of its array);
    the store keeps, for each array, the cells written so far. *)

Record slice : Type := mkSlice {
  array : nat;
  len : nat;
  cap : nat;
}.

Definition nil_slice : slice := mkSlice 0 0 0.

Definition store : Type := list (list Vote).

Definition cells (st : store) (sl : slice) : list Vote :=
  default [] (st !! array sl).

(** The elements a slice shows: [sl[0] .. sl[len-1]]. *)
Definition view (st : store) (sl : slice) : list Vote :=
  take (len sl) (cells st sl).

(** [append(sl[:i], sl[i+1:]...)]: the tail moves down one cell inside
    the same array, the cell at [len-1] keeps its old content. *)
Definition slice_delete (st : store) (sl : slice) (i : nat) : store * slice :=
  let cs := cells st sl in
  let cs' := take i cs ++ take (len sl - 1 - i) (drop (S i) cs)
               ++ drop (len sl - 1) cs in
  (<[array sl := cs']> st, mkSlice (array sl) (len sl - 1) (cap sl)).

(** Computations that read and write the store and end as Go functions
    do. The store is returned in every case: what was written before an
    error stays written. *)
Definition M (A : Type) : Type := store → store * outcome error A.

Definition retM {A} (a : A) : M A := λ st, (st, Ret a).
Definition liftM {A} (o : outcome error A) : M A := λ st, (st, o).
Definition bindM {A B} (m : M A) (k : A → M B) : M B :=
  λ st, match m st with
        | (st', Ret a) => k a st'
        | (st', Fail e) => (st', Fail e)
        | (st', Panic) => (st', Panic)
        | (st', OutOfFuel) => (st', OutOfFuel)
        end.


(** *** Snapshot file: the snapshot

    The signature cache and the two backup byte strings are left out:
    no function below reads them. *)

Record Snapshot : Type := mkSnapshot {
  config : params.AlienConfig;
  LCRS : Z;
  Period : Z;
  Number : Z;
  ConfirmedNumber : Z;
  Hash : common.Hash;
  HistoryHash : list common.Hash;
  Signers : list Address;
  Votes : gmap Address Vote;
  Tally : gmap Address Z;
  Voters : gmap Address Z;
  Cancels : gmap Address Cancel;
  Cancelers : gmap Address Z;
  Candidates : gmap Address slice;
  Punished : gmap Address Z;
  Confirmations : gmap Z (list Address);
  HeaderTime : Z;
  LoopStartTime : Z;
}.

(** Assignment to one field of a snapshot. *)
Definition set_Number (x : Z) (s : Snapshot) : Snapshot :=
  mkSnapshot (config s) (LCRS s) (Period s) x (ConfirmedNumber s) (Hash s)
    (HistoryHash s) (Signers s) (Votes s) (Tally s) (Voters s) (Cancels s)
    (Cancelers s) (Candidates s) (Punished s) (Confirmations s)
    (HeaderTime s) (LoopStartTime s).
Definition set_ConfirmedNumber (x : Z) (s : Snapshot) : Snapshot :=
  mkSnapshot (config s) (LCRS s) (Period s) (Number s) x (Hash s)
    (HistoryHash s) (Signers s) (Votes s) (Tally s) (Voters s) (Cancels s)
    (Cancelers s) (Candidates s) (Punished s) (Confirmations s)
    (HeaderTime s) (LoopStartTime s).
Definition set_Hash (x : common.Hash) (s : Snapshot) : Snapshot :=
  mkSnapshot (config s) (LCRS s) (Period s) (Number s) (ConfirmedNumber s)
    x (HistoryHash s) (Signers s) (Votes s) (Tally s) (Voters s) (Cancels
    s) (Cancelers s) (Candidates s) (Punished s) (Confirmations s)
    (HeaderTime s) (LoopStartTime s).
Definition set_HistoryHash (x : list common.Hash) (s : Snapshot) : Snapshot :=
  mkSnapshot (config s) (LCRS s) (Period s) (Number s) (ConfirmedNumber s)
    (Hash s) x (Signers s) (Votes s) (Tally s) (Voters s) (Cancels s)
    (Cancelers s) (Candidates s) (Punished s) (Confirmations s)
    (HeaderTime s) (LoopStartTime s).
Definition set_Signers (x : list Address) (s : Snapshot) : Snapshot :=
  mkSnapshot (config s) (LCRS s) (Period s) (Number s) (ConfirmedNumber s)
    (Hash s) (HistoryHash s) x (Votes s) (Tally s) (Voters s) (Cancels s)
    (Cancelers s) (Candidates s) (Punished s) (Confirmations s)
    (HeaderTime s) (LoopStartTime s).
Definition set_Votes (x : gmap Address Vote) (s : Snapshot) : Snapshot :=
  mkSnapshot (config s) (LCRS s) (Period s) (Number s) (ConfirmedNumber s)
    (Hash s) (HistoryHash s) (Signers s) x (Tally s) (Voters s) (Cancels
    s) (Cancelers s) (Candidates s) (Punished s) (Confirmations s)
    (HeaderTime s) (LoopStartTime s).
Definition set_Tally (x : gmap Address Z) (s : Snapshot) : Snapshot :=
  mkSnapshot (config s) (LCRS s) (Period s) (Number s) (ConfirmedNumber s)
    (Hash s) (HistoryHash s) (Signers s) (Votes s) x (Voters s) (Cancels
    s) (Cancelers s) (Candidates s) (Punished s) (Confirmations s)
    (HeaderTime s) (LoopStartTime s).
Definition set_Voters (x : gmap Address Z) (s : Snapshot) : Snapshot :=
  mkSnapshot (config s) (LCRS s) (Period s) (Number s) (ConfirmedNumber s)
    (Hash s) (HistoryHash s) (Signers s) (Votes s) (Tally s) x (Cancels s)
    (Cancelers s) (Candidates s) (Punished s) (Confirmations s)
    (HeaderTime s) (LoopStartTime s).
Definition set_Cancels (x : gmap Address Cancel) (s : Snapshot) : Snapshot :=
  mkSnapshot (config s) (LCRS s) (Period s) (Number s) (ConfirmedNumber s)
    (Hash s) (HistoryHash s) (Signers s) (Votes s) (Tally s) (Voters s) x
    (Cancelers s) (Candidates s) (Punished s) (Confirmations s)
    (HeaderTime s) (LoopStartTime s).
Definition set_Cancelers (x : gmap Address Z) (s : Snapshot) : Snapshot :=
  mkSnapshot (config s) (LCRS s) (Period s) (Number s) (ConfirmedNumber s)
    (Hash s) (HistoryHash s) (Signers s) (Votes s) (Tally s) (Voters s)
    (Cancels s) x (Candidates s) (Punished s) (Confirmations s)
    (HeaderTime s) (LoopStartTime s).
Definition set_Candidates (x : gmap Address slice) (s : Snapshot) : Snapshot :=
  mkSnapshot (config s) (LCRS s) (Period s) (Number s) (ConfirmedNumber s)
    (Hash s) (HistoryHash s) (Signers s) (Votes s) (Tally s) (Voters s)
    (Cancels s) (Cancelers s) x (Punished s) (Confirmations s) (HeaderTime
    s) (LoopStartTime s).
Definition set_Punished (x : gmap Address Z) (s : Snapshot) : Snapshot :=
  mkSnapshot (config s) (LCRS s) (Period s) (Number s) (ConfirmedNumber s)
    (Hash s) (HistoryHash s) (Signers s) (Votes s) (Tally s) (Voters s)
    (Cancels s) (Cancelers s) (Candidates s) x (Confirmations s)
    (HeaderTime s) (LoopStartTime s).
Definition set_Confirmations (x : gmap Z (list Address)) (s : Snapshot) : Snapshot :=
  mkSnapshot (config s) (LCRS s) (Period s) (Number s) (ConfirmedNumber s)
    (Hash s) (HistoryHash s) (Signers s) (Votes s) (Tally s) (Voters s)
    (Cancels s) (Cancelers s) (Candidates s) (Punished s) x (HeaderTime s)
    (LoopStartTime s).
Definition set_HeaderTime (x : Z) (s : Snapshot) : Snapshot :=
  mkSnapshot (config s) (LCRS s) (Period s) (Number s) (ConfirmedNumber s)
    (Hash s) (HistoryHash s) (Signers s) (Votes s) (Tally s) (Voters s)
    (Cancels s) (Cancelers s) (Candidates s) (Punished s) (Confirmations
    s) x (LoopStartTime s).
Definition set_LoopStartTime (x : Z) (s : Snapshot) : Snapshot :=
  mkSnapshot (config s) (LCRS s) (Period s) (Number s) (ConfirmedNumber s)
    (Hash s) (HistoryHash s) (Signers s) (Votes s) (Tally s) (Voters s)
    (Cancels s) (Cancelers s) (Candidates s) (Punished s) (Confirmations
    s) (HeaderTime s) x.

Notation "'let*' x ':=' m 'in' k" := (bindM m (λ x, k))
  (at level 10, x name, m at level 100, k at level 200, only parsing).

(** A loop over a list whose body runs in [M]. *)
Fixpoint foldM {A B} (f : B → A → M B) (l : list A) (b : B) : M B :=
  match l with
  | [] => retM b
  | a :: l' => let* b' := f b a in foldM f l' b'
  end.

Section runtime.

(** The capacity the Go run time gives the new array when [append] finds
  the old one full. *)
Variable growslice : nat → nat.

(** [append(sl, v)]: in place when the capacity allows, else into a new
  array. *)
Definition slice_append (st : store) (sl : slice) (v : Vote) : store * slice :=
if (len sl <? cap sl)%nat then
  let cs := cells st sl in
  (<[array sl := take (len sl) cs ++ v :: drop (S (len sl)) cs]> st,
   mkSlice (array sl) (S (len sl)) (cap sl))
else
  (st ++ [view st sl ++ [v]],
   mkSlice (length st) (S (len sl)) (growslice (cap sl))).

(** *** Snapshot file: newSnapshot and copy *)

Definition newSnapshot_vote (snap : Snapshot) (vote : Vote) : M Snapshot :=
let tally0 := default 0 (Tally snap !! Candidate vote) in
λ st,
  let '(st', sl) :=
    slice_append st (default nil_slice (Candidates snap !! Voter vote)) vote in
  (st', Ret (set_Candidates (<[Voter vote := sl]> (Candidates snap))
              (set_Voters (<[Voter vote := 0]> (Voters snap))
                (set_Tally (<[Candidate vote := tally0 + Stake vote]> (Tally snap))
                  (set_Votes (<[Voter vote := vote]> (Votes snap)) snap))))).

(** The loop [for i := 0; i < int(config.MaxSignerCount); i++] that reads
  [config.SelfVoteSigners[i%len(config.SelfVoteSigners)]]. *)
Definition newSnapshot_signers (config : params.AlienConfig)
  : outcome error (list Address) :=
let n := Z.to_nat (int64 (params.MaxSignerCount config)) in
let signers := params.SelfVoteSigners config in
match n, signers with
| O, _ => Ret []
| S _, [] => Panic
| S _, d :: _ =>
    Ret ((λ i, default d (signers !! (i mod length signers)%nat)) <$> seq 0 n)
end.

(** [now] is [time.Now().Unix()]. *)
Definition newSnapshot (config : params.AlienConfig) (hash : common.Hash)
  (votes : list Vote) (lcrs : Z) (now : Z) : M Snapshot :=
let snap :=
  mkSnapshot config lcrs (params.Period config) 0 0 hash [hash] [] ∅ ∅ ∅ ∅ ∅
    ∅ ∅ ∅ (u64_sub (u64 now) 1) (params.GenesisTimestamp config) in
let* snap := foldM newSnapshot_vote votes snap in
let* signers := liftM (newSnapshot_signers config) in
retM (set_Signers signers snap).

(** [copy]: new maps and new big integers, new arrays for the history
  and the confirmations; the slices of [Candidates] are assigned as
  they are. *)
Definition copy (s : Snapshot) : Snapshot :=
mkSnapshot (config s) (LCRS s) (Period s) (Number s) (ConfirmedNumber s)
  (Hash s) (HistoryHash s) (Signers s)
  ((λ vote, mkVote (Voter vote) (Candidate vote) (Stake vote) (TxHash vote))
     <$> Votes s)
  (Tally s) (Voters s)
  (map_imap (λ canceler cancel, Some (mkCancel canceler (Passive cancel)))
     (Cancels s))
  (Cancelers s) (Candidates s) (Punished s) (Confirmations s)
  (HeaderTime s) (LoopStartTime s).

Definition isVoter (s : Snapshot) (address : Address) : bool :=
bool_decide (is_Some (Voters s !! address)).

Definition isCandidate (s : Snapshot) (address : Address) : bool :=
bool_decide (is_Some (Candidates s !! address)).

(** *** Snapshot file: the sub-updates of apply *)

(** The body of the loop over the confirmations of a block, on the map
  of confirmers. *)
Definition addConfirmation (confirmations : gmap Z (list Address))
  (confirmation : Confirmation) : gmap Z (list Address) :=
let blockNumber := Uint64 (BlockNumber confirmation) in
let confirmations :=
  match confirmations !! blockNumber with
  | Some _ => confirmations
  | None => <[blockNumber := []]> confirmations
  end in
let confirmers := default [] (confirmations !! blockNumber) in
if existsb (λ address, bool_decide (Signer confirmation = address)) confirmers
then confirmations
else <[blockNumber := confirmers ++ [Signer confirmation]]> confirmations.

Definition updateSnapshotByConfirmations (s : Snapshot)
  (confirmations : list Confirmation) : Snapshot :=
set_Confirmations (foldl addConfirmation (Confirmations s) confirmations) s.

Definition updateSnapshotByVotes_step (headerNumber : Z) (s : Snapshot)
  (vote : Vote) : M Snapshot :=
if bool_decide (is_Some (Votes s !! Voter vote)) then retM s
else if negb (isCandidate s (Candidate vote))
        && negb (bool_decide (Candidate vote = Voter vote)) then retM s
else
  let* tally :=
    liftM (if isCandidate s (Candidate vote) then
             match Tally s !! Candidate vote with
             | Some t => Ret (<[Candidate vote := t + Stake vote]> (Tally s))
             | None => Panic
             end
           else Ret (<[Candidate vote := Stake vote]> (Tally s))) in
  λ st,
    let '(st', sl) :=
      slice_append st (default nil_slice (Candidates s !! Candidate vote))
        (mkVote (Voter vote) (Candidate vote) (Stake vote) (TxHash vote)) in
    (st', Ret (set_Candidates (<[Candidate vote := sl]> (Candidates s))
                (set_Voters (<[Voter vote := headerNumber]> (Voters s))
                  (set_Votes (<[Voter vote := vote]> (Votes s))
                    (set_Tally tally s))))).

Definition updateSnapshotByVotes (s : Snapshot) (votes : list Vote)
  (headerNumber : Z) : M Snapshot :=
foldM (updateSnapshotByVotes_step headerNumber) votes s.

(** The cancels a candidate's own cancel appends to the list: one passive
  cancel for each of its voters other than itself. *)
Definition cascade (st : store) (s : Snapshot) (canceler : Address) : list Cancel :=
match Candidates s !! canceler with
| Some sl =>
    omap (λ vote, if bool_decide (Voter vote ≠ canceler)
                  then Some (mkCancel (Voter vote) true) else None)
         (view st sl)
| None => []
end.

(** The loop [for i := 0; i < len(cancels); i++] over a list that grows
  while it is read: [cancels] is the part from index [i] on. The code
  puts no bound on the number of rounds; [fuel] does. *)
Fixpoint updateSnapshotByCancels_loop (st : store) (headerNumber : Z)
  (fuel : nat) (cancels : list Cancel) (s : Snapshot)
  : outcome error Snapshot :=
match cancels with
| [] => Ret s
| cancel :: rest =>
    match fuel with
    | O => OutOfFuel
    | S fuel' =>
        let canceler := Canceler cancel in
        if bool_decide (is_Some (Cancels s !! canceler)) then
          updateSnapshotByCancels_loop st headerNumber fuel' rest s
        else
          let cancels' := rest ++ cascade st s canceler in
          let s' :=
            match Votes s !! canceler with
            | Some vote =>
                match Tally s !! Candidate vote with
                | Some t =>
                    set_Cancelers (<[canceler := headerNumber]> (Cancelers s))
                      (set_Cancels
                         (<[canceler := mkCancel canceler (Passive cancel)]>
                            (Cancels s))
                         (set_Tally (<[Candidate vote := t - Stake vote]> (Tally s))
                            s))
                | None => s
                end
            | None => s
            end in
          updateSnapshotByCancels_loop st headerNumber fuel' cancels' s'
    end
end.

Definition updateSnapshotByCancels (fuel : nat) (s : Snapshot)
  (cancels : list Cancel) (headerNumber : Z) : M Snapshot :=
λ st, (st, updateSnapshotByCancels_loop st headerNumber fuel cancels s).

(** First loop of [updateSnapshotForPunish]. *)
Definition punishMissing (punished : gmap Address Z) (signerMissing : Address)
  : gmap Address Z :=
match punished !! signerMissing with
| Some v =>
    if v <=? 10 * defaultFullCredit
    then <[signerMissing := u64_add v missingPublishCredit]> punished
    else punished
| None => <[signerMissing := missingPublishCredit]> punished
end.

(** Second step: the signer of the block. *)
Definition rewardSigner (punished : gmap Address Z) (coinbase : Address)
  : gmap Address Z :=
match punished !! coinbase with
| Some v =>
    if signRewardCredit <? v
    then <[coinbase := u64_sub v signRewardCredit]> punished
    else delete coinbase punished
| None => punished
end.

(** Third loop: it ranges over the map and each round rewrites or deletes
  the entry it visits, so the order of the rounds does not show. *)
Definition rewardAll (punished : gmap Address Z) : gmap Address Z :=
omap (λ v, if autoRewardCredit <? v then Some (u64_sub v autoRewardCredit)
           else None) punished.

Definition updateSnapshotForPunish (s : Snapshot) (signerMissing : list Address)
  (headerNumber : Z) (coinbase : Address) : Snapshot :=
set_Punished
  (rewardAll (rewardSigner (foldl punishMissing (Punished s) signerMissing)
                coinbase)) s.

(** The condition of [removeExtraVotesAndCancel]; the big integer of
  [Cancelers] is dereferenced, the division is by [config.Period]. *)
Definition freezeElapsed (s : Snapshot) (canceler : Address) (cancel : Cancel)
  : outcome error bool :=
if Passive cancel then
  match Cancelers s !! canceler with
  | Some n => Ret (u64_add (Uint64 n) 1 <? Number s)
  | None => Panic
  end
else
  match Cancelers s !! Canceler cancel with
  | Some n =>
      if decide (params.Period (config s) = 0) then Panic
      else Ret (params.Freeze (config s) / params.Period (config s)
                  <=? u64_sub (u64_add (Number s) 1) (Uint64 n))
  | None => Panic
  end.

(** [for i := 0; i < len(sl); i++ { if sl[i].Voter == canceler
  { sl = append(sl[:i], sl[i+1:]...) } }]: [i] advances after a removal
  too. The loop makes at most [len sl] rounds, which is the [fuel] it
  is called with. *)
Fixpoint removeVoter_loop (canceler : Address) (fuel : nat) (i : nat)
  (st : store) (sl : slice) : store * slice :=
match fuel with
| O => (st, sl)
| S fuel' =>
    if (i <? len sl)%nat then
      match view st sl !! i with
      | Some vote =>
          if decide (Voter vote = canceler) then
            let '(st', sl') := slice_delete st sl i in
            removeVoter_loop canceler fuel' (S i) st' sl'
          else removeVoter_loop canceler fuel' (S i) st sl
      | None => (st, sl)
      end
    else (st, sl)
end.

Definition removeExtraVotesAndCancel_step (s : Snapshot)
  (entry : Address * Cancel) : M Snapshot :=
let '(canceler, cancel) := entry in
let* elapsed := liftM (freezeElapsed s canceler cancel) in
if elapsed : bool then
  let* s1 :=
    (if isCandidate s canceler then
       retM (set_Candidates (delete canceler (Candidates s))
               (set_Punished (delete canceler (Punished s)) s))
     else
       match Votes s !! canceler with
       | None => liftM Panic
       | Some vote =>
           let candidate := Candidate vote in
           match Candidates s !! candidate with
           | None => retM s
           | Some sl =>
               λ st,
                 let '(st', sl') := removeVoter_loop canceler (len sl) 0 st sl in
                 (st', Ret (set_Candidates (<[candidate := sl']> (Candidates s)) s))
           end
       end) in
  retM (set_Cancelers (delete canceler (Cancelers s1))
          (set_Cancels (delete canceler (Cancels s1))
             (set_Voters (delete canceler (Voters s1))
                (set_Votes (delete canceler (Votes s1)) s1))))
else retM s.

(** The loop ranges over [s.Cancels] and deletes only the entry it
  visits, so every entry is visited once. Go leaves the order of the
  visits open; the model takes the order of [map_to_list]. *)
Definition removeExtraVotesAndCancel (s : Snapshot) : M Snapshot :=
foldM removeExtraVotesAndCancel_step (map_to_list (Cancels s)) s.

Definition updateSnapshotForExpired (s : Snapshot) : Snapshot :=
let confirmations :=
  filter (λ entry, ¬ (params.MaxSignerCount (config s)
                        < u64_sub (Number s) entry.1))
         (Confirmations s) in
let tally := filter (λ entry, ¬ (entry.2 ≤ 0)) (Tally s) in
set_Tally tally (set_Confirmations confirmations s).

(** [verifyTallyCnt]: the three loops range over maps; the first two add
  and subtract, the third fails on any entry that differs. *)
Definition tallyTarget_vote (v : Vote) (target : gmap Address Z)
  : gmap Address Z :=
<[Candidate v := default 0 (target !! Candidate v) + Stake v]> target.

Definition tallyTarget_cancel (s : Snapshot) (c : Cancel)
  (acc : outcome error (gmap Address Z)) : outcome error (gmap Address Z) :=
Go.bind acc (λ target,
  match Votes s !! Canceler c with
  | None => Panic
  | Some vote =>
      match target !! Candidate vote with
      | Some t => Ret (<[Candidate vote := t - Stake vote]> target)
      | None => Ret target
      end
  end).

Definition verifyTallyCnt (s : Snapshot) : outcome error unit :=
let tallyTarget : gmap Address Z :=
  map_fold (λ _ v target, tallyTarget_vote v target) ∅ (Votes s) in
Go.bind
  (map_fold (λ _ c acc, tallyTarget_cancel s c acc) (Ret tallyTarget)
     (Cancels s))
  (λ tallyTarget,
     if bool_decide
          (map_Forall (λ address tally, tallyTarget !! address = Some tally)
             (Tally s))
     then Ret ()
     else Fail errIncorrectTallyCount).

(** *** Snapshot file: apply *)

(** The sanity loop on the numbers of the headers. *)
Fixpoint consecutive (headers : list types.Header) : bool :=
match headers with
| h :: (h' :: _) as rest =>
    if decide (Uint64 (types.Number h') = u64_add (Uint64 (types.Number h)) 1)
    then consecutive rest
    else false
| _ => true
end.

(** The history of hashes: cut to [HistoryHash[1 : int(MaxSignerCount)*2]]
  when it is that long, then the new hash at the end. *)
Definition appendHistory (maxSignerCount : Z) (historyHash : list common.Hash)
  (hash : common.Hash) : outcome error (list common.Hash) :=
let bound := int64 (int64 maxSignerCount * 2) in
if bound <=? Z.of_nat (length historyHash) then
  if 1 <=? bound
  then Ret (drop 1 (take (Z.to_nat bound) historyHash) ++ [hash])
  else Panic
else Ret (historyHash ++ [hash]).

(** The body of the loop over the headers; [s] is the receiver, [snap]
  the copy. *)
Definition applyHeader (fuel : nat) (s snap : Snapshot) (header : types.Header)
  : M Snapshot :=
let* coinbase := liftM (types.ecrecover header) in
if bool_decide (coinbase ≠ types.Coinbase header)
then liftM (Fail errUnauthorized)
else
  let* headerExtra := liftM (types.Extra header) in
  let snap := set_HeaderTime (Uint64 (types.Time header)) snap in
  let snap := set_LoopStartTime (ExtraLoopStartTime headerExtra) snap in
  let snap := set_Signers (SignerQueue headerExtra) snap in
  let snap := set_ConfirmedNumber (ConfirmedBlockNumber headerExtra) snap in
  let* historyHash :=
    liftM (appendHistory (params.MaxSignerCount (config s)) (HistoryHash snap)
             (types.Hash header)) in
  let snap := set_HistoryHash historyHash snap in
  let snap :=
    updateSnapshotByConfirmations snap (CurrentBlockConfirmations headerExtra) in
  let* snap :=
    updateSnapshotByVotes snap (CurrentBlockVotes headerExtra)
      (types.Number header) in
  let* snap :=
    updateSnapshotByCancels fuel snap (CurrentBlockCancels headerExtra)
      (types.Number header) in
  let snap :=
    updateSnapshotForPunish snap (SignerMissing headerExtra)
      (types.Number header) (types.Coinbase header) in
  removeExtraVotesAndCancel snap.

Definition apply (fuel : nat) (s : Snapshot) (headers : list types.Header)
  : M Snapshot :=
match headers with
| [] => retM s
| first :: _ =>
    if negb (consecutive headers) then liftM (Fail errInvalidVotingChain)
    else if decide (Uint64 (types.Number first) ≠ u64_add (Number s) 1)
    then liftM (Fail errInvalidVotingChain)
    else
      let* snap := foldM (applyHeader fuel s) headers (copy s) in
      let snap :=
        set_Number (u64_add (Number snap) (Z.of_nat (length headers))) snap in
      let snap := set_Hash (types.Hash (List.last headers first)) snap in
      let snap := updateSnapshotForExpired snap in
      let* _ := liftM (verifyTallyCnt snap) in
      retM snap
end.

End runtime.

(** [getLastConfirmedBlockNumber]: the loop
    [for i := s.Number; i > s.Number-MaxSignerCount*2/3+1; i--], with [n]
    the number of rounds that are left. *)
Fixpoint confirmed_loop (confirmations : gmap Z (list Address)) (threshold : Z)
    (n : nat) (i : Z) : Z :=
  match n with
  | O => i
  | S n' =>
      match confirmations !! i with
      | Some confirmers =>
          if threshold <? Z.of_nat (length confirmers) then i
          else confirmed_loop confirmations threshold n' (i - 1)
      | None => confirmed_loop confirmations threshold n' (i - 1)
      end
  end.

Definition getLastConfirmedBlockNumber (s : Snapshot)
    (confirmations : list Confirmation) : Z :=
  let cpyConfirmations := foldl addConfirmation (Confirmations s) confirmations in
  let quorum := u64_mul (params.MaxSignerCount (config s)) 2 / 3 in
  let floor := u64_add (u64_sub (Number s) quorum) 1 in
  int64 (confirmed_loop cpyConfirmations (int64 quorum)
           (Z.to_nat (Number s - floor)) (Number s)).

(** *** Signer queue file: the ordering of the tally slice *)

Record TallyItem : Type := mkTallyItem {
  addr : Address;
  stake : Z;
}.

Abbreviation TallySlice := (list TallyItem).

(** The body of [TallySlice.Less] on the two items it reads. *)
Definition itemLess (x y : TallyItem) : bool :=
  let isLess := Cmp (stake x) (stake y) in
  if 0 <? isLess then true
  else if isLess <? 0 then false
  else 0 <? bytes_Compare (bytes_of (addr x)) (bytes_of (addr y)).

(** [func (s TallySlice) Less(i, j int) bool]; indexing out of range
    panics. *)
Definition Less (s : TallySlice) (i j : nat) : outcome unit bool :=
  match s !! i, s !! j with
  | Some x, Some y => Ret (itemLess x y)
  | _, _ => Panic
  end.

(** *** Engine file: the signers skipped between two blocks *)

(** The loop of [getSignerMissing]: [recordMissing] and [signerMissing]
    are the two locals, [queue] is what is left of [extra.SignerQueue]. *)
Fixpoint getSignerMissing_loop (lastSigner currentSigner : Address)
    (queue : list Address) (recordMissing : bool)
    (signerMissing : list Address) : list Address :=
  match queue with
  | [] => signerMissing
  | signer :: rest =>
      if decide (signer = lastSigner) then
        getSignerMissing_loop lastSigner currentSigner rest true signerMissing
      else if decide (signer = currentSigner) then
        signerMissing
      else if recordMissing then
        getSignerMissing_loop lastSigner currentSigner rest recordMissing
          (signerMissing ++ [signer])
      else
        getSignerMissing_loop lastSigner currentSigner rest recordMissing
          signerMissing
  end.

Definition getSignerMissing (lastSigner currentSigner : Address)
    (extra : HeaderExtra) : list Address :=
  getSignerMissing_loop lastSigner currentSigner (SignerQueue extra) false [].

(** *** custom_tx.go: the vote path of the interpreter *)

(** The part of a [types.Transaction] the vote path reads; [To] is nil
    for a contract creation. *)
Record Transaction : Type := mkTransaction {
  To : option Address;
  Value : Z;
  Data : string;
  TransactionHash : common.Hash;
}.

(** The balances of the state database. *)
Abbreviation StateDB := (gmap Address Z).

Definition GetBalance (state : StateDB) (a : Address) : Z :=
  default 0 (state !! a).
Definition SubBalance (state : StateDB) (a : Address) (amount : Z) : StateDB :=
  <[a := GetBalance state a - amount]> state.
Definition AddBalance (state : StateDB) (a : Address) (amount : Z) : StateDB :=
  <[a := GetBalance state a + amount]> state.

Definition posEventVoteValue : nat := 4.

(** [processEventVote]. [isBlockChain] is the outcome of the type
    assertion on the chain reader, [snapshot] what [a.snapshot] returns
    for the current block. The result is the pending vote list and the
    state database. *)
Definition processEventVote (config : params.AlienConfig) (isBlockChain : bool)
    (snapshot : outcome error Snapshot) (currentBlockVotes : list Vote)
    (state : StateDB) (tx : Transaction) (voter : Address)
    (txDataInfo : list string) : outcome error (list Vote * StateDB) :=
  if (posEventVoteValue <=? length txDataInfo)%nat then
    match txDataInfo !! posEventVoteValue with
    | None => Panic
    | Some text =>
        match SetString10 text with
        | None => Ret (currentBlockVotes, state)
        | Some value =>
            if negb isBlockChain then Ret (currentBlockVotes, state)
            else
              match snapshot with
              | Panic => Panic
              | OutOfFuel => OutOfFuel
              | Fail _ => Ret (currentBlockVotes, state)
              | Ret snap =>
                  if bool_decide (is_Some (Votes snap !! voter))
                  then Ret (currentBlockVotes, state)
                  else
                    match To tx with
                    | None => Panic
                    | Some to =>
                        if (if decide (voter ≠ to) then
                              (Cmp value (params.MinVoteValue config) <? 0)
                              || negb (isCandidate snap to)
                            else Cmp value (params.SelfVoteValue config) <? 0)
                        then Ret (currentBlockVotes, state)
                        else if 0 <? Cmp (GetBalance state voter) value then
                          let stake := value in
                          if existsb (λ vote, bool_decide (Voter vote = voter))
                               currentBlockVotes
                          then Ret (currentBlockVotes, state)
                          else
                            Ret (currentBlockVotes
                                   ++ [mkVote voter to stake (TransactionHash tx)],
                                 SubBalance state voter value)
                        else Ret (currentBlockVotes, state)
                    end
              end
        end
    end
  else Ret (currentBlockVotes, state).

(** *** Engine file: the chain branch of Finalize and its unfreeze loop *)

(** The condition under which [Finalize] of block [number] credits the
    stake of a cancelled vote. *)
Definition unfreezeDue (snap : Snapshot) (number : Z) (canceler : Address)
    (cancel : Cancel) : outcome error bool :=
  match Cancelers snap !! canceler with
  | None => Panic
  | Some n =>
      if Passive cancel then Ret (bool_decide (number = u64_add 1 (Uint64 n)))
      else if decide (params.Period (config snap) = 0) then Panic
      else Ret (bool_decide
                  (u64_add number 2
                   = u64_add (Uint64 n)
                       (params.Freeze (config snap) / params.Period (config snap))))
  end.

Definition unfreeze_step (snap : Snapshot) (number : Z)
    (acc : outcome error StateDB) (entry : Address * Cancel)
    : outcome error StateDB :=
  state ← acc;
  due ← unfreezeDue snap number entry.1 entry.2;
  if due : bool then
    match Votes snap !! entry.1 with
    | Some vote => Ret (AddBalance state (Canceler entry.2) (Stake vote))
    | None => Ret state
    end
  else Ret state.

(** [for canceler, cancel := range snap.Cancels] in the main-chain branch
    of [Finalize]; [number] is [header.Number.Uint64()] and [snap] the
    snapshot of the parent block. The rounds add to balances, so their
    order does not show. *)
Definition unfreeze (snap : Snapshot) (number : Z) (state : StateDB)
    : outcome error StateDB :=
  foldl (unfreeze_step snap number) (Ret state) (map_to_list (Cancels snap)).

(** [Finalize] from [if !chain.Config().Alien.SideChain] to the end of the
    unfreeze loop, as far as the state database goes. [chainConfig] is
    [chain.Config().Alien], [engineConfig] is [a.config], [snap] is the
    snapshot of the parent block that [a.snapshot] returned and [state] the
    state database as [processCustomTx] left it; [Finalize] has returned
    its error before this point when the parent header is unknown or when
    the decoder, [processCustomTx] or [a.snapshot] failed. On the main chain
    the signer queue of block 1 is read off [a.config.SelfVoteSigners]
    before the cancels are paid, by the loop that [newSnapshot] has too; on
    a side chain the branch sets the signer queue of the header and leaves
    the state database alone. *)
Definition Finalize_unfreeze (chainConfig engineConfig : params.AlienConfig)
    (snap : Snapshot) (number : Z) (state : StateDB)
    : outcome error StateDB :=
  if negb (params.SideChain chainConfig) then
    _ ← (if decide (number = 1) then newSnapshot_signers engineConfig
         else Ret []);
    unfreeze snap number state
  else Ret state.

(** *** RPC file: the remaining freeze time *)

(** The computation on the four numbers: the subtraction, the guard
    [remaining <= 0] and the product. *)
Definition remainingBlocks (cancelTime currentTime freezeTime : Z) : Z :=
  let unfreezeTime := u64_add cancelTime freezeTime in
  u64_sub unfreezeTime currentTime.

Definition clampTaken (remaining : Z) : bool := remaining <=? 0.

Definition remainingFreezeTime (config : params.AlienConfig)
    (cancel : Z) (headerNumber : Z) : outcome error Z :=
  let cancelTime := Uint64 cancel in
  let currentTime := Uint64 headerNumber in
  if decide (params.Period config = 0) then Panic
  else
    let freezeTime := params.Freeze config / params.Period config in
    let remaining := remainingBlocks cancelTime currentTime freezeTime in
    let remaining := if clampTaken remaining then 0 else remaining in
    Ret (u64_mul remaining (params.Period config)).

(** [GetRemainingFreezeTime]: [currentHeader] is what
    [api.chain.CurrentHeader()] returns, [snapshot] what the snapshot
    look-up for that header returns, [config] is [api.alien.config]. *)
Definition GetRemainingFreezeTime (config : params.AlienConfig)
    (currentHeader : option types.Header) (snapshot : outcome error Snapshot)
    (address : Address) : outcome error Z :=
  match currentHeader with
  | None => Fail errUnknownBlock
  | Some header =>
      snapshot ← snapshot;
      match Cancelers snapshot !! address with
      | Some cancel => remainingFreezeTime config cancel (types.Number header)
      | None => Fail (errNoCancel address)
      end
  end.

(** [GetSideRemainingFreezeTime]: [sideChain] is the side chain of
    [appId], if there is one, seen as its current header and snapshot;
    the freeze and the period are those of [api.alien.config] again. *)
Definition GetSideRemainingFreezeTime (config : params.AlienConfig)
    (sideChain : option (option types.Header * outcome error Snapshot))
    (address : Address) (appId : string) : outcome error Z :=
  match sideChain with
  | Some (currentHeader, snapshot) =>
      match currentHeader with
      | None => Fail errUnknownBlock
      | Some header =>
          snapshot ← snapshot;
          match Cancelers snapshot !! address with
          | Some cancel => remainingFreezeTime config cancel (types.Number header)
          | None => Fail (errNoCancel address)
          end
      end
  | None => Fail (errNoAppId appId)
  end.

(** *** custom_tx.go: cancels and confirmations *)

Definition posEventCancel : nat := 3.
Definition posEventConfirmNumber : nat := 4.

(** [processEventCancel]; the state database and the transaction are not
    read. *)
Definition processEventCancel (currentBlockCancels : list Cancel)
    (canceler : Address) (txDataInfo : list string) : list Cancel :=
  if (posEventCancel <=? length txDataInfo)%nat then
    if existsb (λ cancel, bool_decide (Canceler cancel = canceler))
         currentBlockCancels
    then currentBlockCancels
    else currentBlockCancels ++ [mkCancel canceler false]
  else currentBlockCancels.

(** [strconv.Atoi]: the syntax of [SetString10], the range of [int]. *)
Definition Atoi (s : string) : option Z :=
  match SetString10 s with
  | Some v => if (- 2 ^ 63 <=? v) && (v <? 2 ^ 63) then Some v else None
  | None => None
  end.

(** [strconv.ParseUint(s, 10, 64)]: digits only, below 2^64. *)
Definition ParseUint (s : string) : option Z :=
  match unsigned_value (String.list_ascii_of_string s) with
  | Some v => if v <? two64 then Some v else None
  | None => None
  end.

(** [processEventConfirm]. [getHeaderByNumber] is
    [chain.GetHeaderByNumber]; the test on the length of the extra data of
    the confirmed header is the [Panic] case of its [Extra] view. *)
Definition processEventConfirm (config : params.AlienConfig)
    (getHeaderByNumber : Z → option types.Header)
    (currentBlockConfirmations : list Confirmation)
    (txDataInfo : list string) (number : Z) (confirmer : Address)
    : outcome error (list Confirmation) :=
  if (posEventConfirmNumber <=? length txDataInfo)%nat then
    match txDataInfo !! posEventConfirmNumber with
    | None => Panic
    | Some text =>
        match Atoi text with
        | None => Ret currentBlockConfirmations
        | Some confirmedBlockNumber =>
            if params.MaxSignerCount config
               <? u64_sub number (u64 confirmedBlockNumber)
            then Ret currentBlockConfirmations
            else
              match getHeaderByNumber (u64 confirmedBlockNumber) with
              | None => Ret currentBlockConfirmations
              | Some confirmedHeader =>
                  match types.Extra confirmedHeader with
                  | Ret confirmedHeaderExtra =>
                      if existsb (λ s, bool_decide (s = confirmer))
                           (SignerQueue confirmedHeaderExtra)
                      then
                        Ret (currentBlockConfirmations
                               ++ [mkConfirmation confirmer
                                     (int64 confirmedBlockNumber)])
                      else Ret currentBlockConfirmations
                  | _ => Ret currentBlockConfirmations
                  end
              end
        end
    end
  else Ret currentBlockConfirmations.

(** *** Snapshot file: the in-turn test and the rewards *)

(** [inturn]; the division is by [config.Period]. *)
Definition inturn (s : Snapshot) (signer : Address) (header : types.Header)
    : outcome error bool :=
  if decide (types.Coinbase header ≠ signer) then Ret false
  else
    match Signers s with
    | [] => Ret false
    | _ :: _ =>
        if decide (params.Period (config s) = 0) then Panic
        else
          let loopIndex :=
            (u64_sub (Uint64 (types.Time header)) (LoopStartTime s)
             / params.Period (config s))
            mod Z.of_nat (length (Signers s)) in
          match Signers s !! Z.to_nat loopIndex with
          | Some a => Ret (bool_decide (a = signer))
          | None => Panic
          end
    end.

(** [big.Int.Div]: Euclidean division, the remainder is never negative;
    a zero divisor panics. *)
Definition big_Div (x y : Z) : outcome error Z :=
  if decide (y = 0) then Panic
  else if 0 <? y then Ret (x / y)
  else Ret (- (x / - y)).

(** The sum of the values of a map. *)
Definition map_sum (m : gmap Address Z) : Z :=
  map_fold (λ _ v acc, v + acc) 0 m.

(** The first loop of [calculateReward]: the stakes of the votes for the
    coinbase, without the voters that are cancelling from block 1507109
    on. *)
Definition rewardedStakes (s : Snapshot) (coinbase : Address) : gmap Address Z :=
  Stake <$>
    filter (λ entry : Address * Vote,
              Candidate entry.2 = coinbase
              ∧ (1507109 ≤ Number s → Cancelers s !! entry.1 = None))
           (Votes s).

(** [calculateReward]: the second loop multiplies and divides each entry;
    with no entry nothing is divided. *)
Definition calculateReward (s : Snapshot) (coinbase : Address)
    (votersReward : Z) : outcome error (gmap Address Z) :=
  let rewards := rewardedStakes s coinbase in
  let allStake := map_sum rewards in
  if decide (rewards = ∅) then Ret ∅
  else if decide (allStake = 0) then Panic
  else Ret ((λ stake,
               if 0 <? allStake then stake * votersReward / allStake
               else - (stake * votersReward / - allStake)) <$> rewards).

(** *** Engine file: the block reward *)

Definition SecondsPerYear : Z := 2 * 365 * 24 * 3600.
Definition SignerBlockReward : Z := 5 * 5000000000000000000.
Definition MinerRewardPerThousand : Z := 618.

(** [accumulateRewards]; [config] is [config.Alien] of the chain. The loop
    over the rewards adds to balances. *)
Definition accumulateRewards (config : params.AlienConfig) (state : StateDB)
    (header : types.Header) (snap : Snapshot) : outcome error StateDB :=
  if decide (params.Period config = 0) then Panic
  else
    let blockNumPerYear := SecondsPerYear / params.Period config in
    if decide (blockNumPerYear = 0) then Panic
    else
      let yearCount := Uint64 (types.Number header) / blockNumPerYear in
      let blockReward := Z.shiftr SignerBlockReward yearCount in
      if negb (params.SideChain config) then
        let minerReward := blockReward * MinerRewardPerThousand / 1000 in
        let votersReward := blockReward - minerReward in
        rewards ← calculateReward snap (types.Coinbase header) votersReward;
        let state :=
          foldl (λ state entry, AddBalance state entry.1 entry.2) state
            (map_to_list rewards) in
        Ret (AddBalance state (types.Coinbase header) minerReward)
      else Ret (AddBalance state (types.Coinbase header) blockReward).

(** *** Signer queue file *)

Inductive queue_error : Type :=
| errCreateSignerQueueNotAllowed
| errInvalidSignerQueue
| errSignerQueueEmpty.

Record SignerItem : Type := mkSignerItem {
  signerAddr : Address;
  signerHash : common.Hash;
}.

(** The body of [SignerSlice.Less] on the two items it reads. *)
Definition signerLess (x y : SignerItem) : bool :=
  0 <? bytes_Compare (bytes_of (signerHash x)) (bytes_of (signerHash y)).

(** The body of the loop of [buildTallySlice] for one entry of the tally. *)
Definition tallyItemOf (s : Snapshot) (entry : Address * Z) : option TallyItem :=
  let '(address, stake) := entry in
  if stake <=? 0 then None
  else
    match Punished s !! address with
    | Some punished =>
        let creditWeight :=
          if defaultFullCredit - minCalSignerQueueCredit <? punished
          then minCalSignerQueueCredit
          else u64_sub defaultFullCredit punished in
        Some (mkTallyItem address (stake * int64 creditWeight))
    | None => Some (mkTallyItem address (stake * defaultFullCredit))
    end.

(** [buildTallySlice] ranges over the tally; Go leaves the order of the
    items open, the model takes the order of [map_to_list]. *)
Definition buildTallySlice (s : Snapshot) : list TallyItem :=
  omap (tallyItemOf s) (map_to_list (Tally s)).

Section signer_queue.

(** What [sort.Sort] leaves in a tally slice and in a signer slice. *)
Variable sortTally : list TallyItem → list TallyItem.
Variable sortSigners : list SignerItem → list SignerItem.

(** [SignerItem{addr, s.HistoryHash[len(s.HistoryHash)-1-i]}] for the
    addresses from index [i] on; an index below 0 panics. *)
Fixpoint pairWithHistory (historyHash : list common.Hash) (i : nat)
    (addresses : list Address) : outcome error (list SignerItem) :=
  match addresses with
  | [] => Ret []
  | a :: rest =>
      if (i <? length historyHash)%nat then
        match historyHash !! (length historyHash - 1 - i)%nat with
        | Some hash =>
            items ← pairWithHistory historyHash (S i) rest;
            Ret (mkSignerItem a hash :: items)
        | None => Panic
        end
      else Panic
  end.

(** [applyMainTally]: [mainSigners] are the signers of the current
    snapshot of the main chain. *)
Definition applyMainTally (s : Snapshot) (mainSigners : list Address)
    : outcome error (list SignerItem) :=
  items ← pairWithHistory (HistoryHash s) 0 mainSigners;
  Ret (sortSigners items).

(** The last loop of [createSignerQueue]:
    [signerSlice[i%len(signerSlice)].addr] for [i] below [count]. *)
Definition topStakeAddress (signerSlice : list SignerItem) (count : nat)
    : outcome error (list Address) :=
  match count, signerSlice with
  | O, _ => Ret []
  | S _, [] => Panic
  | S _, d :: _ =>
      Ret ((λ i, signerAddr
                   (default d (signerSlice !! (i mod length signerSlice)%nat)))
             <$> seq 0 count)
  end.

Definition createSignerQueue (s : Snapshot) (mainSigners : list Address)
    : outcome queue_error (list Address) :=
  let maxSignerCount := params.MaxSignerCount (config s) in
  if decide (maxSignerCount = 0) then Panic
  else if decide (u64_add (Number s) 1 mod maxSignerCount ≠ 0)
  then Fail errCreateSignerQueueNotAllowed
  else
    match last (HistoryHash s) with
    | None => Panic
    | Some lastHash =>
        if decide (Hash s ≠ lastHash) then Fail errCreateSignerQueueNotAllowed
        else
          let loops := u64_mul maxSignerCount (LCRS s) in
          if decide (loops = 0) then Panic
          else
            let paired : outcome error (list SignerItem) :=
              if decide (u64_add (Number s) 1 mod loops = 0) then
                let tallySlice := sortTally (buildTallySlice s) in
                let queueLength :=
                  if Z.of_nat (length tallySlice) <? int64 maxSignerCount
                  then Z.of_nat (length tallySlice)
                  else int64 maxSignerCount in
                if queueLength <? 0 then Panic
                else
                  pairWithHistory (HistoryHash s) 0
                    (addr <$> take (Z.to_nat queueLength) tallySlice)
              else pairWithHistory (HistoryHash s) 0 (Signers s) in
            match paired with
            | Ret items =>
                let signerSlice := sortSigners items in
                let refilled : outcome queue_error (list SignerItem) :=
                  match signerSlice with
                  | [] =>
                      match ParseUint (params.AppId (config s)) with
                      | Some appid =>
                          if appid <=? 100 then
                            match applyMainTally s mainSigners with
                            | Ret items' => Ret items'
                            | _ => Panic
                            end
                          else Fail errSignerQueueEmpty
                      | None => Fail errSignerQueueEmpty
                      end
                  | _ :: _ => Ret signerSlice
                  end in
                match refilled with
                | Ret signerSlice =>
                    match topStakeAddress signerSlice
                            (Z.to_nat (int64 maxSignerCount)) with
                    | Ret queue => Ret queue
                    | _ => Panic
                    end
                | Fail e => Fail e
                | Panic => Panic
                | OutOfFuel => OutOfFuel
                end
            | _ => Panic
            end
    end.

(** [verifySignerQueue]. *)
Definition verifySignerQueue (s : Snapshot) (signerQueue : list Address)
    (mainSigners : list Address) : outcome queue_error unit :=
  if int64 (params.MaxSignerCount (config s)) <? Z.of_nat (length signerQueue)
  then Fail errInvalidSignerQueue
  else
    sq ← createSignerQueue s mainSigners;
    if bool_decide (length sq = 0%nat) || bool_decide (length sq ≠ length signerQueue)
    then Fail errInvalidSignerQueue
    else if bool_decide (signerQueue = sq) then Ret ()
    else Fail errInvalidSignerQueue.

End signer_queue.

(** *** Engine file: the seal of a header on the main chain *)

(** The errors of [verifySeal]: those of the snapshot, of [ecrecover] and
    of the decoder, those of the signer queue, and [errPunishedMissing]. *)
Inductive seal_error : Type :=
| sealError (e : error)
| sealQueueError (e : queue_error)
| errPunishedMissing.

Definition sealStep {A} (o : outcome error A) : outcome seal_error A :=
  match o with
  | Ret a => Ret a
  | Fail e => Fail (sealError e)
  | Panic => Panic
  | OutOfFuel => OutOfFuel
  end.

(** [for i := 0; i < int(MaxSignerCount); i++] over the two queues, from
    index [i] on, [n] rounds; an index out of range panics. *)
Fixpoint sameSignerQueue_loop (parentQueue currentQueue : list Address)
    (i n : nat) : outcome seal_error unit :=
  match n with
  | O => Ret ()
  | S n' =>
      match parentQueue !! i, currentQueue !! i with
      | Some p, Some c =>
          if decide (p ≠ c) then Fail (sealQueueError errInvalidSignerQueue)
          else sameSignerQueue_loop parentQueue currentQueue (S i) n'
      | _, _ => Panic
      end
  end.

(** [for i, signerMissing := range currentHeaderExtra.SignerMissing], from
    index [i] on. *)
Fixpoint sameSignerMissing_loop (parentSignerMissing : list Address) (i : nat)
    (signerMissing : list Address) : outcome seal_error unit :=
  match signerMissing with
  | [] => Ret ()
  | m :: rest =>
      match parentSignerMissing !! i with
      | Some p =>
          if decide (p ≠ m) then Fail errPunishedMissing
          else sameSignerMissing_loop parentSignerMissing (S i) rest
      | None => Panic
      end
  end.

Section seal.
Variable sortTally : list TallyItem → list TallyItem.
Variable sortSigners : list SignerItem → list SignerItem.

(** [verifySeal] on a chain whose configuration is not a side chain's.
    [config] is [a.config], [snapshot] what [a.snapshot] returns for the
    parent block, [parent] the last of [parents] or what [chain.GetHeader]
    returns, [mainSigners] as in [createSignerQueue]. The branch of a side
    chain asks the main chain over the network and is left out. *)
Definition verifySeal (config : params.AlienConfig)
    (snapshot : outcome error Snapshot) (parent : option types.Header)
    (header : types.Header) (mainSigners : list Address)
    : outcome seal_error unit :=
  let number := Uint64 (types.Number header) in
  if decide (number = 0) then Fail (sealError errUnknownBlock)
  else
    snap ← sealStep snapshot;
    signer ← sealStep (types.ecrecover header);
    _ ← (if params.MaxSignerCount config <? number then
           match parent with
           | None => Panic
           | Some parent =>
               parentHeaderExtra ← sealStep (types.Extra parent);
               currentHeaderExtra ← sealStep (types.Extra header);
               _ ← (if decide (params.MaxSignerCount config = 0) then Panic
                    else if decide (number mod params.MaxSignerCount config = 0)
                    then
                      match verifySignerQueue sortTally sortSigners snap
                              (SignerQueue currentHeaderExtra) mainSigners with
                      | Ret _ => Ret ()
                      | Fail e => Fail (sealQueueError e)
                      | Panic => Panic
                      | OutOfFuel => OutOfFuel
                      end
                    else
                      sameSignerQueue_loop (SignerQueue parentHeaderExtra)
                        (SignerQueue currentHeaderExtra) 0
                        (Z.to_nat (int64 (params.MaxSignerCount config))));
               let parentSignerMissing :=
                 getSignerMissing (types.Coinbase parent)
                   (types.Coinbase header) parentHeaderExtra in
               if decide (length parentSignerMissing
                          ≠ length (SignerMissing currentHeaderExtra))
               then Fail errPunishedMissing
               else sameSignerMissing_loop parentSignerMissing 0
                      (SignerMissing currentHeaderExtra)
           end
         else Ret ());
    inTurn ← sealStep (inturn snap signer header);
    if inTurn : bool then Ret () else Fail (sealError errUnauthorized).

End seal.

(** *** RPC file: the balances and tallies *)

Inductive api_error : Type :=
| apiUnknownBlock
| apiSnapshot (e : error)
| apiNoFreezeBalance (address : Address)
| apiNoTally.

(** The look-up of the snapshot of the current header, shared by the
    functions of the interface. *)
Definition currentSnapshot (currentHeader : option types.Header)
    (snapshot : outcome error Snapshot) : outcome api_error Snapshot :=
  match currentHeader with
  | None => Fail apiUnknownBlock
  | Some _ =>
      match snapshot with
      | Ret s => Ret s
      | Fail e => Fail (apiSnapshot e)
      | Panic => Panic
      | OutOfFuel => OutOfFuel
      end
  end.

(** [GetFreezeBalance]: the stake of the vote, converted to [uint64]. *)
Definition GetFreezeBalance (currentHeader : option types.Header)
    (snapshot : outcome error Snapshot) (address : Address)
    : outcome api_error Z :=
  snapshot ← currentSnapshot currentHeader snapshot;
  match Votes snapshot !! address with
  | Some vote => Ret (Uint64 (Stake vote))
  | None => Fail (apiNoFreezeBalance address)
  end.

(** [GetTally]. *)
Definition GetTally (currentHeader : option types.Header)
    (snapshot : outcome error Snapshot) (address : Address)
    : outcome api_error Z :=
  snapshot ← currentSnapshot currentHeader snapshot;
  match Tally snapshot !! address with
  | Some tally => Ret (Uint64 tally)
  | None => Fail apiNoTally
  end.

(** [GetVote]: nil when the address has no vote. *)
Definition GetVote (currentHeader : option types.Header)
    (snapshot : outcome error Snapshot) (address : Address)
    : outcome api_error (option Vote) :=
  snapshot ← currentSnapshot currentHeader snapshot;
  Ret (Votes snapshot !! address).

End alien.

Import alien.
Import alien.common.

(** * Specification-side definitions and example chains *)

(** ** The orders the specification speaks of *)

(** "Compares greater, byte by byte": the first byte that differs is the
    greater one, or the other string is a proper prefix. *)
Inductive lex_greater : list N → list N → Prop :=
| lex_greater_longer x a : lex_greater (x :: a) []
| lex_greater_head x y a b : (y < x)%N → lex_greater (x :: a) (y :: b)
| lex_greater_tail x a b : lex_greater a b → lex_greater (x :: a) (x :: b).

(** [x] sorts before [y] in the tally slice. *)
Definition tallyBefore (x y : TallyItem) : Prop := itemLess x y = true.

(** ** The signer-missing list of the specification *)

(** The queue before and after the first occurrence of [a]. *)
Fixpoint split_at (a : Address) (l : list Address)
    : option (list Address * list Address) :=
  match l with
  | [] => None
  | x :: l' =>
      if decide (x = a) then Some ([], l')
      else '(before, after) ← split_at a l'; Some (x :: before, after)
  end.

(** The entries before the first occurrence of [a]. *)
Fixpoint up_to (a : Address) (l : list Address) : list Address :=
  match l with
  | [] => []
  | x :: l' => if decide (x = a) then [] else x :: up_to a l'
  end.

(** The signer-missing list as the specification words it: the queue is
    read as a cycle, from just after the first occurrence of the previous
    coinbase up to the current coinbase, both left out; the segment goes
    on at the head of the queue when the end is reached first. *)
Definition cyclic_signerMissing (lastSigner currentSigner : Address)
    (extra : HeaderExtra) : list Address :=
  match split_at lastSigner (SignerQueue extra) with
  | Some (before, after) => up_to currentSigner (after ++ before)
  | None => []
  end.

(** The entries the single pass of the code visits: the queue up to the
    first occurrence of the current coinbase, and all of it when the current
    coinbase is the previous one or is not in the queue. *)
Definition visited_signers (lastSigner currentSigner : Address)
    (queue : list Address) : list Address :=
  if decide (lastSigner = currentSigner) then queue
  else up_to currentSigner queue.

(** The signer-missing list of one pass, in words: of the entries the pass
    visits, those after the first occurrence of the previous coinbase that
    are not the previous coinbase; nothing when the pass does not meet the
    previous coinbase. *)
Definition segment_signerMissing (lastSigner currentSigner : Address)
    (extra : HeaderExtra) : list Address :=
  match split_at lastSigner
          (visited_signers lastSigner currentSigner (SignerQueue extra)) with
  | Some (_, after) => filter (λ signer, signer ≠ lastSigner) after
  | None => []
  end.

(** ** The walk of the specification over the confirmations *)

(** The number of distinct signers that confirmed block [n]. *)
Definition distinctSigners (confirmations : gmap Z (list Address)) (n : Z) : nat :=
  match confirmations !! n with
  | Some confirmers => size (list_to_set confirmers : gset Address)
  | None => 0%nat
  end.

(** The walk as the specification words it: from [n] down over [k]
    heights, the first one confirmed by more than [quorum] distinct signers;
    when there is none, the lowest height of the walk. *)
Fixpoint firstConfirmed (confirmations : gmap Z (list Address)) (quorum : Z)
    (k : nat) (n : Z) : Z :=
  match k with
  | O => n + 1
  | S k' =>
      if quorum <? Z.of_nat (distinctSigners confirmations n) then n
      else firstConfirmed confirmations quorum k' (n - 1)
  end.

(** No signer is listed twice for a block. *)
Definition confirmers_unique (confirmations : gmap Z (list Address)) : Prop :=
  map_Forall (λ _ confirmers, NoDup confirmers) confirmations.

(** ** Conditions and invariants of the snapshot *)

(** The condition of the unfreeze loop of [Finalize] on the numbers: [n]
    is the block number of the cancel. *)
Definition unfreezeAt (snap : Snapshot) (number n : Z) (cancel : Cancel) : bool :=
  if Passive cancel then bool_decide (number = u64_add 1 (Uint64 n))
  else bool_decide
         (u64_add number 2
          = u64_add (Uint64 n)
              (params.Freeze (config snap) / params.Period (config snap))).

(** [s'] has the parameters, the number and the history of [s], and no
    punishment that [s] does not have. *)
Definition frame (s s' : Snapshot) : Prop :=
  config s' = config s ∧ Number s' = Number s
  ∧ HistoryHash s' = HistoryHash s ∧ Punished s' ⊆ Punished s.

(** The largest counter an update can leave behind: the last increment
    starts from at most [10 * defaultFullCredit], and the same update takes
    [autoRewardCredit] off again. *)
Definition punishedCap : Z :=
  10 * defaultFullCredit + missingPublishCredit - autoRewardCredit.

Definition punished_bounded (punished : gmap Address Z) : Prop :=
  map_Forall (λ _ v, 0 ≤ v ≤ punishedCap) punished.

Definition punished_below (cap : Z) (punished : gmap Address Z) : Prop :=
  map_Forall (λ _ v, 0 ≤ v ≤ cap) punished.

(** The history with one more hash, cut at the front to [bound] entries. *)
Definition pushHistory (bound : nat) (historyHash : list Hash) (hash : Hash)
    : list Hash :=
  let l := historyHash ++ [hash] in drop (length l - bound) l.

(** The votes for a candidate that a snapshot shows in a store. *)
Definition candidateVotes (st : store) (s : Snapshot) (candidate : Address)
    : option (list Vote) :=
  view st <$> Candidates s !! candidate.

(** The snapshots the engine can hold: the genesis snapshot and what
    [apply] returns on one of them. *)
Inductive reachable (growslice : nat → nat) (config : params.AlienConfig)
    : Snapshot → Prop :=
| reachable_genesis hash votes lcrs now st st' s :
    newSnapshot growslice config hash votes lcrs now st = (st', Ret s) →
    reachable growslice config s
| reachable_apply fuel s headers st st' s' :
    reachable growslice config s →
    apply growslice fuel s headers st = (st', Ret s') →
    reachable growslice config s'.

(** ** The inputs of the examples *)

(** Addresses of 20 bytes and hashes of 32 bytes. *)
Definition addrA : Address := "AAAAAAAAAAAAAAAAAAAA".
Definition addrB : Address := "BBBBBBBBBBBBBBBBBBBB".
Definition addrC : Address := "CCCCCCCCCCCCCCCCCCCC".
Definition addrD : Address := "DDDDDDDDDDDDDDDDDDDD".
Definition addrE : Address := "EEEEEEEEEEEEEEEEEEEE".

Definition hashOf (n : nat) : Hash :=
  String (Ascii.ascii_of_nat n) "0000000000000000000000000000000".

(** [common.Hash{}], the hash of a genesis vote. *)
Definition zeroHash : Hash :=
  String.string_of_list_ascii (replicate 32 Ascii.zero).

(** The growth of the Go run time for short slices: one cell, then twice
    the old capacity. *)
Definition growslice_double (oldCap : nat) : nat :=
  match oldCap with O => 1%nat | _ => (2 * oldCap)%nat end.

(** Period 5 s, 21 signers, freeze 20 s, A the only self-vote signer. *)
Definition chainConfig : params.AlienConfig :=
  params.mkAlienConfig 5 21 100 5000 20 1000 [addrA] "" false.

(** The parameters of [chainConfig] on a side chain. *)
Definition sideChainConfig : params.AlienConfig :=
  params.mkAlienConfig 5 21 100 5000 20 1000 [addrA] "7" true.

Definition voteA : Vote := mkVote addrA addrA 5000 zeroHash.
Definition voteD : Vote := mkVote addrD addrA 100 (hashOf 68).
Definition voteE : Vote := mkVote addrE addrA 100 (hashOf 69).

(** The genesis snapshot, with the self-vote of A, in an empty store. *)
Definition genesis : store * outcome error Snapshot :=
  newSnapshot growslice_double chainConfig (hashOf 0) [voteA] 1 2000 [].

(** Block [number] signed by A in turn, with the given votes, cancels and
    missing signers. *)
Definition block (number : Z) (votes : list Vote) (cancels : list Cancel)
    (missing : list Address) : types.Header :=
  types.mkHeader number (1000 + 5 * number) addrA (hashOf (Z.to_nat number))
    (Ret addrA)
    (Ret (mkHeaderExtra [] votes cancels 1000 [addrA; addrB] missing 0)).

(** The same block with a seal that recovers to another address. *)
Definition forged (number : Z) : types.Header :=
  types.mkHeader number (1000 + 5 * number) addrA (hashOf (Z.to_nat number))
    (Ret addrB)
    (Ret (mkHeaderExtra [] [] [] 1000 [addrA; addrB] [] 0)).

(** Headers one at a time, each on the snapshot of the one before. *)
Definition applyEach (fuel : nat) (s : Snapshot) (headers : list types.Header)
    : M Snapshot :=
  foldM (λ s header, apply growslice_double fuel s [header]) headers s.

(** The snapshot a computation returns, when it returns one. *)
Definition emptySnapshot : Snapshot :=
  mkSnapshot chainConfig 0 0 0 0 zeroHash [] [] ∅ ∅ ∅ ∅ ∅ ∅ ∅ ∅ 0 0.

Definition result_snapshot (r : store * outcome error Snapshot) : Snapshot :=
  match r with
  | (_, Ret s) => s
  | _ => emptySnapshot
  end.

Definition genesisStore : store := genesis.1.
Definition genesisSnapshot : Snapshot := result_snapshot genesis.

(** A queue of four signers. *)
Definition queueABCD : HeaderExtra :=
  mkHeaderExtra [] [] [] 0 [addrA; addrB; addrC; addrD] [] 0.

(** A queue that repeats its signers, as it does when there are fewer
    candidates than places. *)
Definition queueABCABC : HeaderExtra :=
  mkHeaderExtra [] [] [] 0 [addrA; addrB; addrC; addrA; addrB; addrC] [] 0.

(** A queue in which A has two places before C. *)
Definition queueABADCE : HeaderExtra :=
  mkHeaderExtra [] [] [] 0 [addrA; addrB; addrA; addrD; addrC; addrE] [] 0.

(** A snapshot of block 7 in which A is a candidate, and a transaction of
    D to A with the text of a vote of 100. *)
Definition voteSnapshot : Snapshot :=
  mkSnapshot chainConfig 1 5 7 0 (hashOf 7) [hashOf 7] [] ∅ ∅ ∅ ∅ ∅
    {[addrA := nil_slice]} ∅ ∅ 0 0.

Definition voteTx : Transaction :=
  mkTransaction (Some addrA) 0 "ufo:1:event:vote:100" (hashOf 116).

(** D voted 100 for A and cancelled at block 10; freeze 20 s, period 5 s. *)
Definition frozenSnapshot : Snapshot :=
  mkSnapshot chainConfig 1 5 11 0 (hashOf 11) [hashOf 11] []
    {[addrD := voteD]} ∅ {[addrD := 9]}
    {[addrD := mkCancel addrD false]} {[addrD := 10]}
    {[addrA := nil_slice]} ∅ ∅ 0 0.

(** 102 blocks in a row in which B misses its turn, applied to the genesis
    snapshot in one call. *)
Definition missedBlocks : list types.Header :=
  (λ n, block (Z.of_nat n) [] [] [addrB]) <$> seq 1 102.

Definition missedResult : store * outcome error Snapshot :=
  apply growslice_double 0 genesisSnapshot missedBlocks genesisStore.
Definition missedSnapshot : Snapshot := result_snapshot missedResult.

(** A counter at 10000 that is punished once more. *)
Definition punishedSnapshot : Snapshot :=
  mkSnapshot chainConfig 1 5 7 0 (hashOf 7) [hashOf 7] [] ∅ ∅ ∅ ∅ ∅ ∅
    {[addrB := 10000]} ∅ 0 0.

(** A cancels its self-vote in block 1; blocks 2 to 5 carry nothing. *)
Definition cancelBlocks : list types.Header :=
  [block 1 [] [mkCancel addrA false] []; block 2 [] [] []; block 3 [] [] [];
   block 4 [] [] []; block 5 [] [] []].

Definition batchResult : store * outcome error Snapshot :=
  apply growslice_double 4 genesisSnapshot cancelBlocks genesisStore.
Definition batchSnapshot : Snapshot := result_snapshot batchResult.

Definition stepResult : store * outcome error Snapshot :=
  applyEach 4 genesisSnapshot cancelBlocks genesisStore.
Definition stepSnapshot : Snapshot := result_snapshot stepResult.

(** D and E vote for A in block 1, D cancels in block 2. *)
Definition voteBlocks : list types.Header :=
  [block 1 [voteD; voteE] [] []; block 2 [] [mkCancel addrD false] [];
   block 3 [] [] []; block 4 [] [] []; block 5 [] [] []].

(** The snapshot of block 5, one call of [apply] per block. *)
Definition receiverResult : store * outcome error Snapshot :=
  applyEach 4 genesisSnapshot voteBlocks genesisStore.
Definition receiverStore : store := receiverResult.1.
Definition receiver : Snapshot := result_snapshot receiverResult.

(** A good block 6 and a block 7 whose seal is not the coinbase's. *)
Definition failedResult : store * outcome error Snapshot :=
  apply growslice_double 4 receiver [block 6 [] [] []; forged 7] receiverStore.

(** Fifteen signers confirm block [n]. *)
Definition fifteenSigners : list Address :=
  ["SIGNER00000000000001"; "SIGNER00000000000002"; "SIGNER00000000000003";
   "SIGNER00000000000004"; "SIGNER00000000000005"; "SIGNER00000000000006";
   "SIGNER00000000000007"; "SIGNER00000000000008"; "SIGNER00000000000009";
   "SIGNER00000000000010"; "SIGNER00000000000011"; "SIGNER00000000000012";
   "SIGNER00000000000013"; "SIGNER00000000000014"; "SIGNER00000000000015"].

Definition confirmBlock (n : Z) : list Confirmation :=
  (λ signer, mkConfirmation signer n) <$> fifteenSigners.

(** The same snapshot twenty blocks later. *)
Definition laterSnapshot : Snapshot := set_Number 25 receiver.


(** ** Orders, invariants and example chains of the further properties *)

(** *** The sort of the tally slice and of the signer slice

    [sort.Sort] leaves a slice in which no item is less than an item
    before it; the relations below say so for the two [Less] methods, and
    the two example sorts are merge sorts by them. *)
Definition tallyNotAfter (x y : TallyItem) : Prop := itemLess y x = false.
Definition signerNotAfter (x y : SignerItem) : Prop := signerLess y x = false.

#[global] Instance TallyItem_eq_dec : EqDecision TallyItem.
Proof. solve_decision. Defined.

#[global] Instance tallyNotAfter_dec : RelDecision tallyNotAfter.
Proof. intros x y. unfold tallyNotAfter. apply _. Defined.
#[global] Instance signerNotAfter_dec : RelDecision signerNotAfter.
Proof. intros x y. unfold signerNotAfter. apply _. Defined.

Definition sortTallyExample : list TallyItem → list TallyItem :=
  merge_sort tallyNotAfter.
Definition sortSignersExample : list SignerItem → list SignerItem :=
  merge_sort signerNotAfter.

(** Three signers a loop; A, B, D and E vote for themselves, B has missed
    eight turns. Block 2 ends a loop. *)
Definition queueConfig : params.AlienConfig :=
  params.mkAlienConfig 5 3 100 100 20 1000 [addrA] "" false.

Definition queueSnapshot : Snapshot :=
  mkSnapshot queueConfig 1 5 2 0 (hashOf 2) [hashOf 0; hashOf 1; hashOf 2]
    [addrA; addrB; addrD]
    {[addrA := mkVote addrA addrA 5000 zeroHash;
      addrB := mkVote addrB addrB 300 zeroHash;
      addrD := mkVote addrD addrD 200 zeroHash;
      addrE := mkVote addrE addrE 100 zeroHash]}
    {[addrA := 5000; addrB := 300; addrD := 200; addrE := 100]}
    {[addrA := 0; addrB := 0; addrD := 0; addrE := 0]} ∅ ∅
    {[addrA := nil_slice; addrB := nil_slice; addrD := nil_slice;
      addrE := nil_slice]}
    {[addrB := 800]} ∅ 1010 1000.

(** The votes and the cancels of a snapshot fit together: every vote and
    every cancel is filed under its own address, a block number is kept
    for exactly the voters and for exactly the cancelers, and every
    canceler has a vote. *)
Definition snapshot_consistent (s : Snapshot) : Prop :=
  map_Forall (λ voter vote, Voter vote = voter) (Votes s)
  ∧ map_Forall (λ canceler cancel, Canceler cancel = canceler) (Cancels s)
  ∧ dom (Voters s) = dom (Votes s)
  ∧ dom (Cancelers s) = dom (Cancels s)
  ∧ dom (Cancels s) ⊆ dom (Votes s).

(** [s'] has the fields of [s] that only the header sets: the
    confirmations, the signers, the times, the confirmed number, the hash
    and the loop parameters. *)
Definition same_header_fields (s s' : Snapshot) : Prop :=
  Confirmations s' = Confirmations s ∧ Signers s' = Signers s
  ∧ HeaderTime s' = HeaderTime s ∧ LoopStartTime s' = LoopStartTime s
  ∧ ConfirmedNumber s' = ConfirmedNumber s ∧ LCRS s' = LCRS s
  ∧ alien.Period s' = alien.Period s ∧ alien.Hash s' = alien.Hash s.

(** No confirmation is for a block more than [MaxSignerCount] below the
    number of the snapshot, in [uint64] arithmetic. *)
Definition confirmations_recent (s : Snapshot) : Prop :=
  map_Forall (λ blockNumber _,
                u64_sub (Number s) blockNumber
                ≤ params.MaxSignerCount (config s))
             (Confirmations s).

(** Block 1 carries the cancel of A, the only voter for A. *)
Definition cancelledResult : store * outcome error Snapshot :=
  apply growslice_double 4 genesisSnapshot
    [block 1 [] [mkCancel addrA false] []] genesisStore.
Definition cancelledStore : store := cancelledResult.1.
Definition cancelledSnapshot : Snapshot := result_snapshot cancelledResult.

(** D and E vote for A, D is cancelling; block 1507109 is reached. *)
Definition rewardSnapshot : Snapshot :=
  mkSnapshot chainConfig 1 5 1507109 0 (hashOf 9) [hashOf 9] [addrA; addrB]
    {[addrA := voteA; addrD := voteD; addrE := voteE]}
    {[addrA := 5100]} {[addrA := 0; addrD := 1; addrE := 1]}
    {[addrD := mkCancel addrD false]} {[addrD := 1507108]}
    {[addrA := nil_slice]} ∅ ∅ 0 1000.

(** The balances after the reward of block 1507110, from no balance. *)
Definition rewardedState : StateDB :=
  match accumulateRewards chainConfig ∅ (block 1507110 [] [] [])
          rewardSnapshot with
  | Ret state => state
  | _ => ∅
  end.

(** Block 1 carries two confirmations of A and one of B for block 0. *)
Definition confirmedResult : store * outcome error Snapshot :=
  apply growslice_double 4 genesisSnapshot
    [types.mkHeader 1 1005 addrA (hashOf 1) (Ret addrA)
       (Ret (mkHeaderExtra
               [mkConfirmation addrA 0; mkConfirmation addrB 0;
                mkConfirmation addrA 0]
               [] [] 1000 [addrA; addrB] [] 0))]
    genesisStore.
Definition confirmedSnapshot : Snapshot := result_snapshot confirmedResult.

(** What a run of the loop of [updateSnapshotByCancels] from [s] to [s']
    keeps and what it adds, for cancels at block [headerNumber]. *)
Definition cancels_added (headerNumber : Z) (s s' : Snapshot) : Prop :=
  Votes s' = Votes s ∧ Voters s' = Voters s ∧ Candidates s' = Candidates s
  ∧ Cancels s ⊆ Cancels s'
  ∧ dom (Tally s') = dom (Tally s)
  ∧ (∀ canceler, is_Some (Cancels s !! canceler) →
       Cancelers s' !! canceler = Cancelers s !! canceler)
  ∧ (∀ canceler cancel,
       Cancels s' !! canceler = Some cancel → Cancels s !! canceler = None →
       Canceler cancel = canceler ∧ Cancelers s' !! canceler = Some headerNumber
       ∧ ∃ vote, Votes s !! canceler = Some vote
                 ∧ is_Some (Tally s !! Candidate vote)).

(** D and E have voted for A in block 1. *)
Definition votedResult : store * outcome error Snapshot :=
  apply growslice_double 4 genesisSnapshot [block 1 [voteD; voteE] [] []]
    genesisStore.
Definition votedStore : store := votedResult.1.
Definition votedSnapshot : Snapshot := result_snapshot votedResult.

(** The freeze of a cancel filed at block [n] is over at the snapshot:
    one block after a passive cancel, [Freeze/Period] blocks after an
    active one, in [uint64] arithmetic. *)
Definition freezeOver (s : Snapshot) (n : Z) (cancel : Cancel) : bool :=
  if Passive cancel then u64_add (Uint64 n) 1 <? Number s
  else params.Freeze (config s) / params.Period (config s)
       <=? u64_sub (u64_add (Number s) 1) (Uint64 n).

(** [s'] has at [address] the vote, the voter, the cancel and the canceler
    entries of [s]. *)
Definition same_entries (address : Address) (s s' : Snapshot) : Prop :=
  Votes s' !! address = Votes s !! address
  ∧ Voters s' !! address = Voters s !! address
  ∧ Cancels s' !! address = Cancels s !! address
  ∧ Cancelers s' !! address = Cancelers s !! address.

(** [s'] has none of the four entries at [address]. *)
Definition no_entries (address : Address) (s' : Snapshot) : Prop :=
  Votes s' !! address = None ∧ Voters s' !! address = None
  ∧ Cancels s' !! address = None ∧ Cancelers s' !! address = None.

(** Blocks 3 and 4 of a chain with three signers a loop: D signs block 3
    and A block 4, both in turn. *)
Definition sealParent : types.Header :=
  types.mkHeader 3 1010 addrD (hashOf 3) (Ret addrD)
    (Ret (mkHeaderExtra [] [] [] 1000 [addrA; addrB; addrD] [] 0)).

Definition sealHeader : types.Header :=
  types.mkHeader 4 1015 addrA (hashOf 4) (Ret addrA)
    (Ret (mkHeaderExtra [] [] [] 1000 [addrA; addrB; addrD] [] 0)).

Definition sealSnapshot : Snapshot :=
  set_HistoryHash [hashOf 1; hashOf 2; hashOf 3]
    (set_Hash (hashOf 3) (set_Number 3 queueSnapshot)).

(** * Properties *)


(** ** The inputs of the examples are well formed *)

Example example_inputs_well_formed :
  Forall (λ a, String.length a = AddressLength)
    ([addrA; addrB; addrC; addrD; addrE] ++ fifteenSigners)
  ∧ String.length zeroHash = HashLength
  ∧ ∀ n, String.length (hashOf n) = HashLength.
Proof.
  split; [|split; [reflexivity | intros n; reflexivity]].
  repeat (constructor; [reflexivity|]). constructor.
Qed.

(** ** Arithmetic of the Go primitives *)

Lemma u64_small x : 0 ≤ x < two64 → u64 x = x.
Proof. intros H. unfold u64. by apply Z.mod_small. Qed.

Lemma u64_range x : 0 ≤ u64 x < two64.
Proof. unfold u64, two64. apply Z.mod_pos_bound. lia. Qed.

Lemma Cmp_pos x y : (0 <? Cmp x y) = true ↔ y < x.
Proof.
  unfold Cmp. destruct (Z.compare_spec x y); rewrite Z.ltb_lt; lia.
Qed.

Lemma Cmp_neg x y : (Cmp x y <? 0) = true ↔ x < y.
Proof.
  unfold Cmp. destruct (Z.compare_spec x y); rewrite Z.ltb_lt; lia.
Qed.

(** ** The ordering of the tally slice *)

Lemma bytes_Compare_greater a b : 0 < bytes_Compare a b ↔ lex_greater a b.
Proof.
  revert b. induction a as [|x a IH]; intros [|y b]; simpl.
  - split; [lia | inversion 1].
  - split; [lia | inversion 1].
  - split; [constructor | lia].
  - destruct (N.ltb_spec x y) as [Hxy|Hxy].
    { split; [lia|]. inversion 1; subst; lia. }
    destruct (N.ltb_spec y x) as [Hyx|Hyx].
    { split; [|lia]. intros _. by constructor. }
    assert (x = y) as -> by lia.
    rewrite IH. split; [by constructor|].
    inversion 1; subst; [lia | done].
Qed.

Lemma bytes_Compare_refl a : bytes_Compare a a = 0.
Proof.
  induction a as [|x a IH]; simpl; [done|].
  by rewrite N.ltb_irrefl.
Qed.

Lemma bytes_Compare_eq a b : bytes_Compare a b = 0 → a = b.
Proof.
  revert b. induction a as [|x a IH]; intros [|y b]; simpl; try done.
  destruct (N.ltb_spec x y) as [?|Hxy]; [done|].
  destruct (N.ltb_spec y x) as [?|Hyx]; [done|].
  intros Hc. f_equal; [lia | by apply IH].
Qed.

Lemma bytes_Compare_flip a b : 0 < bytes_Compare b a ↔ bytes_Compare a b < 0.
Proof.
  revert b. induction a as [|x a IH]; intros [|y b]; simpl; try lia.
  destruct (N.ltb_spec x y), (N.ltb_spec y x); try lia. apply IH.
Qed.

Lemma lex_greater_trans a b c : lex_greater a b → lex_greater b c → lex_greater a c.
Proof.
  intros Hab. revert c.
  induction Hab as [x a|x y a b Hxy|x a b Hab IH]; intros c Hbc;
    inversion Hbc; subst;
    first [ by apply lex_greater_longer
          | by (apply lex_greater_head; lia)
          | by (apply lex_greater_tail; apply IH) ].
Qed.

Lemma bytes_of_inj s t : bytes_of s = bytes_of t → s = t.
Proof.
  unfold bytes_of. intros H.
  rewrite <-(String.string_of_list_ascii_of_string s),
          <-(String.string_of_list_ascii_of_string t).
  f_equal. revert H.
  generalize (String.list_ascii_of_string s) (String.list_ascii_of_string t).
  induction l as [|c l IH]; intros [|c' l']; simpl; try done.
  intros [= Hc Hl]. f_equal; [|by apply IH].
  rewrite <-(Ascii.ascii_N_embedding c), <-(Ascii.ascii_N_embedding c').
  by rewrite Hc.
Qed.

Lemma itemLess_spec x y :
  itemLess x y = true ↔
  stake y < stake x
  ∨ (stake x = stake y ∧ lex_greater (bytes_of (addr x)) (bytes_of (addr y))).
Proof.
  unfold itemLess.
  destruct (0 <? Cmp (stake x) (stake y)) eqn:Hpos.
  { apply Cmp_pos in Hpos. split; [by left | done]. }
  destruct (Cmp (stake x) (stake y) <? 0) eqn:Hneg.
  { apply Cmp_neg in Hneg. split; [done|]. intros [?|[? _]]; lia. }
  assert (¬ stake y < stake x) by (rewrite <-Cmp_pos; congruence).
  assert (¬ stake x < stake y) by (rewrite <-Cmp_neg; congruence).
  rewrite Z.ltb_lt, bytes_Compare_greater.
  split; [intros ?; right; split; [lia | done]|].
  intros [?|[_ ?]]; [lia | done].
Qed.

(** C7. [TallySlice.Less] reads the two items at its indices and orders
    them by stake, larger first, and on equal stakes by address bytes, the
    lexicographically greater first; this is a strict total order on tally
    items. *)
Theorem TallySlice_Less_strict_total_order :
  (∀ (s : TallySlice) (i j : nat) x y,
     s !! i = Some x → s !! j = Some y →
     Less s i j = Ret (itemLess x y)) ∧
  (∀ x y, tallyBefore x y ↔
     stake y < stake x
     ∨ (stake x = stake y
        ∧ lex_greater (bytes_of (addr x)) (bytes_of (addr y)))) ∧
  StrictOrder tallyBefore ∧
  Trichotomy tallyBefore.
Proof.
  split; [|split; [|split]].
  - intros s i j x y Hi Hj. unfold Less. by rewrite Hi, Hj.
  - intros x y. apply itemLess_spec.
  - split.
    + intros x Hx. apply itemLess_spec in Hx as [?|[_ Hx]]; [lia|].
      apply bytes_Compare_greater in Hx. rewrite bytes_Compare_refl in Hx. lia.
    + intros x y z Hxy Hyz. apply itemLess_spec.
      apply itemLess_spec in Hxy as [?|[? Hxy]];
        apply itemLess_spec in Hyz as [?|[? Hyz]]; try (left; lia).
      right. split; [lia|]. by eapply lex_greater_trans.
  - intros x y. unfold tallyBefore. rewrite !itemLess_spec.
    destruct (Z.lt_total (stake x) (stake y)) as [?|[Hs|?]]; [by auto| |by auto].
    destruct (Z.lt_total 0 (bytes_Compare (bytes_of (addr x)) (bytes_of (addr y))))
      as [Hc|[Hc|Hc]].
    + left. right. split; [done|]. by apply bytes_Compare_greater.
    + right. left. symmetry in Hc. apply bytes_Compare_eq, bytes_of_inj in Hc.
      destruct x, y; simpl in *; congruence.
    + right. right. right. split; [done|].
      by apply bytes_Compare_greater, bytes_Compare_flip.
Qed.

(** Two candidates of equal weighted stake: the greater address first. *)
Lemma TallySlice_Less_strict_total_order_witness :
  Less [mkTallyItem addrB 7; mkTallyItem addrA 7] 0 1 = Ret true.
Proof.
  exact (proj1 TallySlice_Less_strict_total_order
           [mkTallyItem addrB 7; mkTallyItem addrA 7]
           0%nat 1%nat _ _ eq_refl eq_refl).
Defined.

(** ** The signers skipped between two blocks *)

(** Closes [x ∉ [a; b; ...]] on literals. *)
Ltac solve_not_elem :=
  let H := fresh "Hin" in
  intros H;
  repeat (apply elem_of_cons in H as [H|H]; [discriminate H|]);
  by apply elem_of_nil in H.

Lemma getSignerMissing_loop_recording lastSigner currentSigner queue acc :
  getSignerMissing_loop lastSigner currentSigner queue true acc
  = acc ++ filter (λ signer, signer ≠ lastSigner)
             (visited_signers lastSigner currentSigner queue).
Proof.
  unfold visited_signers.
  destruct (decide (lastSigner = currentSigner)) as [Heq|Hne];
    revert acc; induction queue as [|x queue IH]; intros acc;
    cbn [getSignerMissing_loop up_to]; try by rewrite app_nil_r.
  - destruct (decide (x = lastSigner)) as [->|Hx].
    + rewrite IH. rewrite filter_cons_False; [done | by intros []].
    + rewrite decide_False by congruence. rewrite IH.
      rewrite filter_cons_True by done. by rewrite <-app_assoc.
  - destruct (decide (x = lastSigner)) as [->|Hx].
    + rewrite decide_False by done. rewrite IH.
      rewrite filter_cons_False; [done | by intros []].
    + destruct (decide (x = currentSigner)) as [->|Hc].
      * by rewrite filter_nil, app_nil_r.
      * rewrite IH. rewrite filter_cons_True by done. by rewrite <-app_assoc.
Qed.

Lemma getSignerMissing_segment lastSigner currentSigner queue :
  getSignerMissing_loop lastSigner currentSigner queue false []
  = match split_at lastSigner
            (visited_signers lastSigner currentSigner queue) with
    | Some (_, after) => filter (λ signer, signer ≠ lastSigner) after
    | None => []
    end.
Proof.
  induction queue as [|x queue IH].
  { unfold visited_signers. by destruct (decide (lastSigner = currentSigner)). }
  cbn [getSignerMissing_loop].
  destruct (decide (x = lastSigner)) as [->|Hx].
  - rewrite getSignerMissing_loop_recording. unfold visited_signers.
    destruct (decide (lastSigner = currentSigner)) as [Heq|Hne];
      cbn [up_to split_at].
    + by rewrite decide_True.
    + rewrite (decide_False (P := lastSigner = currentSigner)) by done.
      cbn [split_at]. by rewrite decide_True.
  - rewrite IH. unfold visited_signers.
    destruct (decide (lastSigner = currentSigner)) as [Heq|Hne];
      cbn [up_to split_at].
    + rewrite decide_False by congruence.
      rewrite (decide_False (P := x = lastSigner)) by done.
      by destruct (split_at lastSigner queue) as [[? ?]|].
    + destruct (decide (x = currentSigner)) as [->|Hc]; [done|].
      cbn [split_at]. rewrite decide_False by done.
      by destruct (split_at lastSigner (up_to currentSigner queue)) as [[? ?]|].
Qed.

Lemma split_at_first a pre rest :
  a ∉ pre → split_at a (pre ++ a :: rest) = Some (pre, rest).
Proof.
  induction pre as [|x pre IH]; intros Hpre; simpl.
  { by rewrite decide_True. }
  apply not_elem_of_cons in Hpre as [? ?].
  rewrite decide_False by done. by rewrite IH.
Qed.

Lemma split_at_absent a l : a ∉ l → split_at a l = None.
Proof.
  induction l as [|x l IH]; intros Hl; simpl; [done|].
  apply not_elem_of_cons in Hl as [? ?].
  rewrite decide_False by done. by rewrite IH.
Qed.

Lemma up_to_first a pre rest : a ∉ pre → up_to a (pre ++ a :: rest) = pre.
Proof.
  induction pre as [|x pre IH]; intros Hpre; simpl.
  { by rewrite decide_True. }
  apply not_elem_of_cons in Hpre as [? ?].
  rewrite decide_False by done. by rewrite IH.
Qed.

Lemma up_to_absent a l : a ∉ l → up_to a l = l.
Proof.
  induction l as [|x l IH]; intros Hl; simpl; [done|].
  apply not_elem_of_cons in Hl as [? ?].
  rewrite decide_False by done. by rewrite IH.
Qed.

Lemma up_to_elem a l x : x ∈ up_to a l → x ∈ l.
Proof.
  induction l as [|y l IH]; simpl; [done|].
  destruct (decide (y = a)); [by intros ?%elem_of_nil|].
  intros [->|?]%elem_of_cons; [by left | right; by apply IH].
Qed.

Lemma up_to_before a pre post x : x ∈ up_to a (pre ++ a :: post) → x ∈ pre.
Proof.
  induction pre as [|y pre IH]; simpl.
  { rewrite decide_True by done. by intros ?%elem_of_nil. }
  destruct (decide (y = a)); [by intros ?%elem_of_nil|].
  intros [->|?]%elem_of_cons; [by left | right; by apply IH].
Qed.

Lemma filter_not_elem (a : Address) (l : list Address) :
  a ∉ l → filter (λ signer, signer ≠ a) l = l.
Proof.
  induction l as [|x l IH]; intros Hl; [done|].
  apply not_elem_of_cons in Hl as [? ?].
  rewrite filter_cons_True by done. by rewrite IH.
Qed.

(** C4, as the code has it. One pass over the queue from its head, never
    joined from its end to its head. The pass stops at the first occurrence
    of the current coinbase, unless that is the previous coinbase too, or is
    not in the queue: then it runs to the end. The list holds, in the order
    of the queue, the entries visited after the first occurrence of the
    previous coinbase that are not the previous coinbase. The four cases
    after the equation spell this out on the queue: the previous coinbase
    before the current one (the segment between them, which is the segment
    itself when the previous coinbase does not recur in it), a pass that
    runs to the end, the current coinbase first (the empty list), and a
    previous coinbase that is not in the queue (the empty list). *)
Theorem getSignerMissing_single_pass lastSigner currentSigner extra :
  getSignerMissing lastSigner currentSigner extra
  = segment_signerMissing lastSigner currentSigner extra
  ∧ (∀ pre mid post,
       SignerQueue extra = pre ++ lastSigner :: mid ++ currentSigner :: post →
       lastSigner ≠ currentSigner →
       lastSigner ∉ pre → currentSigner ∉ pre → currentSigner ∉ mid →
       getSignerMissing lastSigner currentSigner extra
       = filter (λ signer, signer ≠ lastSigner) mid
       ∧ (lastSigner ∉ mid →
          getSignerMissing lastSigner currentSigner extra = mid))
  ∧ (∀ pre rest,
       SignerQueue extra = pre ++ lastSigner :: rest →
       lastSigner ∉ pre → currentSigner ∉ pre →
       lastSigner = currentSigner ∨ currentSigner ∉ rest →
       getSignerMissing lastSigner currentSigner extra
       = filter (λ signer, signer ≠ lastSigner) rest)
  ∧ (∀ pre post,
       SignerQueue extra = pre ++ currentSigner :: post →
       lastSigner ≠ currentSigner → lastSigner ∉ pre →
       getSignerMissing lastSigner currentSigner extra = [])
  ∧ (lastSigner ∉ SignerQueue extra →
     getSignerMissing lastSigner currentSigner extra = []).
Proof.
  assert (getSignerMissing lastSigner currentSigner extra
          = segment_signerMissing lastSigner currentSigner extra) as Heq.
  { apply getSignerMissing_segment. }
  split; [done|]. rewrite Heq. unfold segment_signerMissing, visited_signers.
  split; [|split; [|split]].
  - intros pre mid post Hq Hne Hlpre Hcpre Hcmid. rewrite Hq.
    rewrite decide_False by done.
    replace (pre ++ lastSigner :: mid ++ currentSigner :: post)
      with ((pre ++ lastSigner :: mid) ++ currentSigner :: post)
      by (by rewrite <-app_assoc).
    rewrite up_to_first.
    + rewrite split_at_first by done. split; [done|]. intros Hlmid.
      by apply filter_not_elem.
    + intros Hin. apply elem_of_app in Hin as [Hin|Hin]; [done|].
      apply elem_of_cons in Hin as [Hin|Hin]; [congruence | done].
  - intros pre rest Hq Hlpre Hcpre Hrun. rewrite Hq.
    destruct (decide (lastSigner = currentSigner)) as [_|Hne].
    + by rewrite split_at_first.
    + destruct Hrun as [?|Hcrest]; [done|].
      rewrite up_to_absent.
      * by rewrite split_at_first.
      * intros Hin. apply elem_of_app in Hin as [Hin|Hin]; [done|].
        apply elem_of_cons in Hin as [Hin|Hin]; [congruence | done].
  - intros pre post Hq Hne Hlpre. rewrite Hq.
    rewrite decide_False by done.
    rewrite split_at_absent; [done|].
    intros Hin. by apply up_to_before in Hin.
  - intros Hl. rewrite split_at_absent; [done|].
    destruct (decide (lastSigner = currentSigner)); [done|].
    intros Hin. by apply up_to_elem in Hin.
Qed.

(** The inputs are: the previous coinbase before the current one in a
    queue of four; A after A in a queue that repeats (the pass runs to the
    end and leaves A out); A before C with a second place of A between them;
    a current coinbase that is not in the queue; the current coinbase
    first. *)
Lemma getSignerMissing_single_pass_witness :
  getSignerMissing addrA addrD queueABCD = [addrB; addrC]
  ∧ getSignerMissing addrA addrA queueABCABC = [addrB; addrC; addrB; addrC]
  ∧ getSignerMissing addrA addrC queueABADCE = [addrB; addrD]
  ∧ getSignerMissing addrA addrE queueABCD = [addrB; addrC; addrD]
  ∧ getSignerMissing addrC addrB queueABCD = [].
Proof.
  split; [|split; [|split; [|split]]].
  - refine (proj2 (proj1 (proj2 (getSignerMissing_single_pass
              addrA addrD queueABCD)) [] [addrB; addrC] [] _ _ _ _ _) _);
      first [ reflexivity | discriminate | solve_not_elem ].
  - refine (proj1 (proj2 (proj2 (getSignerMissing_single_pass
              addrA addrA queueABCABC)))
              [] [addrB; addrC; addrA; addrB; addrC] _ _ _ _);
      first [ reflexivity | solve_not_elem | by left ].
  - refine (proj1 (proj1 (proj2 (getSignerMissing_single_pass
              addrA addrC queueABADCE)) [] [addrB; addrA; addrD] [addrE]
              _ _ _ _ _));
      first [ reflexivity | discriminate | solve_not_elem ].
  - refine (proj1 (proj2 (proj2 (getSignerMissing_single_pass
              addrA addrE queueABCD)))
              [] [addrB; addrC; addrD] _ _ _ _);
      first [ reflexivity | solve_not_elem | right; solve_not_elem ].
  - refine (proj1 (proj2 (proj2 (proj2 (getSignerMissing_single_pass
              addrC addrB queueABCD))))
              [addrA] [addrC; addrD] _ _ _);
      first [ reflexivity | discriminate | solve_not_elem ].
Defined.

(** C4 as worded fails when the current coinbase comes before the
    previous one in the queue: the cyclic segment from C to B is D, A, and
    the code returns the empty list. *)
Lemma getSignerMissing_does_not_wrap :
  cyclic_signerMissing addrC addrB queueABCD = [addrD; addrA]
  ∧ getSignerMissing addrC addrB queueABCD
    ≠ cyclic_signerMissing addrC addrB queueABCD.
Proof. split; [reflexivity | by vm_compute]. Qed.

(** ** The remaining freeze time of the RPC interface *)

Lemma u64_sub_underflow a b : 0 ≤ a < b → b < two64 → u64_sub a b = two64 - (b - a).
Proof.
  intros Hab Hb. unfold u64_sub, u64.
  symmetry. apply (Z.mod_unique _ _ (-1)); unfold two64 in *; lia.
Qed.

Lemma u64_sub_exact a b : 0 ≤ b ≤ a → a < two64 → u64_sub a b = a - b.
Proof. intros Hab Ha. unfold u64_sub. apply u64_small. lia. Qed.

Lemma u64_mul_underflow d p :
  0 < d → 0 < p → d * p < two64 → u64_mul (two64 - d) p = two64 - d * p.
Proof.
  intros Hd Hp Hdp. unfold u64_mul, u64.
  symmetry. apply (Z.mod_unique _ _ (p - 1)); [|unfold two64 in *; nia].
  left. unfold two64 in *. nia.
Qed.

Lemma Uint64_small x : 0 ≤ x < two64 → Uint64 x = x.
Proof. intros H. unfold Uint64. rewrite Z.abs_eq by lia. by apply u64_small. Qed.

Lemma clampTaken_iff cancelTime currentTime freezeTime :
  0 ≤ cancelTime → 0 ≤ freezeTime → cancelTime + freezeTime < two64 →
  0 ≤ currentTime < two64 →
  clampTaken (remainingBlocks cancelTime currentTime freezeTime) = true
  ↔ cancelTime + freezeTime = currentTime.
Proof.
  intros Hc Hf Hsum Hcur. unfold clampTaken, remainingBlocks, u64_add.
  rewrite u64_small by lia. rewrite Z.leb_le.
  destruct (Z.lt_ge_cases (cancelTime + freezeTime) currentTime).
  - rewrite u64_sub_underflow by lia. lia.
  - rewrite u64_sub_exact by lia. lia.
Qed.

(** C10. Once the current block number is past the cancel block number plus
    freeze/period, the subtraction wraps: the remaining number of blocks is
    2^64 minus the distance, the guard [remaining <= 0] is not taken, and
    both RPC functions return 2^64 minus the distance times the period
    rather than 0. The guard is taken exactly when the two numbers are
    equal. *)
Theorem GetRemainingFreezeTime_underflow
    (config : params.AlienConfig) (header : types.Header) (snapshot : Snapshot)
    (address : Address) (appId : string) (cancel : Z) :
  let period := params.Period config in
  let freezeTime := params.Freeze config / period in
  let currentTime := types.Number header in
  let unfreezeTime := cancel + freezeTime in
  0 < period → 0 ≤ params.Freeze config →
  0 ≤ cancel → unfreezeTime < two64 → 0 ≤ currentTime < two64 →
  Cancelers snapshot !! address = Some cancel →
  (unfreezeTime < currentTime →
     remainingBlocks cancel currentTime freezeTime
       = two64 - (currentTime - unfreezeTime)
     ∧ clampTaken (remainingBlocks cancel currentTime freezeTime) = false
     ∧ ((currentTime - unfreezeTime) * period < two64 →
        GetRemainingFreezeTime config (Some header) (Ret snapshot) address
          = Ret (two64 - (currentTime - unfreezeTime) * period)
        ∧ GetSideRemainingFreezeTime config (Some (Some header, Ret snapshot))
            address appId
          = Ret (two64 - (currentTime - unfreezeTime) * period)))
  ∧ (clampTaken (remainingBlocks cancel currentTime freezeTime) = true
     ↔ unfreezeTime = currentTime).
Proof.
  intros period freezeTime currentTime unfreezeTime
    Hperiod Hfreeze Hcancel Hunfreeze Hcurrent Hlookup.
  assert (0 ≤ freezeTime) as HfreezeTime.
  { subst freezeTime period. apply Z.div_pos; lia. }
  assert (clampTaken (remainingBlocks cancel currentTime freezeTime) = true
          ↔ unfreezeTime = currentTime) as Hclamp.
  { apply clampTaken_iff; subst unfreezeTime; lia. }
  split; [|done].
  intros Hpast.
  assert (remainingBlocks cancel currentTime freezeTime
          = two64 - (currentTime - unfreezeTime)) as Hremaining.
  { unfold remainingBlocks, u64_add. rewrite u64_small by (subst unfreezeTime; lia).
    apply u64_sub_underflow; subst unfreezeTime; lia. }
  assert (clampTaken (remainingBlocks cancel currentTime freezeTime) = false)
    as Hnot.
  { apply not_true_is_false. intros E. apply Hclamp in E. lia. }
  split; [done|]. split; [done|].
  intros Hproduct.
  assert (remainingFreezeTime config cancel (types.Number header)
          = Ret (two64 - (currentTime - unfreezeTime) * period)) as Hret.
  { unfold remainingFreezeTime.
    rewrite decide_False by (subst period; lia).
    rewrite !Uint64_small by (subst unfreezeTime currentTime; lia).
    fold period freezeTime currentTime. rewrite Hnot, Hremaining.
    f_equal. apply u64_mul_underflow; lia. }
  split; simpl; by rewrite Hlookup.
Qed.

(** Cancel at block 10, freeze 20 s, period 5 s, asked at block 20: the
    answer is 2^64 - 30 seconds. *)
Lemma GetRemainingFreezeTime_underflow_witness :
  GetRemainingFreezeTime chainConfig (Some (block 20 [] [] []))
    (Ret frozenSnapshot) addrD
  = Ret (two64 - 30).
Proof.
  refine (proj1 (proj2 (proj2 (proj1
    (GetRemainingFreezeTime_underflow chainConfig (block 20 [] [] [])
       frozenSnapshot addrD "" 10 _ _ _ _ _ _) _)) _));
    first [ reflexivity | by vm_compute ].
Defined.

(** ** The vote path of the custom transaction interpreter *)

(** C8. Whenever [processEventVote] changes the pending vote list or the
    state database, the balance of the voter was strictly greater than the
    stake, and what it did was to append the vote and debit the stake; and
    with a balance that is not strictly greater (equal included) it returns
    the list and the state as they were. *)
Theorem processEventVote_strict_balance
    (config : params.AlienConfig) (isBlockChain : bool)
    (snapshot : outcome error Snapshot) (currentBlockVotes : list Vote)
    (state : StateDB) (tx : Transaction) (voter : Address)
    (txDataInfo : list string) (text : string) (value : Z)
    (votes' : list Vote) (state' : StateDB) :
  txDataInfo !! posEventVoteValue = Some text →
  SetString10 text = Some value →
  processEventVote config isBlockChain snapshot currentBlockVotes state tx voter
    txDataInfo = Ret (votes', state') →
  ((votes', state') ≠ (currentBlockVotes, state) →
     value < GetBalance state voter
     ∧ (∃ to, To tx = Some to
          ∧ votes' = currentBlockVotes
                       ++ [mkVote voter to value (TransactionHash tx)])
     ∧ state' = SubBalance state voter value)
  ∧ (GetBalance state voter ≤ value →
       votes' = currentBlockVotes ∧ state' = state
       ∧ GetBalance state' voter = GetBalance state voter).
Proof.
  intros Htext Hvalue. unfold processEventVote. rewrite Htext, Hvalue.
  destruct (posEventVoteValue <=? length txDataInfo)%nat;
    [|intros [= <- <-]; split; [done | by intros _]].
  destruct isBlockChain; simpl; [|intros [= <- <-]; split; [done | by intros _]].
  destruct snapshot as [snap|e| |]; try done;
    [|intros [= <- <-]; split; [done | by intros _]].
  destruct (bool_decide (is_Some (Votes snap !! voter)));
    [intros [= <- <-]; split; [done | by intros _]|].
  destruct (To tx) as [to|] eqn:Hto; [|done].
  match goal with
  | |- context [if (if ?c then ?a else ?b) then _ else _] =>
      destruct (if c then a else b)
  end; [intros [= <- <-]; split; [done | by intros _]|].
  destruct (0 <? Cmp (GetBalance state voter) value) eqn:Hcmp;
    [|intros [= <- <-]; split; [done | by intros _]].
  apply Cmp_pos in Hcmp.
  destruct (existsb _ currentBlockVotes);
    [intros [= <- <-]; split; [done | by intros _]|].
  intros [= <- <-]. split; [|lia].
  intros _. split; [done|]. split; [|done]. by exists to.
Qed.

(** A balance equal to the stake: nothing is emitted, nothing debited. *)
Lemma processEventVote_strict_balance_witness :
  processEventVote chainConfig true (Ret voteSnapshot) [] {[addrD := 100]}
    voteTx addrD ["ufo"; "1"; "event"; "vote"; "100"]
  = Ret ([], {[addrD := 100]}).
Proof.
  destruct (processEventVote chainConfig true (Ret voteSnapshot) []
              {[addrD := 100]} voteTx addrD
              ["ufo"; "1"; "event"; "vote"; "100"])
    as [[votes' state']| | |] eqn:E; try (vm_compute in E; discriminate E).
  destruct (proj2 (processEventVote_strict_balance chainConfig true
                     (Ret voteSnapshot) [] {[addrD := 100]} voteTx addrD
                     ["ufo"; "1"; "event"; "vote"; "100"] "100" 100
                     votes' state' eq_refl eq_refl E))
    as (-> & -> & _); [by vm_compute | reflexivity].
Defined.

(** One unit more than the stake: the vote is emitted and the stake
    debited. *)
Example processEventVote_accepts :
  processEventVote chainConfig true (Ret voteSnapshot) [] {[addrD := 101]}
    voteTx addrD ["ufo"; "1"; "event"; "vote"; "100"]
  = Ret ([mkVote addrD addrA 100 (hashOf 116)], {[addrD := 1]}).
Proof. by vm_compute. Qed.

(** ** The unfreeze loop of Finalize *)

Lemma GetBalance_AddBalance state a b amount :
  GetBalance (AddBalance state a amount) b
  = if decide (a = b) then GetBalance state b + amount else GetBalance state b.
Proof.
  unfold AddBalance, GetBalance at 1. rewrite lookup_insert.
  destruct (decide (a = b)) as [->|]; done.
Qed.

Lemma unfreezeDue_Ret snap number canceler cancel n :
  params.Period (config snap) ≠ 0 →
  Cancelers snap !! canceler = Some n →
  unfreezeDue snap number canceler cancel
  = Ret (unfreezeAt snap number n cancel).
Proof.
  intros Hperiod Hn. unfold unfreezeDue, unfreezeAt. rewrite Hn.
  destruct (Passive cancel); [done|].
  by rewrite decide_False.
Qed.

Lemma unfreeze_foldl snap number (l : list (Address * Cancel)) :
  params.Period (config snap) ≠ 0 →
  (∀ k c, (k, c) ∈ l → Canceler c = k ∧ is_Some (Cancelers snap !! k)) →
  NoDup l.*1 →
  ∀ state, ∃ state',
    foldl (unfreeze_step snap number) (Ret state) l = Ret state'
    ∧ (∀ x, x ∉ l.*1 → GetBalance state' x = GetBalance state x)
    ∧ (∀ x cancel n vote,
         (x, cancel) ∈ l → Cancelers snap !! x = Some n →
         Votes snap !! x = Some vote →
         GetBalance state' x
         = GetBalance state x
           + if unfreezeAt snap number n cancel then Stake vote
             else 0).
Proof.
  intros Hperiod. induction l as [|[k c] l IH]; intros Hwf Hnodup state.
  { exists state. split; [done|]. split; [done|].
    intros x cancel n vote Hin. by apply elem_of_nil in Hin. }
  rewrite fmap_cons in Hnodup. apply NoDup_cons in Hnodup as [Hk Hnodup].
  destruct (Hwf k c) as [Hkey [n Hn]]; [by left|]. simpl in Hk.
  assert (∃ state1,
            unfreeze_step snap number (Ret state) (k, c) = Ret state1
            ∧ (∀ x, x ≠ k → GetBalance state1 x = GetBalance state x)
            ∧ (∀ vote, Votes snap !! k = Some vote →
                 GetBalance state1 k
                 = GetBalance state k
                   + if unfreezeAt snap number n c then Stake vote
                     else 0)) as (state1 & Hstep & Hother & Hself).
  { unfold unfreeze_step. simpl.
    rewrite (unfreezeDue_Ret snap number k c n) by done. simpl.
    destruct (unfreezeAt snap number n c).
    - destruct (Votes snap !! k) as [vote|] eqn:Hvote.
      + eexists. split; [done|]. rewrite Hkey. split.
        * intros x Hx. rewrite GetBalance_AddBalance. by rewrite decide_False.
        * intros ? [= <-]. rewrite GetBalance_AddBalance. by rewrite decide_True.
      + eexists. split; [done|]. split; [done|]. done.
    - eexists. split; [done|]. split; [done|]. intros; lia. }
  destruct (IH (λ k' c' Hin, Hwf k' c' (list_elem_of_further _ _ _ Hin))
              Hnodup state1) as (state' & Hfold & Hout & Hin).
  exists state'. cbn [foldl]. rewrite Hstep. split; [done|]. split.
  - intros x Hx. apply not_elem_of_cons in Hx as [? ?].
    rewrite Hout by done. by apply Hother.
  - intros x cancel n' vote Hx Hn' Hvote.
    apply elem_of_cons in Hx as [[= -> ->]|Hx].
    + rewrite Hout by done. rewrite Hn in Hn'. injection Hn' as <-.
      by apply Hself.
    + assert (x ≠ k).
      { intros ->. apply Hk. by apply (list_elem_of_fmap_2 fst _ (k, cancel)). }
      rewrite (Hin x cancel n' vote) by done. by rewrite Hother.
Qed.

Lemma newSnapshot_signers_Ret engineConfig :
  params.SelfVoteSigners engineConfig ≠ [] →
  ∃ signers, newSnapshot_signers engineConfig = Ret signers.
Proof.
  intros Hsigners. unfold newSnapshot_signers.
  destruct (Z.to_nat (int64 (params.MaxSignerCount engineConfig)));
    [by eexists|].
  destruct (params.SelfVoteSigners engineConfig); [done | by eexists].
Qed.

Lemma Finalize_unfreeze_main chainConfig engineConfig snap number state :
  params.SideChain chainConfig = false →
  (number = 1 → params.SelfVoteSigners engineConfig ≠ []) →
  Finalize_unfreeze chainConfig engineConfig snap number state
  = unfreeze snap number state.
Proof.
  intros Hmain Hfirst. unfold Finalize_unfreeze. rewrite Hmain. simpl.
  destruct (decide (number = 1)) as [Hone|]; [|done].
  by destruct (newSnapshot_signers_Ret engineConfig (Hfirst Hone)) as [? ->].
Qed.

(** C5, as the code has it. On the main chain, [Finalize] of block
    [number] credits a canceler [x] whose vote is still in the snapshot with
    the stake of that vote exactly when, for an active cancel,
    [number + 2 = cancelers[x] + freeze/period], and for a passive cancel,
    [number = cancelers[x] + 1]; at every other height the balance of [x]
    is left as it was. On a side chain the loop is not run: the state
    database is left as it was at every height. The numbers are taken in
    the range of [uint64] and the period positive; for block 1 the engine's
    list of self-vote signers is taken non-empty, since [Finalize] indexes
    it before the loop. *)
Theorem Finalize_unfreeze_credit
    (chainConfig engineConfig : params.AlienConfig)
    (snap : Snapshot) (number : Z) (state : StateDB)
    (x : Address) (cancel : Cancel) (vote : Vote) (n : Z) :
  let freezeBlocks := params.Freeze (config snap) / params.Period (config snap) in
  0 < params.Period (config snap) → 0 ≤ params.Freeze (config snap) →
  (number = 1 → params.SelfVoteSigners engineConfig ≠ []) →
  (∀ k c, Cancels snap !! k = Some c →
          Canceler c = k ∧ is_Some (Cancelers snap !! k)) →
  Cancels snap !! x = Some cancel →
  Votes snap !! x = Some vote →
  Cancelers snap !! x = Some n →
  0 ≤ n → n + 1 < two64 → n + freezeBlocks < two64 →
  0 ≤ number → number + 2 < two64 →
  ∃ state',
    Finalize_unfreeze chainConfig engineConfig snap number state = Ret state'
    ∧ (params.SideChain chainConfig = true → state' = state)
    ∧ (params.SideChain chainConfig = false →
         (Passive cancel = false →
            (number + 2 = n + freezeBlocks →
               GetBalance state' x = GetBalance state x + Stake vote)
            ∧ (number + 2 ≠ n + freezeBlocks →
               GetBalance state' x = GetBalance state x))
         ∧ (Passive cancel = true →
              (number = n + 1 →
                 GetBalance state' x = GetBalance state x + Stake vote)
              ∧ (number ≠ n + 1 →
                 GetBalance state' x = GetBalance state x))).
Proof.
  intros freezeBlocks Hperiod Hfreeze Hfirst Hwf Hcancel Hvote Hn Hn0 Hn1 HnF
    Hnum0 Hnum2.
  destruct (params.SideChain chainConfig) eqn:Hside.
  { exists state. unfold Finalize_unfreeze. rewrite Hside.
    split; [done|]. split; [done|]. discriminate. }
  rewrite Finalize_unfreeze_main by done.
  assert (0 ≤ freezeBlocks) by (apply Z.div_pos; lia).
  destruct (unfreeze_foldl snap number (map_to_list (Cancels snap)))
    with (state := state) as (state' & Hfold & _ & Hin).
  { lia. }
  { intros k c Hkc. apply elem_of_map_to_list in Hkc. by apply Hwf. }
  { apply NoDup_fst_map_to_list. }
  exists state'. split; [done|]. split; [discriminate|]. intros _.
  specialize (Hin x cancel n vote).
  rewrite Hin; [|by apply elem_of_map_to_list|done|done].
  unfold unfreezeAt, u64_add. fold freezeBlocks.
  rewrite Uint64_small by lia.
  rewrite !u64_small by lia.
  split; intros ->; split; intros Hcase.
  - rewrite bool_decide_eq_true_2; [done | lia].
  - rewrite bool_decide_eq_false_2; [lia | lia].
  - rewrite bool_decide_eq_true_2; [done | lia].
  - rewrite bool_decide_eq_false_2; [lia | lia].
Qed.

(** On the main chain the stake comes back in block 12 = 10 + 20/5 - 2; on
    a side chain with the same snapshot it does not. *)
Lemma Finalize_unfreeze_credit_witness :
  (∃ state',
     Finalize_unfreeze chainConfig chainConfig frozenSnapshot 12 {[addrD := 7]}
     = Ret state'
     ∧ GetBalance state' addrD = 107)
  ∧ (∃ state',
       Finalize_unfreeze sideChainConfig chainConfig frozenSnapshot 12
         {[addrD := 7]}
       = Ret state'
       ∧ state' = {[addrD := 7]}).
Proof.
  split.
  - destruct (Finalize_unfreeze_credit chainConfig chainConfig frozenSnapshot 12
                {[addrD := 7]} addrD (mkCancel addrD false) voteD 10)
      as (state' & Hret & _ & Hmain).
    + reflexivity.
    + vm_compute. discriminate.
    + discriminate.
    + intros k c Hkc. cbn in Hkc.
      apply lookup_singleton_Some in Hkc as [<- <-].
      split; [reflexivity | by eexists].
    + reflexivity.
    + reflexivity.
    + reflexivity.
    + lia.
    + reflexivity.
    + reflexivity.
    + lia.
    + reflexivity.
    + exists state'. split; [exact Hret|].
      exact (proj1 (proj1 (Hmain eq_refl) eq_refl) eq_refl).
  - destruct (Finalize_unfreeze_credit sideChainConfig chainConfig
                frozenSnapshot 12 {[addrD := 7]} addrD (mkCancel addrD false)
                voteD 10)
      as (state' & Hret & Hside & _).
    + reflexivity.
    + vm_compute. discriminate.
    + discriminate.
    + intros k c Hkc. cbn in Hkc.
      apply lookup_singleton_Some in Hkc as [<- <-].
      split; [reflexivity | by eexists].
    + reflexivity.
    + reflexivity.
    + reflexivity.
    + lia.
    + reflexivity.
    + reflexivity.
    + lia.
    + reflexivity.
    + exists state'. split; [exact Hret|]. exact (Hside eq_refl).
Defined.

(** C5 as worded fails: on the main chain nothing is credited in block
    14 = 10 + 20/5, and the credit is made in another block, 12. *)
Lemma Finalize_unfreeze_not_at_freeze_end :
  let state : StateDB := {[addrD := 7]} in
  params.SideChain chainConfig = false
  ∧ Cancels frozenSnapshot !! addrD = Some (mkCancel addrD false)
  ∧ Votes frozenSnapshot !! addrD = Some voteD
  ∧ Cancelers frozenSnapshot !! addrD = Some 10
  ∧ params.Freeze (config frozenSnapshot) / params.Period (config frozenSnapshot) = 4
  ∧ Finalize_unfreeze chainConfig chainConfig frozenSnapshot (10 + 4) state
    = Ret state
  ∧ Finalize_unfreeze chainConfig chainConfig frozenSnapshot 12 state
    = Ret (AddBalance state addrD (Stake voteD)).
Proof. by vm_compute. Qed.

(** ** Computations in the store monad *)

Lemma bindM_Ret {A B} (m : M A) (k : A → M B) st st' b :
  bindM m k st = (st', Ret b) →
  ∃ st1 a, m st = (st1, Ret a) ∧ k a st1 = (st', Ret b).
Proof.
  unfold bindM. destruct (m st) as [st1 [a|e| |]]; try done.
  intros H. by exists st1, a.
Qed.

Lemma liftM_Ret {A} (o : outcome error A) st st' a :
  liftM o st = (st', Ret a) → o = Ret a ∧ st' = st.
Proof. unfold liftM. by intros [= -> ->]. Qed.

Lemma retM_Ret {A} (a : A) st st' a' :
  retM a st = (st', Ret a') → a' = a ∧ st' = st.
Proof. unfold retM. by intros [= -> ->]. Qed.

(** A property kept by every round of a loop is kept by the loop. *)
Lemma foldM_Ret_ind {A B} (P : B → Prop) (f : B → A → M B) (l : list A) :
  (∀ b a st st' b', P b → f b a st = (st', Ret b') → P b') →
  ∀ b st st' b', P b → foldM f l b st = (st', Ret b') → P b'.
Proof.
  intros Hstep. induction l as [|a l IH]; intros b st st' b' Hb; simpl.
  - by intros [= _ <-].
  - intros Hfold. apply bindM_Ret in Hfold as (st1 & b1 & Hf & Hrest).
    eapply IH; [|done]. by eapply Hstep.
Qed.

(** ** What the sub-updates of apply leave alone *)

Lemma frame_refl s : frame s s.
Proof. by repeat split. Qed.

Lemma frame_trans s1 s2 s3 : frame s1 s2 → frame s2 s3 → frame s1 s3.
Proof.
  intros (?&?&?&?) (?&?&?&?). repeat split; try congruence.
  by etrans.
Qed.

Section frames.
Variable growslice : nat → nat.

Lemma updateSnapshotByConfirmations_frame s confirmations :
  frame s (updateSnapshotByConfirmations s confirmations).
Proof. by repeat split. Qed.

Lemma updateSnapshotByVotes_frame s votes headerNumber st st' s' :
  updateSnapshotByVotes growslice s votes headerNumber st = (st', Ret s') →
  frame s s'.
Proof.
  unfold updateSnapshotByVotes.
  apply (foldM_Ret_ind (frame s)); [|apply frame_refl].
  clear. intros b vote st st' b' Hb Hstep.
  eapply frame_trans; [done|]. clear Hb.
  unfold updateSnapshotByVotes_step in Hstep.
  destruct (bool_decide (is_Some (Votes b !! Voter vote)));
    [apply retM_Ret in Hstep as [-> _]; apply frame_refl|].
  destruct (negb (isCandidate b (Candidate vote))
            && negb (bool_decide (Candidate vote = Voter vote)));
    [apply retM_Ret in Hstep as [-> _]; apply frame_refl|].
  apply bindM_Ret in Hstep as (st1 & tally & _ & Hstep).
  destruct (slice_append _ _ _ _) as [st2 sl]. injection Hstep as _ <-.
  by repeat split.
Qed.

Lemma updateSnapshotByCancels_frame fuel s cancels headerNumber st st' s' :
  updateSnapshotByCancels fuel s cancels headerNumber st = (st', Ret s') →
  frame s s'.
Proof.
  unfold updateSnapshotByCancels. intros [= _ Hloop]. clear st'.
  revert cancels s Hloop.
  induction fuel as [|fuel IH]; intros [|cancel rest] s; simpl; try done.
  - intros [= <-]. apply frame_refl.
  - intros [= <-]. apply frame_refl.
  - destruct (bool_decide (is_Some (Cancels s !! Canceler cancel))); [by apply IH|].
    intros Hloop. apply IH in Hloop.
    eapply frame_trans; [|done].
    destruct (Votes s !! Canceler cancel) as [vote|]; [|apply frame_refl].
    destruct (Tally s !! Candidate vote); [|apply frame_refl].
    by repeat split.
Qed.

Lemma removeExtraVotesAndCancel_frame s st st' s' :
  removeExtraVotesAndCancel s st = (st', Ret s') → frame s s'.
Proof.
  unfold removeExtraVotesAndCancel.
  apply (foldM_Ret_ind (frame s)); [|apply frame_refl].
  clear. intros b [canceler cancel] st st' b' Hb Hstep.
  eapply frame_trans; [done|]. clear Hb.
  unfold removeExtraVotesAndCancel_step in Hstep.
  apply bindM_Ret in Hstep as (st1 & elapsed & _ & Hstep).
  destruct elapsed; [|apply retM_Ret in Hstep as [-> _]; apply frame_refl].
  apply bindM_Ret in Hstep as (st2 & s1 & Hs1 & Hstep).
  apply retM_Ret in Hstep as [-> _].
  assert (frame b s1) as (?&?&?&?).
  { destruct (isCandidate b canceler).
    - apply retM_Ret in Hs1 as [-> _]. repeat split. simpl.
      apply delete_subseteq.
    - destruct (Votes b !! canceler) as [vote|]; [|done].
      destruct (Candidates b !! Candidate vote) as [sl|];
        [|apply retM_Ret in Hs1 as [-> _]; apply frame_refl].
      destruct (removeVoter_loop _ _ _ _ _) as [st3 sl']. injection Hs1 as _ <-.
      by repeat split. }
  by repeat split.
Qed.

Lemma updateSnapshotForExpired_frame s : frame s (updateSnapshotForExpired s).
Proof. by repeat split. Qed.

End frames.

(** ** The punishment counters *)

Lemma punished_bounded_subseteq (p p' : gmap Address Z) :
  p' ⊆ p → punished_bounded p → punished_bounded p'.
Proof. intros Hsub Hp m v Hv. apply (Hp m). by eapply lookup_weaken. Qed.

Lemma punishMissing_below punished m :
  punished_below (punishedCap + autoRewardCredit) punished →
  punished_below (punishedCap + autoRewardCredit) (punishMissing punished m).
Proof.
  unfold punished_below, punishMissing, punishedCap, defaultFullCredit,
    missingPublishCredit, autoRewardCredit.
  intros Hp. destruct (punished !! m) as [v|] eqn:Hv.
  - destruct (Z.leb_spec v (10 * 1000)); [|done].
    apply map_Forall_insert_2; [|done].
    apply Hp in Hv. simpl in Hv. unfold u64_add.
    rewrite u64_small by (unfold two64; lia). lia.
  - apply map_Forall_insert_2; [lia | done].
Qed.

Lemma rewardSigner_below punished coinbase :
  punished_below (punishedCap + autoRewardCredit) punished →
  punished_below (punishedCap + autoRewardCredit) (rewardSigner punished coinbase).
Proof.
  unfold punished_below, rewardSigner, punishedCap, defaultFullCredit,
    missingPublishCredit, autoRewardCredit, signRewardCredit.
  intros Hp. destruct (punished !! coinbase) as [v|] eqn:Hv; [|done].
  destruct (Z.ltb_spec 100 v).
  - apply map_Forall_insert_2; [|done].
    apply Hp in Hv. simpl in Hv.
    rewrite u64_sub_exact by (unfold two64; lia). lia.
  - by apply map_Forall_delete.
Qed.

Lemma rewardAll_bounded punished :
  punished_below (punishedCap + autoRewardCredit) punished →
  punished_bounded (rewardAll punished).
Proof.
  unfold punished_below, punished_bounded, rewardAll, punishedCap,
    defaultFullCredit, missingPublishCredit, autoRewardCredit.
  intros Hp m v. rewrite lookup_omap.
  destruct (punished !! m) as [w|] eqn:Hw; [|done]. simpl.
  destruct (Z.ltb_spec 1 w); [|done]. intros [= <-].
  apply Hp in Hw. simpl in Hw.
  rewrite u64_sub_exact by (unfold two64; lia). lia.
Qed.

Lemma updateSnapshotForPunish_bounded s signerMissing headerNumber coinbase :
  punished_bounded (Punished s) →
  punished_bounded
    (Punished (updateSnapshotForPunish s signerMissing headerNumber coinbase)).
Proof.
  intros Hs. simpl. apply rewardAll_bounded, rewardSigner_below.
  assert (punished_below (punishedCap + autoRewardCredit) (Punished s)) as Hbelow.
  { intros m v Hv. apply Hs in Hv. simpl in Hv.
    unfold autoRewardCredit. lia. }
  revert Hbelow. generalize (Punished s).
  induction signerMissing as [|m l IH]; intros punished Hp; simpl; [done|].
  by apply IH, punishMissing_below.
Qed.

Lemma updateSnapshotForPunish_frame s signerMissing headerNumber coinbase :
  let s' := updateSnapshotForPunish s signerMissing headerNumber coinbase in
  config s' = config s ∧ Number s' = Number s ∧ HistoryHash s' = HistoryHash s.
Proof. done. Qed.

(** ** The history of hashes *)

Lemma int64_small x : - 2 ^ 63 ≤ x < 2 ^ 63 → int64 x = x.
Proof.
  intros Hx. unfold int64, two64. rewrite Z.mod_small by lia. lia.
Qed.

Lemma length_pushHistory bound historyHash hash :
  (0 < bound)%nat → (length (pushHistory bound historyHash hash) ≤ bound)%nat.
Proof.
  intros Hb. unfold pushHistory. rewrite length_drop, length_app. simpl. lia.
Qed.

Lemma appendHistory_pushHistory maxSignerCount historyHash hash :
  0 < maxSignerCount < 2 ^ 62 →
  (length historyHash ≤ Z.to_nat (2 * maxSignerCount))%nat →
  appendHistory maxSignerCount historyHash hash
  = Ret (pushHistory (Z.to_nat (2 * maxSignerCount)) historyHash hash).
Proof.
  intros HM Hlen. unfold appendHistory, pushHistory.
  rewrite (int64_small maxSignerCount) by lia.
  rewrite int64_small by lia.
  replace (maxSignerCount * 2) with (2 * maxSignerCount) by lia.
  rewrite length_app. simpl.
  destruct (Z.leb_spec (2 * maxSignerCount) (Z.of_nat (length historyHash))).
  - rewrite (proj2 (Z.leb_le 1 _)) by lia.
    assert (length historyHash = Z.to_nat (2 * maxSignerCount)) as Heq by lia.
    rewrite <-Heq. rewrite firstn_all.
    replace (length historyHash + 1 - length historyHash)%nat with 1%nat by lia.
    destruct historyHash; [simpl in Heq; lia | done].
  - replace (length historyHash + 1 - Z.to_nat (2 * maxSignerCount))%nat
      with 0%nat by lia.
    done.
Qed.

(** ** One header, then all of them *)

Section apply_properties.
Variable growslice : nat → nat.

Lemma applyHeader_Ret fuel s snap header st st' snap' :
  applyHeader growslice fuel s snap header st = (st', Ret snap') →
  config snap' = config snap ∧ Number snap' = Number snap
  ∧ appendHistory (params.MaxSignerCount (config s)) (HistoryHash snap)
      (types.Hash header) = Ret (HistoryHash snap')
  ∧ (punished_bounded (Punished snap) → punished_bounded (Punished snap')).
Proof.
  unfold applyHeader. intros H.
  apply bindM_Ret in H as (st1 & coinbase & _ & H).
  destruct (bool_decide (coinbase ≠ types.Coinbase header)); [done|].
  apply bindM_Ret in H as (st2 & headerExtra & _ & H).
  apply bindM_Ret in H as (st3 & historyHash & Hhistory & H).
  apply liftM_Ret in Hhistory as [Hhistory _].
  apply bindM_Ret in H as (st4 & snap1 & Hvotes & H).
  apply bindM_Ret in H as (st5 & snap2 & Hcancels & H).
  apply updateSnapshotByVotes_frame in Hvotes as (Hc1 & Hn1 & Hh1 & Hp1).
  apply updateSnapshotByCancels_frame in Hcancels as (Hc2 & Hn2 & Hh2 & Hp2).
  apply removeExtraVotesAndCancel_frame in H as (Hc3 & Hn3 & Hh3 & Hp3).
  simpl in *.
  split; [congruence|]. split; [congruence|]. split; [congruence|].
  intros Hbounded. refine (punished_bounded_subseteq _ _ Hp3 _).
  apply (updateSnapshotForPunish_bounded snap2 (SignerMissing headerExtra)
           (types.Number header) (types.Coinbase header)).
  refine (punished_bounded_subseteq _ _ Hp2 _).
  exact (punished_bounded_subseteq _ _ Hp1 Hbounded).
Qed.

Lemma apply_loop_Ret fuel s headers :
  0 < params.MaxSignerCount (config s) < 2 ^ 62 →
  ∀ snap st st' snap',
    (length (HistoryHash snap) ≤ Z.to_nat (2 * params.MaxSignerCount (config s)))%nat →
    foldM (applyHeader growslice fuel s) headers snap st = (st', Ret snap') →
    config snap' = config snap ∧ Number snap' = Number snap
    ∧ HistoryHash snap'
      = foldl (pushHistory (Z.to_nat (2 * params.MaxSignerCount (config s))))
          (HistoryHash snap) (types.Hash <$> headers)
    ∧ (length (HistoryHash snap')
       ≤ Z.to_nat (2 * params.MaxSignerCount (config s)))%nat.
Proof.
  intros HM. induction headers as [|header headers IH];
    intros snap st st' snap' Hlen; simpl.
  - by intros [= _ <-].
  - intros H. apply bindM_Ret in H as (st1 & snap1 & Hheader & H).
    apply applyHeader_Ret in Hheader as (Hc & Hn & Hhistory & _).
    rewrite appendHistory_pushHistory in Hhistory by done.
    injection Hhistory as Hhistory.
    apply IH in H as (? & ? & Hfold & ?).
    + split; [congruence|]. split; [congruence|]. split; [|done].
      rewrite Hfold. simpl. by rewrite <-Hhistory.
    + rewrite <-Hhistory. apply length_pushHistory. lia.
Qed.

Lemma apply_loop_bounded fuel s headers snap st st' snap' :
  punished_bounded (Punished snap) →
  foldM (applyHeader growslice fuel s) headers snap st = (st', Ret snap') →
  punished_bounded (Punished snap').
Proof.
  apply (foldM_Ret_ind (λ snap, punished_bounded (Punished snap))).
  intros b header st1 st2 b' Hb Hheader.
  by apply applyHeader_Ret in Hheader as (_ & _ & _ & Hp); apply Hp.
Qed.

(** What a successful [apply] of at least one header is made of. *)
Lemma apply_Ret fuel s header headers st st' s' :
  apply growslice fuel s (header :: headers) st = (st', Ret s') →
  ∃ st1 snap,
    foldM (applyHeader growslice fuel s) (header :: headers) (copy s) st
    = (st1, Ret snap)
    ∧ config s' = config snap
    ∧ HistoryHash s' = HistoryHash snap
    ∧ Punished s' = Punished snap
    ∧ Number s' = u64_add (Number snap) (Z.of_nat (length (header :: headers)))
    ∧ alien.Hash s' = types.Hash (List.last (header :: headers) header).
Proof.
  unfold apply.
  destruct (negb (consecutive (header :: headers))); [done|].
  destruct (decide _); [done|].
  intros H. apply bindM_Ret in H as (st1 & snap & Hloop & H).
  apply bindM_Ret in H as (st2 & [] & _ & H).
  apply retM_Ret in H as [-> _].
  by exists st1, snap.
Qed.

Lemma apply_punished_bounded fuel s headers st st' s' :
  punished_bounded (Punished s) →
  apply growslice fuel s headers st = (st', Ret s') →
  punished_bounded (Punished s').
Proof.
  intros Hs. destruct headers as [|header headers].
  { intros H. by apply retM_Ret in H as [-> _]. }
  intros H. apply apply_Ret in H as (st1 & snap & Hloop & _ & _ & -> & _).
  exact (apply_loop_bounded fuel s _ (copy s) _ _ snap Hs Hloop).
Qed.

Lemma apply_history fuel s header headers st st' s' :
  0 < params.MaxSignerCount (config s) < 2 ^ 62 →
  (length (HistoryHash s) ≤ Z.to_nat (2 * params.MaxSignerCount (config s)))%nat →
  apply growslice fuel s (header :: headers) st = (st', Ret s') →
  config s' = config s
  ∧ HistoryHash s'
    = foldl (pushHistory (Z.to_nat (2 * params.MaxSignerCount (config s))))
        (HistoryHash s) (types.Hash <$> header :: headers)
  ∧ (length (HistoryHash s')
     ≤ Z.to_nat (2 * params.MaxSignerCount (config s)))%nat.
Proof.
  intros HM Hlen H.
  apply apply_Ret in H as (st1 & snap & Hloop & -> & -> & _).
  apply apply_loop_Ret in Hloop as (? & _ & ? & ?); done.
Qed.

Lemma newSnapshot_history config hash votes lcrs now st st' s :
  newSnapshot growslice config hash votes lcrs now st = (st', Ret s) →
  alien.config s = config ∧ HistoryHash s = [hash] ∧ Punished s = ∅
  ∧ Number s = 0.
Proof.
  unfold newSnapshot. intros H.
  apply bindM_Ret in H as (st1 & snap & Hvotes & H).
  apply bindM_Ret in H as (st2 & signers & _ & H).
  apply retM_Ret in H as [-> _]. simpl.
  revert Hvotes.
  apply (foldM_Ret_ind
           (λ snap, alien.config snap = config ∧ HistoryHash snap = [hash]
                    ∧ Punished snap = ∅ ∧ Number snap = 0)); [|done].
  clear. intros b vote st st' b' Hb Hstep.
  unfold newSnapshot_vote in Hstep.
  destruct (slice_append _ _ _ _) as [st1 sl]. by injection Hstep as _ <-.
Qed.

End apply_properties.

(** ** A chain to run the code on *)

Lemma genesis_Ret : genesis = (genesisStore, Ret genesisSnapshot).
Proof. vm_compute. reflexivity. Qed.

Lemma missedResult_Ret : missedResult = (missedResult.1, Ret missedSnapshot).
Proof. vm_compute. reflexivity. Qed.

Lemma missedSnapshot_reachable :
  reachable growslice_double chainConfig missedSnapshot.
Proof.
  eapply reachable_apply; [|exact missedResult_Ret].
  eapply reachable_genesis. exact genesis_Ret.
Qed.

(** C3, as the code has it. The punish step adds [missingPublishCredit] to
    the counter of a missed signer whenever the counter is at most
    [10 * defaultFullCredit], and leaves a larger counter alone, so a
    counter can pass 10000 by one increment; the bound that every
    punishment update and every [apply] preserves is
    [10 * defaultFullCredit + missingPublishCredit - autoRewardCredit]. *)
Theorem punished_cap_preserved :
  (∀ (punished : gmap Address Z) m v,
     punished !! m = Some v → 0 ≤ v ≤ 10 * defaultFullCredit →
     punishMissing punished m !! m = Some (v + missingPublishCredit))
  ∧ (∀ (punished : gmap Address Z) m,
       punished !! m = None →
       punishMissing punished m !! m = Some missingPublishCredit)
  ∧ (∀ (punished : gmap Address Z) m v,
       punished !! m = Some v → 10 * defaultFullCredit < v →
       punishMissing punished m = punished)
  ∧ (∀ s signerMissing headerNumber coinbase,
       punished_bounded (Punished s) →
       punished_bounded
         (Punished (updateSnapshotForPunish s signerMissing headerNumber coinbase)))
  ∧ (∀ growslice fuel s headers st st' s',
       punished_bounded (Punished s) →
       apply growslice fuel s headers st = (st', Ret s') →
       punished_bounded (Punished s')).
Proof.
  split; [|split; [|split; [|split]]].
  - intros punished m v Hv Hrange. unfold punishMissing. rewrite Hv.
    rewrite (proj2 (Z.leb_le _ _)) by lia.
    rewrite lookup_insert_eq. f_equal. unfold u64_add. apply u64_small.
    unfold defaultFullCredit, missingPublishCredit, two64 in *. lia.
  - intros punished m Hm. unfold punishMissing. rewrite Hm.
    by rewrite lookup_insert_eq.
  - intros punished m v Hv Hlarge. unfold punishMissing. rewrite Hv.
    by rewrite (proj2 (Z.leb_gt _ _)).
  - apply updateSnapshotForPunish_bounded.
  - apply apply_punished_bounded.
Qed.

Lemma punished_cap_preserved_witness :
  punished_bounded
    (Punished (updateSnapshotForPunish punishedSnapshot [addrB] 8 addrA)).
Proof.
  apply (proj1 (proj2 (proj2 (proj2 punished_cap_preserved)))
           punishedSnapshot [addrB] 8 addrA).
  apply map_Forall_singleton. split; [discriminate | discriminate].
Defined.

(** C3 as worded fails: the counter at 10000 ends the update at
    10099, and 102 blocks after genesis in which B misses its turn leave
    its counter at 10098; both are above [10 * defaultFullCredit]. *)
Lemma punished_exceeds_ten_full_credits :
  Punished (updateSnapshotForPunish punishedSnapshot [addrB] 8 addrA) !! addrB
  = Some 10099
  ∧ reachable growslice_double chainConfig missedSnapshot
  ∧ Punished missedSnapshot !! addrB = Some 10098
  ∧ 10 * defaultFullCredit < 10098.
Proof.
  split; [vm_compute; reflexivity|].
  split; [exact missedSnapshot_reachable|].
  split; [vm_compute; reflexivity | reflexivity].
Qed.

(** ** The bound on the history of hashes *)

Lemma last_cons_default {A} (x d : A) (l : list A) :
  List.last (x :: l) d = List.last l x.
Proof.
  revert x d. induction l as [|y l IH]; intros x d; [done|].
  change (List.last (x :: y :: l) d) with (List.last (y :: l) d).
  by rewrite !IH.
Qed.

Lemma reachable_history growslice config s :
  0 < params.MaxSignerCount config < 2 ^ 62 →
  reachable growslice config s →
  alien.config s = config
  ∧ (length (HistoryHash s) ≤ Z.to_nat (2 * params.MaxSignerCount config))%nat.
Proof.
  intros HM. induction 1 as [hash votes lcrs now st st' s Hnew
                            |fuel s headers st st' s' Hs [Hconfig Hlen] Happly].
  - apply newSnapshot_history in Hnew as (-> & -> & _). simpl. split; [done | lia].
  - destruct headers as [|header headers].
    { by apply retM_Ret in Happly as [-> _]. }
    apply apply_history in Happly as (Hc & _ & Hl); rewrite ?Hconfig; try done.
    rewrite Hconfig in Hc, Hl. by split.
Qed.

(** C9. Every snapshot reached from a genesis snapshot by calls of [apply]
    holds at most [2 * MaxSignerCount] hashes in its history, and each
    header applied puts its hash at the end of the history and cuts the
    history at the front to that length. *)
Theorem history_hash_bounded
    (growslice : nat → nat) (config : params.AlienConfig) (s : Snapshot) :
  0 < params.MaxSignerCount config < 2 ^ 62 →
  reachable growslice config s →
  Z.of_nat (length (HistoryHash s)) ≤ 2 * params.MaxSignerCount config
  ∧ (∀ fuel header headers st st' s',
       apply growslice fuel s (header :: headers) st = (st', Ret s') →
       HistoryHash s'
       = foldl (pushHistory (Z.to_nat (2 * params.MaxSignerCount config)))
           (HistoryHash s) (types.Hash <$> header :: headers)
       ∧ last (HistoryHash s') = Some (types.Hash (List.last headers header))).
Proof.
  intros HM Hs.
  destruct (reachable_history growslice config s HM Hs) as [Hconfig Hlen].
  split; [lia|].
  intros fuel header headers st st' s' Happly.
  apply apply_history in Happly as (_ & Hhistory & _);
    rewrite ?Hconfig; try done.
  rewrite Hconfig in Hhistory. split; [done|].
  rewrite Hhistory. clear -HM.
  generalize (HistoryHash s). revert header.
  induction headers as [|header' headers IH]; intros header historyHash.
  - simpl. unfold pushHistory. rewrite length_app. simpl.
    rewrite drop_app_le by lia. by rewrite last_snoc.
  - change (types.Hash <$> header :: header' :: headers)
      with (types.Hash header :: (types.Hash <$> header' :: headers)).
    cbn [foldl]. rewrite IH. by rewrite last_cons_default.
Qed.

(** After the 102 blocks the history holds 42 hashes. *)
Lemma history_hash_bounded_witness :
  Z.of_nat (length (HistoryHash missedSnapshot))
  ≤ 2 * params.MaxSignerCount chainConfig.
Proof.
  refine (proj1 (history_hash_bounded growslice_double chainConfig
                   missedSnapshot _ missedSnapshot_reachable)).
  split; reflexivity.
Defined.

(** ** One call of apply against one call per header *)

(** C1 fails on the code. The five headers are numbered 1 to 5 and the
    genesis snapshot has number 0. Applied in one call, the vote of A is
    still in the snapshot at block 5; applied one header per call, it was
    removed in block 5, when the freeze had elapsed:
    [removeExtraVotesAndCancel] reads [s.Number], which [apply] advances
    only after the loop over the headers. *)
Theorem apply_batch_differs_from_single_steps :
  consecutive cancelBlocks = true
  ∧ Number genesisSnapshot + 1 = 1
  ∧ batchResult = (batchResult.1, Ret batchSnapshot)
  ∧ stepResult = (stepResult.1, Ret stepSnapshot)
  ∧ Votes batchSnapshot !! addrA = Some (voteA)
  ∧ Votes stepSnapshot !! addrA = None
  ∧ batchSnapshot ≠ stepSnapshot.
Proof.
  split; [reflexivity|]. split; [reflexivity|].
  split; [vm_compute; reflexivity|]. split; [vm_compute; reflexivity|].
  assert (Votes batchSnapshot !! addrA = Some (voteA))
    as Hbatch by (vm_compute; reflexivity).
  assert (Votes stepSnapshot !! addrA = None) as Hstep
    by (vm_compute; reflexivity).
  split; [exact Hbatch|]. split; [exact Hstep|].
  intros Heq. rewrite Heq, Hstep in Hbatch. discriminate Hbatch.
Qed.

(** ** A failed apply and the receiver *)

Lemma applyEach_reachable fuel headers s st st' s' :
  reachable growslice_double chainConfig s →
  applyEach fuel s headers st = (st', Ret s') →
  reachable growslice_double chainConfig s'.
Proof.
  unfold applyEach.
  apply (foldM_Ret_ind (reachable growslice_double chainConfig)).
  intros b header st1 st2 b' Hb Happly. by eapply reachable_apply.
Qed.

Lemma receiver_reachable : reachable growslice_double chainConfig receiver.
Proof.
  eapply (applyEach_reachable 4 voteBlocks genesisSnapshot genesisStore).
  - eapply reachable_genesis. exact genesis_Ret.
  - vm_compute. reflexivity.
Qed.

(** C2 fails on the code. The receiver is the snapshot of block 5; [apply]
    of blocks 6 and 7 fails with [errUnauthorized] on block 7, after the
    work on block 6 has removed the vote of D from the votes for A. The
    copy shares the array of that slice with the receiver, so the receiver
    now shows the vote of E twice and the vote of D no more. *)
Theorem apply_failure_changes_receiver :
  reachable growslice_double chainConfig receiver
  ∧ failedResult.2 = Fail errUnauthorized
  ∧ candidateVotes receiverStore receiver addrA
    = Some [voteA; voteD; voteE]
  ∧ candidateVotes failedResult.1 receiver addrA
    = Some [voteA; voteE; voteE].
Proof.
  split; [exact receiver_reachable|].
  split; [vm_compute; reflexivity|].
  split; vm_compute; reflexivity.
Qed.

(** ** The last confirmed block *)

Lemma addConfirmation_unique confirmations confirmation :
  confirmers_unique confirmations →
  confirmers_unique (addConfirmation confirmations confirmation).
Proof.
  intros Hu. unfold addConfirmation.
  set (blockNumber := Uint64 (BlockNumber confirmation)).
  assert (confirmers_unique
            match confirmations !! blockNumber with
            | Some _ => confirmations
            | None => <[blockNumber := []]> confirmations
            end) as Hu'.
  { destruct (confirmations !! blockNumber); [done|].
    apply map_Forall_insert_2; [constructor | done]. }
  revert Hu'. generalize (match confirmations !! blockNumber with
                          | Some _ => confirmations
                          | None => <[blockNumber := []]> confirmations
                          end).
  intros m Hm.
  destruct (existsb _ _) eqn:Hex; [done|].
  apply map_Forall_insert_2; [|done].
  apply NoDup_app. split; [|split].
  - destruct (m !! blockNumber) as [l|] eqn:Hl; [by apply Hm in Hl | constructor].
  - intros x Hx Hx'. apply list_elem_of_singleton in Hx' as ->.
    apply not_true_iff_false in Hex. apply Hex.
    apply existsb_exists. exists (Signer confirmation).
    split; [by apply list_elem_of_In | by apply bool_decide_eq_true_2].
  - apply NoDup_singleton.
Qed.

Lemma foldl_addConfirmation_unique pending confirmations :
  confirmers_unique confirmations →
  confirmers_unique (foldl addConfirmation confirmations pending).
Proof.
  revert confirmations. induction pending as [|c pending IH]; intros m Hm; [done|].
  simpl. by apply IH, addConfirmation_unique.
Qed.

Lemma confirmed_loop_firstConfirmed confirmations quorum k n :
  0 ≤ quorum →
  confirmers_unique confirmations →
  confirmed_loop confirmations quorum k n
  = firstConfirmed confirmations quorum (S k) n.
Proof.
  intros Hq Hu. revert n. induction k as [|k IH]; intros n.
  - simpl. destruct (_ <? _); lia.
  - change (confirmed_loop confirmations quorum (S k) n)
      with (match confirmations !! n with
            | Some confirmers =>
                if quorum <? Z.of_nat (length confirmers) then n
                else confirmed_loop confirmations quorum k (n - 1)
            | None => confirmed_loop confirmations quorum k (n - 1)
            end).
    change (firstConfirmed confirmations quorum (S (S k)) n)
      with (if quorum <? Z.of_nat (distinctSigners confirmations n) then n
            else firstConfirmed confirmations quorum (S k) (n - 1)).
    unfold distinctSigners.
    destruct (confirmations !! n) as [confirmers|] eqn:Hn.
    + rewrite size_list_to_set by (by apply Hu in Hn). by rewrite IH.
    + rewrite IH. destruct (Z.ltb_spec quorum (Z.of_nat 0)); [lia | done].
Qed.

(** From block 13 on, with 21 signers, the code computes the walk of the
    specification over the 14 heights from [Number] down. *)
Lemma getLastConfirmedBlockNumber_window s pending :
  params.MaxSignerCount (config s) = 21 →
  13 ≤ Number s < 2 ^ 63 →
  confirmers_unique (Confirmations s) →
  getLastConfirmedBlockNumber s pending
  = firstConfirmed (foldl addConfirmation (Confirmations s) pending) 14 14
      (Number s).
Proof.
  intros HM HN Hu. unfold getLastConfirmedBlockNumber. rewrite HM.
  change (u64_mul 21 2 / 3) with 14. change (int64 14) with 14.
  assert (u64_add (u64_sub (Number s) 14) 1 = Number s - 13) as ->.
  { destruct (decide (Number s = 13)) as [->|]; [done|].
    rewrite u64_sub_exact by (unfold two64; lia).
    unfold u64_add. rewrite u64_small by (unfold two64; lia). lia. }
  replace (Z.to_nat (Number s - (Number s - 13))) with 13%nat by lia.
  rewrite confirmed_loop_firstConfirmed
    by (done || by apply foldl_addConfirmation_unique).
  apply int64_small.
  assert (∀ k n, n - Z.of_nat k ≤ firstConfirmed
            (foldl addConfirmation (Confirmations s) pending) 14 (S k) n ≤ n)
    as Hrange.
  { clear. induction k as [|k IH]; intros n.
    - cbn [firstConfirmed]. destruct (_ <? _); lia.
    - change (firstConfirmed ?c 14 (S (S k)) n)
        with (if 14 <? Z.of_nat (distinctSigners c n) then n
              else firstConfirmed c 14 (S k) (n - 1)).
      destruct (_ <? _); [lia|]. specialize (IH (n - 1)). lia. }
  specialize (Hrange 13%nat (Number s)). lia.
Qed.

(** C6 fails on the code in the first blocks of a chain. The snapshot of
    block 5 is asked with fifteen distinct confirmations of block 3 pending
    and none of blocks 4 and 5. The walk of the specification stops at
    block 3. In the code [s.Number - MaxSignerCount*2/3 + 1] is computed in
    [uint64] and wraps for every number below 13, the loop makes no round,
    and the answer is the number of the snapshot, 5. *)
Theorem getLastConfirmedBlockNumber_early_blocks :
  reachable growslice_double chainConfig receiver
  ∧ Number receiver = 5
  ∧ params.MaxSignerCount (config receiver) = 21
  ∧ distinctSigners
      (foldl addConfirmation (Confirmations receiver) (confirmBlock 3)) 3
    = 15%nat
  ∧ firstConfirmed
      (foldl addConfirmation (Confirmations receiver) (confirmBlock 3)) 14 14 5
    = 3
  ∧ getLastConfirmedBlockNumber receiver (confirmBlock 3) = 5
  ∧ getLastConfirmedBlockNumber receiver [] = 5.
Proof.
  split; [exact receiver_reachable|].
  repeat (split; [vm_compute; reflexivity|]).
  vm_compute. reflexivity.
Qed.

(** Past block 13 the fifteen confirmations of a block in the window make
    it the confirmed block. *)
Example getLastConfirmedBlockNumber_later_blocks :
  getLastConfirmedBlockNumber laterSnapshot (confirmBlock 20) = 20
  ∧ getLastConfirmedBlockNumber laterSnapshot (confirmBlock 12) = 12
  ∧ getLastConfirmedBlockNumber laterSnapshot [] = 12.
Proof. repeat split; vm_compute; reflexivity. Qed.

(** ** The errors of apply *)

Lemma bindM_Fail {A B} (m : M A) (k : A → M B) st st' e :
  bindM m k st = (st', Fail e) →
  m st = (st', Fail e)
  ∨ ∃ st1 a, m st = (st1, Ret a) ∧ k a st1 = (st', Fail e).
Proof.
  unfold bindM. destruct (m st) as [st1 [a|e'| |]]; try done.
  - intros H. right. by exists st1, a.
  - intros [= -> ->]. by left.
Qed.

Lemma foldM_Fail {A B} (f : B → A → M B) (l : list A) b st st' e :
  foldM f l b st = (st', Fail e) →
  ∃ b1 a st1 st2, a ∈ l ∧ f b1 a st1 = (st2, Fail e).
Proof.
  revert b st. induction l as [|a l IH]; intros b st; simpl; [done|].
  intros H. apply bindM_Fail in H as [H|(st1 & b1 & _ & H)].
  - exists b, a, st, st'. split; [by left | done].
  - apply IH in H as (b2 & a2 & st2 & st3 & Hin & H).
    exists b2, a2, st2, st3. split; [by right | done].
Qed.

Section apply_errors.
Variable growslice : nat → nat.

Lemma updateSnapshotByVotes_no_error s votes headerNumber st st' e :
  updateSnapshotByVotes growslice s votes headerNumber st ≠ (st', Fail e).
Proof.
  intros H. apply foldM_Fail in H as (b & vote & st1 & st2 & _ & H).
  unfold updateSnapshotByVotes_step in H.
  destruct (bool_decide (is_Some (Votes b !! Voter vote))); [done|].
  destruct (negb (isCandidate b (Candidate vote))
            && negb (bool_decide (Candidate vote = Voter vote))); [done|].
  apply bindM_Fail in H as [H|(st3 & tally & _ & H)].
  - unfold liftM in H.
    destruct (isCandidate b (Candidate vote)); [|done].
    by destruct (Tally b !! Candidate vote).
  - by destruct (slice_append _ _ _ _).
Qed.

Lemma updateSnapshotByCancels_no_error fuel s cancels headerNumber st st' e :
  updateSnapshotByCancels fuel s cancels headerNumber st ≠ (st', Fail e).
Proof.
  unfold updateSnapshotByCancels. intros [= _ H]. revert cancels s H.
  induction fuel as [|fuel IH]; intros [|cancel rest] s; simpl; try done.
  destruct (bool_decide (is_Some (Cancels s !! Canceler cancel))); apply IH.
Qed.

Lemma removeExtraVotesAndCancel_no_error s st st' e :
  removeExtraVotesAndCancel s st ≠ (st', Fail e).
Proof.
  intros H. apply foldM_Fail in H as (b & [canceler cancel] & st1 & st2 & _ & H).
  unfold removeExtraVotesAndCancel_step in H.
  apply bindM_Fail in H as [H|(st3 & elapsed & _ & H)].
  - unfold liftM, freezeElapsed in H.
    destruct (Passive cancel).
    + by destruct (Cancelers b !! canceler).
    + destruct (Cancelers b !! Canceler cancel); [|done].
      by destruct (decide _).
  - destruct elapsed; [|done].
    apply bindM_Fail in H as [H|(st4 & s1 & _ & H)]; [|done].
    destruct (isCandidate b canceler); [done|].
    destruct (Votes b !! canceler) as [vote|]; [|done].
    destruct (Candidates b !! Candidate vote); [|done].
    by destruct (removeVoter_loop _ _ _ _ _).
Qed.

(** The errors of the loop body are those of [ecrecover], of the decoder,
    and [errUnauthorized]. *)
Lemma applyHeader_Fail fuel s snap header st st' e :
  applyHeader growslice fuel s snap header st = (st', Fail e) →
  types.ecrecover header = Fail e ∨ e = errUnauthorized
  ∨ types.Extra header = Fail e.
Proof.
  unfold applyHeader. intros H.
  apply bindM_Fail in H as [H|(st1 & coinbase & _ & H)].
  { left. unfold liftM in H. by injection H. }
  destruct (bool_decide (coinbase ≠ types.Coinbase header)).
  { right. left. unfold liftM in H. by injection H as _ <-. }
  apply bindM_Fail in H as [H|(st2 & headerExtra & _ & H)].
  { right. right. unfold liftM in H. by injection H. }
  apply bindM_Fail in H as [H|(st3 & historyHash & _ & H)].
  { exfalso. unfold liftM, appendHistory in H.
    destruct (_ <=? _); [|done]. by destruct (_ <=? _). }
  apply bindM_Fail in H as [H|(st4 & snap1 & _ & H)].
  { by apply updateSnapshotByVotes_no_error in H. }
  apply bindM_Fail in H as [H|(st5 & snap2 & _ & H)].
  { by apply updateSnapshotByCancels_no_error in H. }
  by apply removeExtraVotesAndCancel_no_error in H.
Qed.

Lemma verifyTallyCnt_Fail s e :
  verifyTallyCnt s = Fail e → e = errIncorrectTallyCount.
Proof.
  unfold verifyTallyCnt.
  set (start := map_fold _ _ (Votes s)). clearbody start.
  assert (∀ e', map_fold (λ _ c acc, tallyTarget_cancel s c acc) (Ret start)
                  (Cancels s) ≠ Fail e') as Hfold.
  { intros e'.
    apply (map_fold_weak_ind (λ r _, r ≠ Fail e')); [done|].
    intros canceler c m r _ Hr. unfold tallyTarget_cancel.
    destruct r as [target|e''| |]; simpl; try done.
    destruct (Votes s !! Canceler c) as [vote|]; [|done].
    by destruct (target !! Candidate vote). }
  destruct (map_fold _ _ (Cancels s)) as [target|e'| |] eqn:E; simpl; try done.
  - destruct (bool_decide _); [done | by intros [= <-]].
  - by destruct (Hfold e').
Qed.

(** The first half of C2: [apply] of at least one header fails with
    [errInvalidVotingChain] exactly when the sanity loop finds two
    headers that do not follow each other or the first header does not
    follow the snapshot, given that [ecrecover] and the decoder, which
    are outside the package, do not return that error value. *)
Lemma apply_invalid_voting_chain fuel s header headers st :
  Forall (λ h, types.ecrecover h ≠ Fail errInvalidVotingChain
               ∧ types.Extra h ≠ Fail errInvalidVotingChain)
         (header :: headers) →
  (apply growslice fuel s (header :: headers) st).2 = Fail errInvalidVotingChain
  ↔ consecutive (header :: headers) = false
    ∨ Uint64 (types.Number header) ≠ u64_add (Number s) 1.
Proof.
  intros Hexternal. unfold apply.
  destruct (consecutive (header :: headers)) eqn:Hcons; simpl.
  2: { split; [by left | done]. }
  destruct (decide _) as [Hfirst|Hfirst]; simpl.
  { split; [by right | done]. }
  split; [|by intros [?|?]].
  intros H. exfalso.
  destruct (bindM _ _ st) as [st' r] eqn:E. simpl in H. subst r.
  apply bindM_Fail in E as [E|(st1 & snap & _ & E)].
  - apply (foldM_Fail (applyHeader growslice fuel s) (header :: headers))
      in E as (b & h & st1 & st2 & Hin & E).
    rewrite Forall_forall in Hexternal. destruct (Hexternal h Hin) as [? ?].
    apply applyHeader_Fail in E as [?|[?|?]]; done.
  - apply bindM_Fail in E as [E|(st2 & [] & _ & E)]; [|done].
    unfold liftM in E. injection E as _ E.
    by apply verifyTallyCnt_Fail in E.
Qed.

End apply_errors.


(** * Further properties of the package *)

(** ** getSignerMissing: what the list can hold *)

Lemma getSignerMissing_loop_elem lastSigner currentSigner queue record acc x :
  x ∈ getSignerMissing_loop lastSigner currentSigner queue record acc →
  x ∈ acc ∨ (x ∈ queue ∧ x ≠ lastSigner ∧ x ≠ currentSigner).
Proof.
  revert record acc. induction queue as [|signer rest IH]; intros record acc; simpl.
  { by left. }
  destruct (decide (signer = lastSigner)) as [->|Hlast].
  { intros Hx. apply IH in Hx as [?|(?&?&?)]; [by left|].
    right. split; [by right | done]. }
  destruct (decide (signer = currentSigner)) as [->|Hcurrent]; [by left|].
  destruct record; intros Hx; apply IH in Hx as [Hx|(?&?&?)].
  - apply elem_of_app in Hx as [?|Hx]; [by left|].
    apply list_elem_of_singleton in Hx as ->. right. split; [by left | done].
  - right. split; [by right | done].
  - by left.
  - right. split; [by right | done].
Qed.

(** X1. Every signer reported missing is an entry of the queue and is neither
    the previous nor the current coinbase. *)
Theorem getSignerMissing_members lastSigner currentSigner extra x :
  x ∈ getSignerMissing lastSigner currentSigner extra →
  x ∈ SignerQueue extra ∧ x ≠ lastSigner ∧ x ≠ currentSigner.
Proof.
  unfold getSignerMissing. intros Hx.
  apply getSignerMissing_loop_elem in Hx as [Hx|?]; [|done].
  by apply elem_of_nil in Hx.
Qed.

Lemma getSignerMissing_members_witness :
  addrB ∈ SignerQueue queueABCD ∧ addrB ≠ addrA ∧ addrB ≠ addrD.
Proof.
  apply (getSignerMissing_members addrA addrD queueABCD addrB).
  vm_compute. apply list_elem_of_here.
Defined.

(** X2. When the previous coinbase is not in the queue, or is its last entry,
    nothing is reported missing, whatever the current coinbase. *)
Theorem getSignerMissing_unknown_last lastSigner currentSigner extra :
  (lastSigner ∉ SignerQueue extra
   ∨ ∃ queue, SignerQueue extra = queue ++ [lastSigner] ∧ lastSigner ∉ queue) →
  getSignerMissing lastSigner currentSigner extra = [].
Proof.
  assert (∀ queue acc, lastSigner ∉ queue →
            getSignerMissing_loop lastSigner currentSigner queue false acc = acc)
    as Hnone.
  { induction queue as [|signer rest IH]; intros acc Hnot; simpl; [done|].
    apply not_elem_of_cons in Hnot as [? ?].
    rewrite decide_False by done.
    destruct (decide (signer = currentSigner)); [done | by apply IH]. }
  unfold getSignerMissing. intros [Hnot|(queue & -> & Hnot)].
  - by apply Hnone.
  - assert (∀ acc, getSignerMissing_loop lastSigner currentSigner
                     (queue ++ [lastSigner]) false acc = acc) as Hlast.
    { induction queue as [|signer rest IH]; intros acc; simpl.
      - by rewrite decide_True.
      - apply not_elem_of_cons in Hnot as [? ?].
        rewrite decide_False by done.
        destruct (decide (signer = currentSigner)); [done | by apply IH]. }
    apply Hlast.
Qed.

Lemma getSignerMissing_unknown_last_witness :
  getSignerMissing addrE addrB queueABCD = []
  ∧ getSignerMissing addrD addrB queueABCD = [].
Proof.
  split.
  - apply getSignerMissing_unknown_last. left. solve_not_elem.
  - apply getSignerMissing_unknown_last. right.
    exists [addrA; addrB; addrC]. split; [reflexivity | solve_not_elem].
Defined.

(** ** The pending lists of the interpreter *)

(** X3. [processEventCancel] keeps the pending cancels and adds at most one,
    active and of the sender; a list without two cancels of one address
    stays so. *)
Theorem processEventCancel_no_duplicates
    (currentBlockCancels : list Cancel) (canceler : Address)
    (txDataInfo : list string) :
  NoDup (Canceler <$> currentBlockCancels) →
  let cancels' := processEventCancel currentBlockCancels canceler txDataInfo in
  NoDup (Canceler <$> cancels')
  ∧ (cancels' = currentBlockCancels
     ∨ (cancels' = currentBlockCancels ++ [mkCancel canceler false]
        ∧ (canceler ∉ (Canceler <$> currentBlockCancels))
        ∧ (3 ≤ length txDataInfo)%nat))
  ∧ (canceler ∈ (Canceler <$> currentBlockCancels) →
     cancels' = currentBlockCancels)
  ∧ ((length txDataInfo < 3)%nat → cancels' = currentBlockCancels).
Proof.
  intros Hnodup cancels'. subst cancels'.
  unfold processEventCancel, posEventCancel.
  destruct (Nat.leb_spec 3 (length txDataInfo)) as [Hlen|Hlen].
  2: { split; [done|]. split; [by left|]. split; done. }
  destruct (existsb _ currentBlockCancels) eqn:Hex.
  { split; [done|]. split; [by left|]. split; [done | lia]. }
  assert (canceler ∉ (Canceler <$> currentBlockCancels)) as Hnot.
  { intros Hin. apply list_elem_of_fmap in Hin as (c & -> & Hc).
    apply not_true_iff_false in Hex. apply Hex.
    apply existsb_exists. exists c.
    split; [by apply list_elem_of_In | by apply bool_decide_eq_true_2]. }
  split; [|split; [by right|split; [done | lia]]].
  rewrite fmap_app. apply NoDup_app. split; [done|]. split; [|apply NoDup_singleton].
  intros x Hx Hx'. apply list_elem_of_singleton in Hx' as ->. done.
Qed.

Lemma processEventCancel_no_duplicates_witness :
  NoDup (Canceler <$> processEventCancel [mkCancel addrD false] addrD
                        ["ufo"; "1"; "event"; "cancel"]).
Proof.
  apply (processEventCancel_no_duplicates [mkCancel addrD false] addrD
           ["ufo"; "1"; "event"; "cancel"]).
  apply NoDup_singleton.
Defined.

(** X4. [processEventVote] never lists two pending votes of one voter, and
    never lists a vote of a voter that has a vote in the snapshot. *)
Theorem processEventVote_unique_voters
    (config : params.AlienConfig) (isBlockChain : bool) (snap : Snapshot)
    (currentBlockVotes : list Vote) (state : StateDB) (tx : Transaction)
    (voter : Address) (txDataInfo : list string)
    (votes' : list Vote) (state' : StateDB) :
  NoDup (Voter <$> currentBlockVotes) →
  processEventVote config isBlockChain (Ret snap) currentBlockVotes state tx voter
    txDataInfo = Ret (votes', state') →
  NoDup (Voter <$> votes')
  ∧ (is_Some (Votes snap !! voter) ∨ voter ∈ (Voter <$> currentBlockVotes) →
     votes' = currentBlockVotes ∧ state' = state).
Proof.
  intros Hnodup. unfold processEventVote.
  destruct (posEventVoteValue <=? length txDataInfo)%nat;
    [|by intros [= <- <-]].
  destruct (txDataInfo !! posEventVoteValue) as [text|]; [|done].
  destruct (SetString10 text) as [value|]; [|by intros [= <- <-]].
  destruct isBlockChain; simpl; [|by intros [= <- <-]].
  destruct (bool_decide (is_Some (Votes snap !! voter))) eqn:Hsnap;
    [by intros [= <- <-]|].
  apply bool_decide_eq_false in Hsnap.
  destruct (To tx) as [to|]; [|done].
  match goal with
  | |- context [if (if ?c then ?a else ?b) then _ else _] =>
      destruct (if c then a else b)
  end; [by intros [= <- <-]|].
  destruct (0 <? Cmp (GetBalance state voter) value); [|by intros [= <- <-]].
  destruct (existsb _ currentBlockVotes) eqn:Hex; [by intros [= <- <-]|].
  assert (voter ∉ (Voter <$> currentBlockVotes)) as Hnot.
  { intros Hin. apply list_elem_of_fmap in Hin as (v & -> & Hv).
    apply not_true_iff_false in Hex. apply Hex.
    apply existsb_exists. exists v.
    split; [by apply list_elem_of_In | by apply bool_decide_eq_true_2]. }
  intros [= <- <-]. split; [|by intros [?|?]].
  rewrite fmap_app. apply NoDup_app. split; [done|]. split; [|apply NoDup_singleton].
  intros x Hx Hx'. apply list_elem_of_singleton in Hx' as ->. done.
Qed.

Lemma processEventVote_unique_voters_witness :
  NoDup (Voter <$> [mkVote addrD addrA 100 (hashOf 116)]).
Proof.
  refine (proj1 (processEventVote_unique_voters chainConfig true voteSnapshot
                   [] {[addrD := 101]} voteTx addrD
                   ["ufo"; "1"; "event"; "vote"; "100"]
                   [mkVote addrD addrA 100 (hashOf 116)] {[addrD := 1]} _ _)).
  - apply NoDup_nil_2.
  - vm_compute. reflexivity.
Defined.

(** X5. A confirmation that [processEventConfirm] adds is of the sender, for a
    block number that parses as an [int], that lies at most
    [MaxSignerCount] below the current number in [uint64] arithmetic, and
    whose header lists the sender in its signer queue; nothing else is
    changed in the pending list. *)
Theorem processEventConfirm_accepts_only_queued
    (config : params.AlienConfig) (getHeaderByNumber : Z → option types.Header)
    (currentBlockConfirmations : list Confirmation) (txDataInfo : list string)
    (number : Z) (confirmer : Address) (confirmations' : list Confirmation) :
  processEventConfirm config getHeaderByNumber currentBlockConfirmations
    txDataInfo number confirmer = Ret confirmations' →
  confirmations' = currentBlockConfirmations
  ∨ ∃ text n header extra,
      txDataInfo !! 4%nat = Some text ∧ Atoi text = Some n
      ∧ u64_sub number (u64 n) ≤ params.MaxSignerCount config
      ∧ getHeaderByNumber (u64 n) = Some header
      ∧ types.Extra header = Ret extra
      ∧ confirmer ∈ SignerQueue extra
      ∧ confirmations'
        = currentBlockConfirmations ++ [mkConfirmation confirmer n].
Proof.
  unfold processEventConfirm, posEventConfirmNumber.
  destruct (4 <=? length txDataInfo)%nat; [|intros [= <-]; by left].
  destruct (txDataInfo !! 4%nat) as [text|] eqn:Htext; [|done].
  destruct (Atoi text) as [n|] eqn:Hn; [|intros [= <-]; by left].
  destruct (Z.ltb_spec (params.MaxSignerCount config) (u64_sub number (u64 n)));
    [intros [= <-]; by left|].
  destruct (getHeaderByNumber (u64 n)) as [header|] eqn:Hheader;
    [|intros [= <-]; by left].
  destruct (types.Extra header) as [extra|e| |] eqn:Hextra;
    try (intros [= <-]; by left).
  destruct (existsb _ (SignerQueue extra)) eqn:Hex; [|intros [= <-]; by left].
  intros [= <-]. right. exists text, n, header, extra.
  repeat (split; [done|]).
  split.
  - apply existsb_exists in Hex as (s & Hs & Heq).
    apply bool_decide_eq_true in Heq as ->. by apply list_elem_of_In.
  - do 3 f_equal. apply int64_small.
    unfold Atoi in Hn. destruct (SetString10 text) as [v|]; [|done].
    destruct (Z.leb_spec (- 2 ^ 63) v), (Z.ltb_spec v (2 ^ 63));
      simpl in Hn; try done. injection Hn as <-. lia.
Qed.

(** A confirmation of block 6 by A in block 8. *)
Lemma processEventConfirm_accepts_only_queued_witness :
  [mkConfirmation addrA 6] = []
  ∨ ∃ text n header extra,
      ["ufo"; "1"; "event"; "confirm"; "6"] !! 4%nat = Some text
      ∧ Atoi text = Some n
      ∧ u64_sub 8 (u64 n) ≤ params.MaxSignerCount chainConfig
      ∧ (λ n, Some (block n [] [] [])) (u64 n) = Some header
      ∧ types.Extra header = Ret extra
      ∧ addrA ∈ SignerQueue extra
      ∧ [mkConfirmation addrA 6] = [] ++ [mkConfirmation addrA n].
Proof.
  apply (processEventConfirm_accepts_only_queued chainConfig
           (λ n, Some (block n [] [] [])) []
           ["ufo"; "1"; "event"; "confirm"; "6"] 8 addrA).
  vm_compute. reflexivity.
Defined.

(** ** The guard of the signer queue *)

Lemma foldl_pushHistory_last bound historyHash hash hashes :
  (0 < bound)%nat →
  last (foldl (pushHistory bound) historyHash (hash :: hashes))
  = Some (List.last hashes hash).
Proof.
  intros Hb. revert hash historyHash.
  induction hashes as [|hash' hashes IH]; intros hash historyHash.
  - simpl. unfold pushHistory. rewrite length_app. simpl.
    rewrite drop_app_le by lia. by rewrite last_snoc.
  - cbn [foldl] in *. rewrite IH. by rewrite last_cons_default.
Qed.

Lemma newSnapshot_hash growslice config hash votes lcrs now st st' s :
  newSnapshot growslice config hash votes lcrs now st = (st', Ret s) →
  alien.Hash s = hash.
Proof.
  unfold newSnapshot. intros H.
  apply bindM_Ret in H as (st1 & snap & Hvotes & H).
  apply bindM_Ret in H as (st2 & signers & _ & H).
  apply retM_Ret in H as [-> _]. simpl.
  revert Hvotes.
  apply (foldM_Ret_ind (λ snap, alien.Hash snap = hash)); [|done].
  clear. intros b vote st st' b' Hb Hstep.
  unfold newSnapshot_vote in Hstep.
  destruct (slice_append _ _ _ _) as [st1 sl]. by injection Hstep as _ <-.
Qed.

Lemma reachable_last_hash growslice config s :
  0 < params.MaxSignerCount config < 2 ^ 62 →
  reachable growslice config s →
  last (HistoryHash s) = Some (alien.Hash s).
Proof.
  intros HM Hs.
  induction Hs as [hash votes lcrs now st st' s Hnew
                  |fuel s headers st st' s' Hs IH Happly].
  - pose proof (newSnapshot_hash _ _ _ _ _ _ _ _ _ Hnew) as ->.
    by apply newSnapshot_history in Hnew as (_ & -> & _).
  - destruct headers as [|header headers].
    { by apply retM_Ret in Happly as [-> _]. }
    destruct (reachable_history growslice config s HM Hs) as [Hconfig Hlen].
    pose proof Happly as Happly'.
    apply apply_Ret in Happly' as (_ & _ & _ & _ & _ & _ & _ & ->).
    apply apply_history in Happly as (_ & -> & _); rewrite ?Hconfig; try done.
    change (types.Hash <$> header :: headers)
      with (types.Hash header :: (types.Hash <$> headers)).
    rewrite foldl_pushHistory_last by lia. f_equal.
    rewrite last_cons_default.
    clear. revert header. induction headers as [|h' headers IH]; intros header; [done|].
    change (types.Hash <$> h' :: headers)
      with (types.Hash h' :: (types.Hash <$> headers)).
    by rewrite !last_cons_default.
Qed.

Section queue_guard.
Variable sortTally : list TallyItem → list TallyItem.
Variable sortSigners : list SignerItem → list SignerItem.

(** X6. On a snapshot the engine can hold, [createSignerQueue] refuses with
    [errCreateSignerQueueNotAllowed] exactly when the next block does not
    end a loop of [MaxSignerCount] blocks: the hash of the snapshot is
    always the last entry of its history, so the other half of the guard
    never refuses. *)
Theorem createSignerQueue_not_allowed
    (growslice : nat → nat) (config : params.AlienConfig) (s : Snapshot)
    (mainSigners : list Address) :
  0 < params.MaxSignerCount config < 2 ^ 62 →
  reachable growslice config s →
  createSignerQueue sortTally sortSigners s mainSigners
  = Fail errCreateSignerQueueNotAllowed
  ↔ u64_add (Number s) 1 mod params.MaxSignerCount config ≠ 0.
Proof.
  intros HM Hs.
  destruct (reachable_history growslice config s HM Hs) as [Hconfig _].
  pose proof (reachable_last_hash growslice config s HM Hs) as Hlast.
  unfold createSignerQueue. rewrite Hconfig, Hlast.
  destruct (decide (params.MaxSignerCount config = 0)); [lia|].
  destruct (decide (u64_add (Number s) 1 mod params.MaxSignerCount config ≠ 0))
    as [Hmod|Hmod]; [done|].
  destruct (decide (alien.Hash s ≠ alien.Hash s)); [done|].
  split; [|done].
  intros H. exfalso. revert H.
  repeat case_match; try done; congruence.
Qed.

End queue_guard.

Lemma createSignerQueue_not_allowed_witness :
  createSignerQueue sortTallyExample sortSignersExample receiver [addrA]
  = Fail errCreateSignerQueueNotAllowed.
Proof.
  apply (createSignerQueue_not_allowed sortTallyExample sortSignersExample
           growslice_double chainConfig receiver [addrA]).
  - split; reflexivity.
  - exact receiver_reachable.
  - vm_compute. discriminate.
Defined.

(** ** The signer queue *)

Lemma tallyItemOf_Some s entry item :
  tallyItemOf s entry = Some item →
  addr item = entry.1 ∧ 0 < entry.2
  ∧ stake item
    = entry.2 * match Punished s !! entry.1 with
                | Some punished =>
                    int64 (if defaultFullCredit - minCalSignerQueueCredit <? punished
                           then minCalSignerQueueCredit
                           else u64_sub defaultFullCredit punished)
                | None => defaultFullCredit
                end.
Proof.
  destruct entry as [address t]. unfold tallyItemOf. simpl.
  destruct (Z.leb_spec t 0); [done|].
  destruct (Punished s !! address); intros [= <-]; done.
Qed.

Lemma buildTallySlice_elem s item :
  item ∈ buildTallySlice s →
  ∃ t, Tally s !! addr item = Some t ∧ 0 < t.
Proof.
  unfold buildTallySlice. intros Hin.
  apply list_elem_of_omap in Hin as ([address t] & Hentry & Hitem).
  apply elem_of_map_to_list in Hentry.
  apply tallyItemOf_Some in Hitem as (Haddr & Hpos & _). simpl in *.
  exists t. by rewrite Haddr.
Qed.


Lemma itemLess_irrefl x : itemLess x x = false.
Proof.
  apply not_true_iff_false. intros Hx.
  apply itemLess_spec in Hx as [?|[_ Hx]]; [lia|].
  apply bytes_Compare_greater in Hx. rewrite bytes_Compare_refl in Hx. lia.
Qed.

Lemma itemLess_trans x y z :
  itemLess x y = true → itemLess y z = true → itemLess x z = true.
Proof.
  rewrite !itemLess_spec. intros [?|[? Hxy]] [?|[? Hyz]]; try (left; lia).
  right. split; [lia|]. by eapply lex_greater_trans.
Qed.

Lemma itemLess_total x y :
  x ≠ y → itemLess x y = true ∨ itemLess y x = true.
Proof.
  intros Hne. rewrite !itemLess_spec.
  destruct (Z.lt_total (stake x) (stake y)) as [?|[Hs|?]]; [by auto| |by auto].
  destruct (Z.lt_total 0 (bytes_Compare (bytes_of (addr x)) (bytes_of (addr y))))
    as [Hc|[Hc|Hc]].
  - left. right. split; [done|]. by apply bytes_Compare_greater.
  - symmetry in Hc. apply bytes_Compare_eq, bytes_of_inj in Hc.
    destruct x, y; simpl in *; congruence.
  - right. right. split; [done|].
    by apply bytes_Compare_greater, bytes_Compare_flip.
Qed.

Lemma itemLess_asym x y : itemLess x y = true → itemLess y x = false.
Proof.
  intros Hxy. apply not_true_iff_false. intros Hyx.
  pose proof (itemLess_trans _ _ _ Hxy Hyx) as Hxx.
  by rewrite itemLess_irrefl in Hxx.
Qed.

#[global] Instance tallyNotAfter_total : Total tallyNotAfter.
Proof.
  intros x y. unfold tallyNotAfter.
  destruct (itemLess y x) eqn:Hyx; [|by left].
  right. by apply itemLess_asym.
Qed.

#[global] Instance tallyNotAfter_antisymm : AntiSymm (=) tallyNotAfter.
Proof.
  intros x y Hxy Hyx. unfold tallyNotAfter in *.
  destruct (decide (x = y)) as [|Hne]; [done|].
  apply itemLess_total in Hne as [?|?]; congruence.
Qed.

#[global] Instance tallyNotAfter_trans : Transitive tallyNotAfter.
Proof.
  intros x y z Hxy Hyz. unfold tallyNotAfter in *.
  apply not_true_iff_false. intros Hzx.
  destruct (decide (x = y)) as [->|Hne]; [congruence|].
  apply itemLess_total in Hne as [Hlt|?]; [|congruence].
  pose proof (itemLess_trans _ _ _ Hzx Hlt). congruence.
Qed.

Lemma buildTallySlice_NoDup s : NoDup (addr <$> buildTallySlice s).
Proof.
  unfold buildTallySlice.
  pose proof (NoDup_fst_map_to_list (Tally s)) as Hnodup.
  induction (map_to_list (Tally s)) as [|entry l IH]; simpl; [constructor|].
  apply NoDup_cons in Hnodup as [Hentry Hl].
  destruct (tallyItemOf s entry) as [item|] eqn:Hitem; [|by apply IH].
  simpl. apply NoDup_cons. split; [|by apply IH].
  apply tallyItemOf_Some in Hitem as (-> & _). intros Hin. apply Hentry.
  apply list_elem_of_fmap in Hin as (item' & Haddr & Hin).
  apply list_elem_of_omap in Hin as (entry' & Hentry' & Hitem').
  apply tallyItemOf_Some in Hitem' as (Haddr' & _).
  apply list_elem_of_fmap. exists entry'. split; [congruence | done].
Qed.

Section signer_queue_results.
Variable sortTally : list TallyItem → list TallyItem.
Variable sortSigners : list SignerItem → list SignerItem.
Hypothesis sortTally_Permutation : ∀ l, sortTally l ≡ₚ l.
Hypothesis sortSigners_Permutation : ∀ l, sortSigners l ≡ₚ l.

Lemma pairWithHistory_Ret historyHash i addresses items :
  pairWithHistory historyHash i addresses = Ret items →
  signerAddr <$> items = addresses.
Proof.
  revert i items. induction addresses as [|a rest IH]; intros i items; simpl.
  { by intros [= <-]. }
  destruct (i <? length historyHash)%nat; [|done].
  destruct (historyHash !! _); [|done].
  destruct (pairWithHistory historyHash (S i) rest) as [items'| | |] eqn:Hrest;
    try done.
  intros [= <-]. simpl. f_equal. by eapply IH.
Qed.

Lemma topStakeAddress_Ret signerSlice count queue :
  topStakeAddress signerSlice count = Ret queue →
  length queue = count
  ∧ (∀ a, a ∈ queue → a ∈ signerAddr <$> signerSlice)
  ∧ (signerSlice ≠ [] → (length signerSlice ≤ count)%nat →
     ∀ a, a ∈ signerAddr <$> signerSlice → a ∈ queue).
Proof.
  unfold topStakeAddress. destruct count as [|count].
  { intros [= <-]. split; [done|]. split; [by intros a Ha%elem_of_nil|].
    intros Hne Hlen. destruct signerSlice; [done | simpl in Hlen; lia]. }
  destruct signerSlice as [|d rest]; [done|].
  set (signerSlice := d :: rest).
  assert (0 < length signerSlice)%nat as Hpos by (simpl; lia).
  clearbody signerSlice. intros Hqueue.
  assert (queue
          = (λ i, signerAddr
                    (default d (signerSlice !! (i mod length signerSlice)%nat)))
              <$> seq 0 (S count)) as -> by congruence.
  clear Hqueue.
  split; [by rewrite length_fmap, length_seq|]. split.
  - intros a Ha. apply list_elem_of_fmap in Ha as (i & -> & _).
    destruct (lookup_lt_is_Some_2 signerSlice (i mod length signerSlice))
      as [x Hx]; [apply Nat.mod_upper_bound; lia|].
    rewrite Hx. simpl. apply list_elem_of_fmap_2.
    by eapply list_elem_of_lookup_2.
  - intros _ Hlen a Ha. apply list_elem_of_fmap in Ha as (x & -> & Hx).
    apply list_elem_of_lookup_1 in Hx as (i & Hi).
    pose proof (lookup_lt_Some _ _ _ Hi) as Hlt.
    apply list_elem_of_fmap. exists i. split.
    + rewrite Nat.mod_small by done. by rewrite Hi.
    + apply elem_of_seq. lia.
Qed.

(** X7. The queue [createSignerQueue] returns has [MaxSignerCount] entries,
    and each of them is, in a round that recalculates the signers, a
    candidate with a positive tally, in another round a signer of the
    snapshot, or else a signer of the main chain. *)
Theorem createSignerQueue_members (s : Snapshot) (mainSigners queue : list Address) :
  0 ≤ params.MaxSignerCount (config s) < 2 ^ 63 →
  createSignerQueue sortTally sortSigners s mainSigners = Ret queue →
  Z.of_nat (length queue) = params.MaxSignerCount (config s)
  ∧ ∀ a, a ∈ queue →
      a ∈ mainSigners
      ∨ (if decide (u64_add (Number s) 1
                    mod u64_mul (params.MaxSignerCount (config s)) (LCRS s) = 0)
         then ∃ t, Tally s !! a = Some t ∧ 0 < t
         else a ∈ Signers s).
Proof.
  intros HM. unfold createSignerQueue.
  rewrite (int64_small (params.MaxSignerCount (config s))) by lia.
  destruct (decide (params.MaxSignerCount (config s) = 0)); [done|].
  destruct (decide (_ ≠ 0)); [done|].
  destruct (last (HistoryHash s)) as [lastHash|]; [|done].
  destruct (decide (alien.Hash s ≠ lastHash)); [done|].
  destruct (decide (u64_mul _ _ = 0)); [done|].
  destruct (if decide (_ mod _ = 0) then _ else _) as [items| | |] eqn:Hpaired;
    try done.
  assert (∀ a, a ∈ signerAddr <$> sortSigners items →
            if decide (u64_add (Number s) 1
                       mod u64_mul (params.MaxSignerCount (config s)) (LCRS s) = 0)
            then ∃ t, Tally s !! a = Some t ∧ 0 < t
            else a ∈ Signers s) as Hitems.
  { intros a. rewrite sortSigners_Permutation.
    destruct (decide (_ mod _ = 0)).
    - destruct (_ <? 0); [done|].
      apply pairWithHistory_Ret in Hpaired as ->.
      intros Ha. apply list_elem_of_fmap in Ha as (item & -> & Hitem).
      apply elem_of_take in Hitem as (i & Hitem & _).
      apply list_elem_of_lookup_2 in Hitem.
      rewrite sortTally_Permutation in Hitem.
      by apply buildTallySlice_elem.
    - by apply pairWithHistory_Ret in Hpaired as ->. }
  destruct (sortSigners items) as [|item rest] eqn:Hsorted.
  - destruct (ParseUint _) as [appid|]; [|done].
    destruct (appid <=? 100); [|done].
    unfold applyMainTally.
    destruct (pairWithHistory (HistoryHash s) 0 mainSigners)
      as [items'| | |] eqn:Hmain; try done.
    simpl. destruct (topStakeAddress _ _) as [queue'| | |] eqn:Htop; try done.
    intros [= <-]. apply topStakeAddress_Ret in Htop as (Hlen & Hin & _).
    split; [lia|]. intros a Ha. left.
    apply Hin in Ha. rewrite (sortSigners_Permutation items') in Ha.
    apply pairWithHistory_Ret in Hmain. by rewrite <-Hmain.
  - destruct (topStakeAddress _ _) as [queue'| | |] eqn:Htop; try done.
    intros [= <-]. apply topStakeAddress_Ret in Htop as (Hlen & Hin & _).
    split; [lia|]. intros a Ha. right. by apply Hitems, Hin.
Qed.

Hypothesis sortTally_Sorted : ∀ l, Sorted tallyNotAfter (sortTally l).

(** X8. The order in which the tally is ranged over does not show in the
    sorted tally slice: [TallySlice.Less] leaves [sort.Sort] one result. *)
Theorem sortTally_range_order (s : Snapshot) (entries : list (Address * Z)) :
  entries ≡ₚ map_to_list (Tally s) →
  sortTally (omap (tallyItemOf s) entries) = sortTally (buildTallySlice s).
Proof.
  intros Hentries. apply (Sorted_unique tallyNotAfter); [done..|].
  rewrite !sortTally_Permutation. unfold buildTallySlice. by rewrite Hentries.
Qed.

(** X9. In a round that recalculates the signers, a candidate in the queue
    sorts before every candidate with a positive tally that is left out:
    its weighted stake is larger, or equal with a greater address. *)
Theorem createSignerQueue_top_stake (s : Snapshot)
    (mainSigners queue : list Address) (x y : TallyItem) :
  0 ≤ params.MaxSignerCount (config s) < 2 ^ 63 →
  u64_add (Number s) 1
  mod u64_mul (params.MaxSignerCount (config s)) (LCRS s) = 0 →
  createSignerQueue sortTally sortSigners s mainSigners = Ret queue →
  x ∈ buildTallySlice s → y ∈ buildTallySlice s →
  addr x ∈ queue → addr y ∉ queue →
  itemLess x y = true.
Proof.
  intros HM Hround. unfold createSignerQueue.
  rewrite (int64_small (params.MaxSignerCount (config s))) by lia.
  destruct (decide (params.MaxSignerCount (config s) = 0)); [done|].
  destruct (decide (_ ≠ 0)); [done|].
  destruct (last (HistoryHash s)) as [lastHash|]; [|done].
  destruct (decide (alien.Hash s ≠ lastHash)); [done|].
  destruct (decide (u64_mul _ _ = 0)); [done|].
  rewrite decide_True by done.
  set (tallySlice := sortTally (buildTallySlice s)).
  set (queueLength :=
         if Z.of_nat (length tallySlice) <? params.MaxSignerCount (config s)
         then Z.of_nat (length tallySlice)
         else params.MaxSignerCount (config s)).
  assert (0 ≤ queueLength ≤ params.MaxSignerCount (config s)) as Hlength.
  { unfold queueLength. destruct (Z.ltb_spec (Z.of_nat (length tallySlice))
                                    (params.MaxSignerCount (config s))); lia. }
  rewrite (proj2 (Z.ltb_ge queueLength 0)) by lia.
  destruct (pairWithHistory _ _ _) as [items| | |] eqn:Hpaired; try done.
  apply pairWithHistory_Ret in Hpaired.
  intros Hqueue Hx Hy Hxin Hyout.
  assert (x ∈ tallySlice) as Hx'.
  { unfold tallySlice. by rewrite sortTally_Permutation. }
  assert (y ∈ tallySlice) as Hy'.
  { unfold tallySlice. by rewrite sortTally_Permutation. }
  assert (length (sortSigners items)
          = length (take (Z.to_nat queueLength) tallySlice)) as Hitems.
  { rewrite sortSigners_Permutation.
    by rewrite <-(length_fmap signerAddr), Hpaired, length_fmap. }
  assert (∀ a, a ∈ queue ↔ a ∈ addr <$> take (Z.to_nat queueLength) tallySlice)
    as Hmembers.
  { intros a. rewrite <-Hpaired, <-(sortSigners_Permutation items).
    destruct (sortSigners items) as [|item rest] eqn:Hsorted.
    - exfalso. simpl in Hitems. rewrite length_take in Hitems.
      apply list_elem_of_lookup in Hx' as (i & Hi). apply lookup_lt_Some in Hi.
      unfold queueLength in Hitems.
      destruct (Z.ltb_spec (Z.of_nat (length tallySlice))
                  (params.MaxSignerCount (config s))); lia.
    - destruct (topStakeAddress _ _) as [queue'| | |] eqn:Htop; try done.
      injection Hqueue as <-.
      apply topStakeAddress_Ret in Htop as (_ & Hin & Hall).
      split; [apply Hin|]. apply Hall; [done|].
      rewrite Hitems, length_take. lia. }
  assert (y ∈ drop (Z.to_nat queueLength) tallySlice) as Hydrop.
  { rewrite <-(take_drop (Z.to_nat queueLength) tallySlice) in Hy'.
    apply elem_of_app in Hy' as [Hy'|Hy']; [|done].
    exfalso. apply Hyout, Hmembers. by apply list_elem_of_fmap_2. }
  assert (x ∈ take (Z.to_nat queueLength) tallySlice) as Hxtake.
  { apply Hmembers in Hxin. apply list_elem_of_fmap in Hxin as (x' & Haddr & Hin).
    assert (x' = x) as <-; [|done].
    assert (x' ∈ tallySlice) as Hin'.
    { rewrite <-(take_drop (Z.to_nat queueLength) tallySlice).
      apply elem_of_app. by left. }
    pose proof (buildTallySlice_NoDup s) as Hnodup.
    rewrite <-(sortTally_Permutation (buildTallySlice s)) in Hnodup.
    fold tallySlice in Hnodup.
    apply list_elem_of_lookup in Hin' as (i & Hi).
    apply list_elem_of_lookup in Hx' as (j & Hj).
    assert (i = j) as ->; [|congruence].
    apply (NoDup_lookup _ _ _ (addr x) Hnodup);
      rewrite list_lookup_fmap; [rewrite Hi | rewrite Hj]; simpl; congruence. }
  assert (tallyNotAfter x y) as Hnot.
  { apply (StronglySorted_app_1_elem_of tallyNotAfter
             (take (Z.to_nat queueLength) tallySlice)
             (drop (Z.to_nat queueLength) tallySlice)); [|done..].
    rewrite take_drop. apply Sorted_StronglySorted; [apply _|].
    apply sortTally_Sorted. }
  destruct (decide (x = y)) as [->|Hne].
  { exfalso. by apply Hyout. }
  apply itemLess_total in Hne as [?|?]; [done|].
  unfold tallyNotAfter in Hnot. congruence.
Qed.

End signer_queue_results.


Lemma createSignerQueue_members_witness :
  Z.of_nat (length [addrA; addrD; addrE]) = params.MaxSignerCount queueConfig
  ∧ ∀ a, a ∈ [addrA; addrD; addrE] →
      a ∈ [addrC]
      ∨ (if decide (u64_add (Number queueSnapshot) 1
                    mod u64_mul (params.MaxSignerCount queueConfig)
                          (LCRS queueSnapshot) = 0)
         then ∃ t, Tally queueSnapshot !! a = Some t ∧ 0 < t
         else a ∈ Signers queueSnapshot).
Proof.
  apply (createSignerQueue_members sortTallyExample sortSignersExample
           (merge_sort_Permutation _) (merge_sort_Permutation _)
           queueSnapshot [addrC] [addrA; addrD; addrE]).
  - split; [discriminate | reflexivity].
  - vm_compute. reflexivity.
Defined.

Lemma sortTally_range_order_witness :
  sortTallyExample
    (omap (tallyItemOf queueSnapshot)
       (reverse (map_to_list (Tally queueSnapshot))))
  = sortTallyExample (buildTallySlice queueSnapshot).
Proof.
  apply (sortTally_range_order sortTallyExample (merge_sort_Permutation _)
           (Sorted_merge_sort _) queueSnapshot).
  apply reverse_Permutation.
Defined.

Lemma createSignerQueue_top_stake_witness :
  itemLess (mkTallyItem addrD 200000) (mkTallyItem addrB 90000) = true.
Proof.
  apply (createSignerQueue_top_stake sortTallyExample sortSignersExample
           (merge_sort_Permutation _) (merge_sort_Permutation _)
           (Sorted_merge_sort _)
           queueSnapshot [addrC] [addrA; addrD; addrE]).
  - split; [discriminate | reflexivity].
  - reflexivity.
  - vm_compute. reflexivity.
  - vm_compute. repeat constructor.
  - vm_compute. repeat constructor.
  - apply list_elem_of_further, list_elem_of_here.
  - cbn [addr]. solve_not_elem.
Defined.

Section signer_queue_check.
Variable sortTally : list TallyItem → list TallyItem.
Variable sortSigners : list SignerItem → list SignerItem.

(** X10. [verifySignerQueue] accepts a queue exactly when the queue is not
    empty, has at most [int(MaxSignerCount)] entries and is the queue that
    [createSignerQueue] returns for the snapshot; the errors of
    [createSignerQueue] are passed on. *)
Theorem verifySignerQueue_accepts (s : Snapshot)
    (signerQueue mainSigners : list Address) :
  (verifySignerQueue sortTally sortSigners s signerQueue mainSigners = Ret ()
   ↔ Z.of_nat (length signerQueue) ≤ int64 (params.MaxSignerCount (config s))
     ∧ signerQueue ≠ []
     ∧ createSignerQueue sortTally sortSigners s mainSigners = Ret signerQueue)
  ∧ (∀ e, createSignerQueue sortTally sortSigners s mainSigners = Fail e →
       Z.of_nat (length signerQueue) ≤ int64 (params.MaxSignerCount (config s)) →
       verifySignerQueue sortTally sortSigners s signerQueue mainSigners = Fail e).
Proof.
  unfold verifySignerQueue. split.
  - destruct (Z.ltb_spec (int64 (params.MaxSignerCount (config s)))
                (Z.of_nat (length signerQueue))) as [Hlong|Hshort].
    { split; [done | lia]. }
    destruct (createSignerQueue sortTally sortSigners s mainSigners)
      as [sq|e| |]; simpl; try (split; [done | by intros (_ & _ & ?)]).
    destruct (bool_decide_reflect (length sq = 0%nat)) as [Hempty|Hempty]; simpl.
    { split; [done|]. intros (_ & Hne & [= ->]).
      by apply length_zero_iff_nil in Hempty. }
    destruct (bool_decide_reflect (length sq ≠ length signerQueue)); simpl.
    { split; [done|]. by intros (_ & _ & [= ->]). }
    destruct (bool_decide_reflect (signerQueue = sq)) as [->|Hne].
    + split; [|done]. intros _. split; [done|]. split; [|done].
      intros ->. by apply Hempty.
    + split; [done|]. intros (_ & _ & [= ->]). done.
  - intros e -> Hshort.
    by rewrite (proj2 (Z.ltb_ge _ _)) by lia.
Qed.

End signer_queue_check.

Lemma verifySignerQueue_accepts_witness :
  verifySignerQueue sortTallyExample sortSignersExample receiver [addrA] [addrA]
  = Fail errCreateSignerQueueNotAllowed.
Proof.
  apply (proj2 (verifySignerQueue_accepts sortTallyExample sortSignersExample
                  receiver [addrA] [addrA])).
  - vm_compute. reflexivity.
  - vm_compute. discriminate.
Defined.

(** ** The votes and the cancels of a snapshot fit together *)

Section consistency.
Variable growslice : nat → nat.

Lemma newSnapshot_consistent config hash votes lcrs now st st' s :
  newSnapshot growslice config hash votes lcrs now st = (st', Ret s) →
  snapshot_consistent s.
Proof.
  unfold newSnapshot. intros H.
  apply bindM_Ret in H as (st1 & snap & Hvotes & H).
  apply bindM_Ret in H as (st2 & signers & _ & H).
  apply retM_Ret in H as [-> _].
  change (snapshot_consistent snap).
  refine (proj1 (foldM_Ret_ind
                   (λ snap, snapshot_consistent snap ∧ Cancels snap = ∅
                            ∧ Cancelers snap = ∅) _ _ _ _ _ _ _ _ Hvotes)).
  - clear. intros b vote st st' b' (Hb & Hcancels & Hcancelers) Hstep.
    unfold newSnapshot_vote in Hstep.
    destruct (slice_append _ _ _ _) as [st1 sl]. injection Hstep as _ <-.
    destruct Hb as (Hvotes & _ & Hvoters & _ & _).
    unfold snapshot_consistent. simpl. rewrite Hcancels, Hcancelers.
    split; [|done].
    refine (conj _ (conj _ (conj _ (conj _ _)))).
    + by apply map_Forall_insert_2.
    + apply map_Forall_empty.
    + by rewrite !dom_insert_L, Hvoters.
    + done.
    + rewrite !dom_empty_L. apply empty_subseteq.
  - unfold snapshot_consistent. simpl. rewrite !dom_empty_L.
    split; [|done]. split; [apply map_Forall_empty|].
    split; [apply map_Forall_empty | done].
Qed.

Lemma copy_consistent s : snapshot_consistent s → snapshot_consistent (copy s).
Proof.
  intros (Hvotes & Hcancels & Hvoters & Hcancelers & Hsub).
  unfold snapshot_consistent. simpl.
  assert (dom (map_imap (λ canceler cancel,
                           Some (mkCancel canceler (Passive cancel)))
                 (Cancels s)) = dom (Cancels s)) as Hdom.
  { apply set_eq. intros k. rewrite !elem_of_dom, map_lookup_imap.
    destruct (Cancels s !! k); simpl; split; intros [? ?]; by eexists. }
  rewrite Hdom, dom_fmap_L.
  split; [|split; [|done]].
  - intros voter vote. rewrite lookup_fmap.
    destruct (Votes s !! voter) as [v|] eqn:Hv; [|done]. simpl.
    intros [= <-]. simpl. by apply Hvotes in Hv.
  - intros canceler cancel. rewrite map_lookup_imap.
    destruct (Cancels s !! canceler); [|done]. simpl. by intros [= <-].
Qed.

Lemma updateSnapshotByVotes_consistent s votes headerNumber st st' s' :
  snapshot_consistent s →
  updateSnapshotByVotes growslice s votes headerNumber st = (st', Ret s') →
  snapshot_consistent s'.
Proof.
  unfold updateSnapshotByVotes. apply (foldM_Ret_ind snapshot_consistent).
  clear. intros b vote st st' b' Hb Hstep.
  unfold updateSnapshotByVotes_step in Hstep.
  destruct (bool_decide (is_Some (Votes b !! Voter vote)));
    [by apply retM_Ret in Hstep as [-> _]|].
  destruct (negb (isCandidate b (Candidate vote))
            && negb (bool_decide (Candidate vote = Voter vote)));
    [by apply retM_Ret in Hstep as [-> _]|].
  apply bindM_Ret in Hstep as (st1 & tally & _ & Hstep).
  destruct (slice_append _ _ _ _) as [st2 sl]. injection Hstep as _ <-.
  destruct Hb as (Hvotes & Hcancels & Hvoters & Hcancelers & Hsub).
  unfold snapshot_consistent. simpl.
  refine (conj _ (conj _ (conj _ (conj _ _)))); try done.
  - by apply map_Forall_insert_2.
  - by rewrite !dom_insert_L, Hvoters.
  - rewrite dom_insert_L. intros k Hk. apply elem_of_union. right.
    by apply Hsub.
Qed.

Lemma updateSnapshotByCancels_consistent fuel s cancels headerNumber st st' s' :
  snapshot_consistent s →
  updateSnapshotByCancels fuel s cancels headerNumber st = (st', Ret s') →
  snapshot_consistent s'.
Proof.
  unfold updateSnapshotByCancels. intros Hs [= _ Hloop]. clear st'.
  revert cancels s Hs Hloop.
  induction fuel as [|fuel IH]; intros [|cancel rest] s Hs; simpl; try done.
  - by intros [= <-].
  - by intros [= <-].
  - destruct (bool_decide (is_Some (Cancels s !! Canceler cancel)));
      [by apply IH|].
    apply IH.
    destruct (Votes s !! Canceler cancel) as [vote|] eqn:Hvote; [|done].
    destruct (Tally s !! Candidate vote); [|done].
    destruct Hs as (Hvotes & Hcancels & Hvoters & Hcancelers & Hsub).
    unfold snapshot_consistent. simpl.
    refine (conj _ (conj _ (conj _ (conj _ _)))); try done.
    + by apply map_Forall_insert_2.
    + by rewrite !dom_insert_L, Hcancelers.
    + rewrite dom_insert_L. apply elem_of_dom_2 in Hvote.
      intros k Hk. apply elem_of_union in Hk as [Hk|Hk]; [|by apply Hsub].
      by apply elem_of_singleton in Hk as ->.
Qed.

Lemma removeExtraVotesAndCancel_step_consistent s entry st st' s' :
  snapshot_consistent s →
  removeExtraVotesAndCancel_step s entry st = (st', Ret s') →
  snapshot_consistent s'.
Proof.
  destruct entry as [canceler cancel]. intros Hs Hstep.
  unfold removeExtraVotesAndCancel_step in Hstep.
  apply bindM_Ret in Hstep as (st1 & elapsed & _ & Hstep).
  destruct elapsed; [|by apply retM_Ret in Hstep as [-> _]].
  apply bindM_Ret in Hstep as (st2 & s1 & Hs1 & Hstep).
  apply retM_Ret in Hstep as [-> _].
  assert (Votes s1 = Votes s ∧ Voters s1 = Voters s ∧ Cancels s1 = Cancels s
          ∧ Cancelers s1 = Cancelers s) as (Hv & Hvs & Hc & Hcs).
  { destruct (isCandidate s canceler).
    - by apply retM_Ret in Hs1 as [-> _].
    - destruct (Votes s !! canceler) as [vote|]; [|done].
      destruct (Candidates s !! Candidate vote) as [sl|];
        [|by apply retM_Ret in Hs1 as [-> _]].
      destruct (removeVoter_loop _ _ _ _ _) as [st3 sl']. by injection Hs1 as _ <-. }
  destruct Hs as (Hvotes & Hcancels & Hvoters & Hcancelers & Hsub).
  unfold snapshot_consistent. simpl. rewrite Hv, Hvs, Hc, Hcs.
  refine (conj _ (conj _ (conj _ (conj _ _)))).
  - by apply map_Forall_delete.
  - by apply map_Forall_delete.
  - by rewrite !dom_delete_L, Hvoters.
  - by rewrite !dom_delete_L, Hcancelers.
  - rewrite !dom_delete_L. intros k Hk.
    apply elem_of_difference in Hk as [Hk Hne]. apply elem_of_difference.
    split; [by apply Hsub | done].
Qed.

Lemma removeExtraVotesAndCancel_consistent s st st' s' :
  snapshot_consistent s →
  removeExtraVotesAndCancel s st = (st', Ret s') →
  snapshot_consistent s'.
Proof.
  unfold removeExtraVotesAndCancel. apply (foldM_Ret_ind snapshot_consistent).
  intros b entry st1 st2 b' Hb Hstep.
  by eapply removeExtraVotesAndCancel_step_consistent.
Qed.

Lemma applyHeader_consistent fuel s snap header st st' snap' :
  snapshot_consistent snap →
  applyHeader growslice fuel s snap header st = (st', Ret snap') →
  snapshot_consistent snap'.
Proof.
  unfold applyHeader. intros Hsnap H.
  apply bindM_Ret in H as (st1 & coinbase & _ & H).
  destruct (bool_decide (coinbase ≠ types.Coinbase header)); [done|].
  apply bindM_Ret in H as (st2 & headerExtra & _ & H).
  apply bindM_Ret in H as (st3 & historyHash & _ & H).
  apply bindM_Ret in H as (st4 & snap1 & Hvotes & H).
  apply bindM_Ret in H as (st5 & snap2 & Hcancels & H).
  apply updateSnapshotByVotes_consistent in Hvotes; [|exact Hsnap].
  apply updateSnapshotByCancels_consistent in Hcancels; [|exact Hvotes].
  by apply removeExtraVotesAndCancel_consistent in H.
Qed.

Lemma apply_consistent fuel s headers st st' s' :
  snapshot_consistent s →
  apply growslice fuel s headers st = (st', Ret s') →
  snapshot_consistent s'.
Proof.
  intros Hs. destruct headers as [|header headers].
  { intros H. by apply retM_Ret in H as [-> _]. }
  unfold apply.
  destruct (negb (consecutive (header :: headers))); [done|].
  destruct (decide _); [done|].
  intros H. apply bindM_Ret in H as (st1 & snap & Hloop & H).
  apply bindM_Ret in H as (st2 & [] & _ & H).
  apply retM_Ret in H as [-> _].
  change (snapshot_consistent snap).
  refine (foldM_Ret_ind snapshot_consistent _ _ _ _ _ _ _ _ Hloop).
  - intros b h st3 st4 b' Hb Hh. by eapply applyHeader_consistent.
  - by apply copy_consistent.
Qed.

End consistency.

Lemma reachable_snapshot_consistent growslice config s :
  reachable growslice config s → snapshot_consistent s.
Proof.
  induction 1 as [hash votes lcrs now st st' s Hnew
                 |fuel s headers st st' s' Hs IH Happly].
  - by eapply newSnapshot_consistent.
  - by eapply apply_consistent.
Qed.

(** X11. In every snapshot the engine can hold, a vote is filed under its
    voter, who has a block number in [Voters]; a cancel is filed under
    its canceler, who has a block number in [Cancelers] and a vote in
    [Votes]; and [Voters] and [Cancelers] hold no other address. *)
Theorem reachable_consistent (growslice : nat → nat)
    (config : params.AlienConfig) (s : Snapshot) :
  reachable growslice config s →
  (∀ voter vote, Votes s !! voter = Some vote →
     Voter vote = voter ∧ is_Some (Voters s !! voter))
  ∧ (∀ canceler cancel, Cancels s !! canceler = Some cancel →
       Canceler cancel = canceler ∧ is_Some (Cancelers s !! canceler)
       ∧ is_Some (Votes s !! canceler))
  ∧ (∀ voter, is_Some (Voters s !! voter) → is_Some (Votes s !! voter))
  ∧ (∀ canceler, is_Some (Cancelers s !! canceler) →
       is_Some (Cancels s !! canceler)).
Proof.
  intros Hs.
  apply reachable_snapshot_consistent in Hs
    as (Hvotes & Hcancels & Hvoters & Hcancelers & Hsub).
  split; [|split; [|split]].
  - intros voter vote Hvote. split; [by apply Hvotes in Hvote|].
    apply elem_of_dom. rewrite Hvoters. by apply elem_of_dom_2 in Hvote.
  - intros canceler cancel Hcancel. split; [by apply Hcancels in Hcancel|].
    apply elem_of_dom_2 in Hcancel. split.
    + apply elem_of_dom. by rewrite Hcancelers.
    + by apply elem_of_dom, Hsub.
  - intros voter. rewrite <-!elem_of_dom. by rewrite Hvoters.
  - intros canceler. rewrite <-!elem_of_dom. by rewrite Hcancelers.
Qed.

Lemma reachable_consistent_witness :
  (∀ voter vote, Votes receiver !! voter = Some vote →
     Voter vote = voter ∧ is_Some (Voters receiver !! voter))
  ∧ (∀ canceler cancel, Cancels receiver !! canceler = Some cancel →
       Canceler cancel = canceler ∧ is_Some (Cancelers receiver !! canceler)
       ∧ is_Some (Votes receiver !! canceler))
  ∧ (∀ voter, is_Some (Voters receiver !! voter) →
       is_Some (Votes receiver !! voter))
  ∧ (∀ canceler, is_Some (Cancelers receiver !! canceler) →
       is_Some (Cancels receiver !! canceler)).
Proof.
  exact (reachable_consistent growslice_double chainConfig receiver
           receiver_reachable).
Defined.


(** ** What only the header sets *)

Lemma same_header_fields_refl s : same_header_fields s s.
Proof. by repeat split. Qed.

Lemma same_header_fields_trans s1 s2 s3 :
  same_header_fields s1 s2 → same_header_fields s2 s3 →
  same_header_fields s1 s3.
Proof.
  intros (?&?&?&?&?&?&?&?) (?&?&?&?&?&?&?&?). repeat split; congruence.
Qed.

Section header_fields.
Variable growslice : nat → nat.

Lemma updateSnapshotByVotes_header_fields s votes headerNumber st st' s' :
  updateSnapshotByVotes growslice s votes headerNumber st = (st', Ret s') →
  same_header_fields s s'.
Proof.
  unfold updateSnapshotByVotes.
  apply (foldM_Ret_ind (same_header_fields s)); [|apply same_header_fields_refl].
  clear. intros b vote st st' b' Hb Hstep.
  eapply same_header_fields_trans; [done|]. clear Hb.
  unfold updateSnapshotByVotes_step in Hstep.
  destruct (bool_decide (is_Some (Votes b !! Voter vote)));
    [apply retM_Ret in Hstep as [-> _]; apply same_header_fields_refl|].
  destruct (negb (isCandidate b (Candidate vote))
            && negb (bool_decide (Candidate vote = Voter vote)));
    [apply retM_Ret in Hstep as [-> _]; apply same_header_fields_refl|].
  apply bindM_Ret in Hstep as (st1 & tally & _ & Hstep).
  destruct (slice_append _ _ _ _) as [st2 sl]. injection Hstep as _ <-.
  by repeat split.
Qed.

Lemma updateSnapshotByCancels_header_fields fuel s cancels headerNumber st st' s' :
  updateSnapshotByCancels fuel s cancels headerNumber st = (st', Ret s') →
  same_header_fields s s'.
Proof.
  unfold updateSnapshotByCancels. intros [= _ Hloop]. clear st'.
  revert cancels s Hloop.
  induction fuel as [|fuel IH]; intros [|cancel rest] s; simpl; try done.
  - intros [= <-]. apply same_header_fields_refl.
  - intros [= <-]. apply same_header_fields_refl.
  - destruct (bool_decide (is_Some (Cancels s !! Canceler cancel))); [by apply IH|].
    intros Hloop. apply IH in Hloop.
    eapply same_header_fields_trans; [|done].
    destruct (Votes s !! Canceler cancel) as [vote|];
      [|apply same_header_fields_refl].
    destruct (Tally s !! Candidate vote); [|apply same_header_fields_refl].
    by repeat split.
Qed.

Lemma removeExtraVotesAndCancel_header_fields s st st' s' :
  removeExtraVotesAndCancel s st = (st', Ret s') → same_header_fields s s'.
Proof.
  unfold removeExtraVotesAndCancel.
  apply (foldM_Ret_ind (same_header_fields s)); [|apply same_header_fields_refl].
  clear. intros b [canceler cancel] st st' b' Hb Hstep.
  eapply same_header_fields_trans; [done|]. clear Hb.
  unfold removeExtraVotesAndCancel_step in Hstep.
  apply bindM_Ret in Hstep as (st1 & elapsed & _ & Hstep).
  destruct elapsed;
    [|apply retM_Ret in Hstep as [-> _]; apply same_header_fields_refl].
  apply bindM_Ret in Hstep as (st2 & s1 & Hs1 & Hstep).
  apply retM_Ret in Hstep as [-> _].
  assert (same_header_fields b s1) as (?&?&?&?&?&?&?&?).
  { destruct (isCandidate b canceler).
    - apply retM_Ret in Hs1 as [-> _]. by repeat split.
    - destruct (Votes b !! canceler) as [vote|]; [|done].
      destruct (Candidates b !! Candidate vote) as [sl|];
        [|apply retM_Ret in Hs1 as [-> _]; apply same_header_fields_refl].
      destruct (removeVoter_loop _ _ _ _ _) as [st3 sl']. injection Hs1 as _ <-.
      by repeat split. }
  by repeat split.
Qed.

(** What one header leaves in the fields that only the header sets. *)
Lemma applyHeader_header_fields fuel s snap header st st' snap' :
  applyHeader growslice fuel s snap header st = (st', Ret snap') →
  ∃ headerExtra,
    types.ecrecover header = Ret (types.Coinbase header)
    ∧ types.Extra header = Ret headerExtra
    ∧ Confirmations snap'
      = foldl addConfirmation (Confirmations snap)
          (CurrentBlockConfirmations headerExtra)
    ∧ Signers snap' = SignerQueue headerExtra
    ∧ HeaderTime snap' = Uint64 (types.Time header)
    ∧ LoopStartTime snap' = ExtraLoopStartTime headerExtra
    ∧ ConfirmedNumber snap' = ConfirmedBlockNumber headerExtra
    ∧ LCRS snap' = LCRS snap ∧ alien.Period snap' = alien.Period snap.
Proof.
  unfold applyHeader. intros H.
  apply bindM_Ret in H as (st1 & coinbase & Hcoinbase & H).
  apply liftM_Ret in Hcoinbase as [Hcoinbase _].
  destruct (bool_decide_reflect (coinbase ≠ types.Coinbase header)) as [|Heq];
    [done|].
  apply dec_stable in Heq. subst coinbase.
  apply bindM_Ret in H as (st2 & headerExtra & Hextra & H).
  apply liftM_Ret in Hextra as [Hextra _].
  apply bindM_Ret in H as (st3 & historyHash & _ & H).
  apply bindM_Ret in H as (st4 & snap1 & Hvotes & H).
  apply bindM_Ret in H as (st5 & snap2 & Hcancels & H).
  apply updateSnapshotByVotes_header_fields in Hvotes
    as (Hc1&Hs1&Ht1&Hl1&Hn1&Hr1&Hp1&_).
  apply updateSnapshotByCancels_header_fields in Hcancels
    as (Hc2&Hs2&Ht2&Hl2&Hn2&Hr2&Hp2&_).
  apply removeExtraVotesAndCancel_header_fields in H
    as (Hc3&Hs3&Ht3&Hl3&Hn3&Hr3&Hp3&_).
  simpl in *. exists headerExtra.
  repeat split; congruence.
Qed.

End header_fields.

Section apply_results.
Variable growslice : nat → nat.

Lemma apply_loop_config fuel s headers snap st st' snap' :
  foldM (applyHeader growslice fuel s) headers snap st = (st', Ret snap') →
  config snap' = config snap ∧ Number snap' = Number snap.
Proof.
  apply (foldM_Ret_ind (λ b, config b = config snap ∧ Number b = Number snap));
    [|done].
  intros b header st1 st2 b' [Hc Hn] Hheader.
  apply applyHeader_Ret in Hheader as (? & ? & _). split; congruence.
Qed.

Lemma apply_loop_header_fields fuel s header headers snap st st' snap' :
  foldM (applyHeader growslice fuel s) (header :: headers) snap st
  = (st', Ret snap') →
  ∃ headerExtra,
    types.Extra (List.last headers header) = Ret headerExtra
    ∧ Signers snap' = SignerQueue headerExtra
    ∧ HeaderTime snap' = Uint64 (types.Time (List.last headers header))
    ∧ LoopStartTime snap' = ExtraLoopStartTime headerExtra
    ∧ ConfirmedNumber snap' = ConfirmedBlockNumber headerExtra
    ∧ LCRS snap' = LCRS snap ∧ alien.Period snap' = alien.Period snap.
Proof.
  revert header snap st.
  induction headers as [|header' headers IH]; intros header snap st H.
  - cbn [foldM] in H. apply bindM_Ret in H as (st1 & snap1 & Hheader & H).
    apply retM_Ret in H as [-> _].
    apply applyHeader_header_fields in Hheader
      as (headerExtra & _ & ? & _ & ? & ? & ? & ? & ? & ?).
    by exists headerExtra.
  - change (foldM (applyHeader growslice fuel s) (header :: header' :: headers)
              snap st)
      with (bindM (applyHeader growslice fuel s snap header)
              (λ b, foldM (applyHeader growslice fuel s) (header' :: headers) b)
              st) in H.
    apply bindM_Ret in H as (st1 & snap1 & Hheader & H).
    apply applyHeader_header_fields in Hheader
      as (_ & _ & _ & _ & _ & _ & _ & _ & Hl & Hp).
    apply IH in H as (headerExtra & ? & ? & ? & ? & ? & ? & ?).
    exists headerExtra. rewrite last_cons_default.
    repeat split; congruence.
Qed.

(** X12. After [apply] the snapshot carries the number and the hash of the last
    header, its time, and the signer queue, the loop start time and the
    confirmed number of its extra data; the configuration, the loop count
    and the period are those of the receiver. *)
Theorem apply_last_header (fuel : nat) (s : Snapshot) (header : types.Header)
    (headers : list types.Header) (st st' : store) (s' : Snapshot) :
  apply growslice fuel s (header :: headers) st = (st', Ret s') →
  ∃ headerExtra,
    types.Extra (List.last headers header) = Ret headerExtra
    ∧ Number s' = u64_add (Number s) (Z.of_nat (S (length headers)))
    ∧ alien.Hash s' = types.Hash (List.last headers header)
    ∧ HeaderTime s' = Uint64 (types.Time (List.last headers header))
    ∧ Signers s' = SignerQueue headerExtra
    ∧ LoopStartTime s' = ExtraLoopStartTime headerExtra
    ∧ ConfirmedNumber s' = ConfirmedBlockNumber headerExtra
    ∧ config s' = config s ∧ LCRS s' = LCRS s
    ∧ alien.Period s' = alien.Period s.
Proof.
  unfold apply.
  destruct (negb (consecutive (header :: headers))); [done|].
  destruct (decide _); [done|].
  intros H. apply bindM_Ret in H as (st1 & snap & Hloop & H).
  apply bindM_Ret in H as (st2 & [] & _ & H).
  apply retM_Ret in H as [-> _].
  pose proof (apply_loop_config _ _ _ _ _ _ _ Hloop) as [Hconfig Hnumber].
  apply apply_loop_header_fields in Hloop
    as (headerExtra & ? & ? & ? & ? & ? & Hlcrs & Hperiod).
  simpl in Hconfig, Hnumber, Hlcrs, Hperiod.
  exists headerExtra. cbn -[List.last u64_add Z.of_nat].
  rewrite last_cons_default, Hnumber.
  repeat split; congruence.
Qed.

Lemma newSnapshot_confirmations config hash votes lcrs now st st' s :
  newSnapshot growslice config hash votes lcrs now st = (st', Ret s) →
  Confirmations s = ∅.
Proof.
  unfold newSnapshot. intros H.
  apply bindM_Ret in H as (st1 & snap & Hvotes & H).
  apply bindM_Ret in H as (st2 & signers & _ & H).
  apply retM_Ret in H as [-> _]. simpl.
  revert Hvotes.
  apply (foldM_Ret_ind (λ snap, Confirmations snap = ∅)); [|done].
  clear. intros b vote st st' b' Hb Hstep.
  unfold newSnapshot_vote in Hstep.
  destruct (slice_append _ _ _ _) as [st1 sl]. by injection Hstep as _ <-.
Qed.

Lemma apply_confirmations fuel s headers st st' s' :
  confirmers_unique (Confirmations s) ∧ confirmations_recent s →
  apply growslice fuel s headers st = (st', Ret s') →
  confirmers_unique (Confirmations s') ∧ confirmations_recent s'.
Proof.
  intros Hs. destruct headers as [|header headers].
  { intros H. by apply retM_Ret in H as [-> _]. }
  unfold apply.
  destruct (negb (consecutive (header :: headers))); [done|].
  destruct (decide _); [done|].
  intros H. apply bindM_Ret in H as (st1 & snap & Hloop & H).
  apply bindM_Ret in H as (st2 & [] & _ & H).
  apply retM_Ret in H as [-> _].
  assert (confirmers_unique (Confirmations snap)) as Hunique.
  { refine (foldM_Ret_ind (λ b, confirmers_unique (Confirmations b))
              _ _ _ _ _ _ _ _ Hloop); [|exact (proj1 Hs)].
    intros b h st3 st4 b' Hb Hh.
    apply applyHeader_header_fields in Hh as (headerExtra & _ & _ & -> & _).
    by apply foldl_addConfirmation_unique. }
  split.
  - intros blockNumber confirmers Hlookup. simpl in Hlookup.
    apply map_lookup_filter_Some in Hlookup as [Hlookup _].
    by apply Hunique in Hlookup.
  - intros blockNumber confirmers Hlookup. simpl in *.
    apply map_lookup_filter_Some in Hlookup as [_ Hrecent]. simpl in Hrecent.
    lia.
Qed.

End apply_results.

Lemma reachable_config growslice config s :
  reachable growslice config s → alien.config s = config.
Proof.
  induction 1 as [hash votes lcrs now st st' s Hnew
                 |fuel s headers st st' s' Hs IH Happly].
  - by apply newSnapshot_history in Hnew as (-> & _).
  - destruct headers as [|header headers].
    { by apply retM_Ret in Happly as [-> _]. }
    apply apply_Ret in Happly as (st1 & snap & Hloop & -> & _).
    by apply apply_loop_config in Hloop as [-> _].
Qed.

Lemma reachable_confirmers_unique growslice config s :
  reachable growslice config s →
  confirmers_unique (Confirmations s) ∧ confirmations_recent s.
Proof.
  induction 1 as [hash votes lcrs now st st' s Hnew
                 |fuel s headers st st' s' Hs IH Happly].
  - apply newSnapshot_confirmations in Hnew.
    unfold confirmers_unique, confirmations_recent. rewrite Hnew.
    split; apply map_Forall_empty.
  - by eapply apply_confirmations.
Qed.

(** X13. In every snapshot the engine can hold no signer is listed twice for a
    block, and no confirmation is for a block more than [MaxSignerCount]
    below the number of the snapshot, in [uint64] arithmetic. *)
Theorem reachable_confirmations (growslice : nat → nat)
    (config : params.AlienConfig) (s : Snapshot)
    (blockNumber : Z) (confirmers : list Address) :
  reachable growslice config s →
  Confirmations s !! blockNumber = Some confirmers →
  NoDup confirmers
  ∧ u64_sub (Number s) blockNumber ≤ params.MaxSignerCount config.
Proof.
  intros Hs Hlookup.
  pose proof (reachable_config _ _ _ Hs) as Hconfig.
  apply reachable_confirmers_unique in Hs as [Hunique Hrecent].
  split; [by apply Hunique in Hlookup|].
  apply Hrecent in Hlookup. simpl in Hlookup. by rewrite Hconfig in Hlookup.
Qed.

(** X14. On a snapshot the engine can hold, the unfreeze loop of [Finalize]
    returns whenever the period is not zero, and it leaves the balance of
    every address without a cancel as it was. *)
Theorem unfreeze_reachable (growslice : nat → nat)
    (config : params.AlienConfig) (s : Snapshot) (number : Z)
    (state : StateDB) :
  reachable growslice config s →
  params.Period config ≠ 0 →
  ∃ state',
    unfreeze s number state = Ret state'
    ∧ ∀ x, Cancels s !! x = None → GetBalance state' x = GetBalance state x.
Proof.
  intros Hs Hperiod.
  pose proof (reachable_config _ _ _ Hs) as Hconfig.
  apply reachable_snapshot_consistent in Hs
    as (_ & Hcancels & _ & Hcancelers & _).
  destruct (unfreeze_foldl s number (map_to_list (Cancels s)))
    with (state := state) as (state' & Hfold & Hout & _).
  - by rewrite Hconfig.
  - intros k c Hkc. apply elem_of_map_to_list in Hkc.
    split; [by apply Hcancels in Hkc|].
    apply elem_of_dom. rewrite Hcancelers. by apply elem_of_dom_2 in Hkc.
  - apply NoDup_fst_map_to_list.
  - exists state'. split; [done|]. intros x Hx. apply Hout.
    intros Hin. apply list_elem_of_fmap in Hin as ([k c] & -> & Hkc).
    apply elem_of_map_to_list in Hkc. simpl in Hx. congruence.
Qed.

(** ** A vote for a candidate without a tally *)

Section vote_panic.
Variable growslice : nat → nat.

Lemma bindM_Panic {A B} (m : M A) (k : A → M B) st st' :
  m st = (st', Panic) → bindM m k st = (st', Panic).
Proof. unfold bindM. by intros ->. Qed.

Lemma updateSnapshotByVotes_untallied s vote votes headerNumber st :
  Votes s !! Voter vote = None →
  is_Some (Candidates s !! Candidate vote) →
  Tally s !! Candidate vote = None →
  updateSnapshotByVotes growslice s (vote :: votes) headerNumber st = (st, Panic).
Proof.
  intros Hvote Hcandidate Htally. unfold updateSnapshotByVotes. cbn [foldM].
  apply bindM_Panic. unfold updateSnapshotByVotes_step, isCandidate.
  rewrite bool_decide_eq_false_2 by (rewrite Hvote; by intros [? ?]).
  rewrite (bool_decide_eq_true_2 _ Hcandidate). cbn [negb andb].
  apply bindM_Panic. by rewrite Htally.
Qed.

(** X15. [apply] panics on a block with a vote of a new voter for a candidate
    that has no tally: [updateSnapshotByVotes] adds the stake to the
    big integer of the tally, which is nil. *)
Theorem apply_vote_for_untallied_candidate (fuel : nat) (s : Snapshot)
    (header : types.Header) (headers : list types.Header)
    (headerExtra : HeaderExtra) (vote : Vote) (votes : list Vote) (st : store) :
  consecutive (header :: headers) = true →
  Uint64 (types.Number header) = u64_add (Number s) 1 →
  types.ecrecover header = Ret (types.Coinbase header) →
  types.Extra header = Ret headerExtra →
  CurrentBlockVotes headerExtra = vote :: votes →
  0 < params.MaxSignerCount (config s) < 2 ^ 62 →
  Votes s !! Voter vote = None →
  is_Some (Candidates s !! Candidate vote) →
  Tally s !! Candidate vote = None →
  apply growslice fuel s (header :: headers) st = (st, Panic).
Proof.
  intros Hconsecutive Hnumber Hseal Hextra Hvotes HM Hvote Hcandidate Htally.
  unfold apply. rewrite Hconsecutive. cbn [negb].
  rewrite decide_False by (by intros ?).
  apply bindM_Panic. cbn [foldM]. apply bindM_Panic.
  unfold applyHeader. unfold bindM at 1. unfold liftM at 1. rewrite Hseal.
  rewrite bool_decide_eq_false_2 by (by intros ?).
  unfold bindM at 1. unfold liftM at 1. rewrite Hextra.
  unfold bindM at 1. unfold liftM at 1.
  assert (∀ history, ∃ historyHash,
            appendHistory (params.MaxSignerCount (config s))
              history (types.Hash header) = Ret historyHash)
    as Hhistory.
  { intros history. unfold appendHistory.
    rewrite (int64_small (params.MaxSignerCount (config s))) by lia.
    rewrite int64_small by lia.
    destruct (_ <=? Z.of_nat _); [|by eexists].
    rewrite (proj2 (Z.leb_le 1 _)) by lia. by eexists. }
  match goal with
  | |- context [appendHistory _ ?history _] =>
      destruct (Hhistory history) as [historyHash ->]
  end.
  apply bindM_Panic. rewrite Hvotes.
  apply updateSnapshotByVotes_untallied; simpl.
  - by rewrite lookup_fmap, Hvote.
  - done.
  - done.
Qed.

End vote_panic.

Lemma cancelledResult_Ret :
  cancelledResult = (cancelledStore, Ret cancelledSnapshot).
Proof. vm_compute. reflexivity. Qed.

Lemma cancelledSnapshot_reachable :
  reachable growslice_double chainConfig cancelledSnapshot.
Proof.
  eapply reachable_apply; [|exact cancelledResult_Ret].
  eapply reachable_genesis. exact genesis_Ret.
Qed.

Lemma apply_vote_for_untallied_candidate_witness :
  reachable growslice_double chainConfig cancelledSnapshot
  ∧ apply growslice_double 4 cancelledSnapshot [block 2 [voteD] [] []]
      cancelledStore
    = (cancelledStore, Panic).
Proof.
  split; [exact cancelledSnapshot_reachable|].
  apply (apply_vote_for_untallied_candidate growslice_double 4 cancelledSnapshot
           (block 2 [voteD] [] []) []
           (mkHeaderExtra [] [voteD] [] 1000 [addrA; addrB] [] 0) voteD []).
  - reflexivity.
  - vm_compute. reflexivity.
  - reflexivity.
  - reflexivity.
  - reflexivity.
  - split; reflexivity.
  - vm_compute. reflexivity.
  - vm_compute. by eexists.
  - vm_compute. reflexivity.
Defined.

Lemma apply_last_header_witness :
  ∃ headerExtra,
    types.Extra (block 1 [] [mkCancel addrA false] []) = Ret headerExtra
    ∧ Number cancelledSnapshot = u64_add (Number genesisSnapshot) 1
    ∧ alien.Hash cancelledSnapshot
      = types.Hash (block 1 [] [mkCancel addrA false] [])
    ∧ HeaderTime cancelledSnapshot
      = Uint64 (types.Time (block 1 [] [mkCancel addrA false] []))
    ∧ Signers cancelledSnapshot = SignerQueue headerExtra
    ∧ LoopStartTime cancelledSnapshot = ExtraLoopStartTime headerExtra
    ∧ ConfirmedNumber cancelledSnapshot = ConfirmedBlockNumber headerExtra
    ∧ config cancelledSnapshot = config genesisSnapshot
    ∧ LCRS cancelledSnapshot = LCRS genesisSnapshot
    ∧ alien.Period cancelledSnapshot = alien.Period genesisSnapshot.
Proof.
  exact (apply_last_header growslice_double 4 genesisSnapshot
           (block 1 [] [mkCancel addrA false] []) [] genesisStore
           cancelledStore cancelledSnapshot cancelledResult_Ret).
Defined.

Lemma unfreeze_reachable_witness :
  ∃ state',
    unfreeze receiver 6 {[addrD := 7]} = Ret state'
    ∧ ∀ x, Cancels receiver !! x = None →
        GetBalance state' x = GetBalance ({[addrD := 7]} : StateDB) x.
Proof.
  apply (unfreeze_reachable growslice_double chainConfig receiver 6
           {[addrD := 7]} receiver_reachable).
  discriminate.
Defined.

(** ** The last confirmed block on the snapshots of the engine *)

Lemma firstConfirmed_range confirmations quorum k n :
  n - Z.of_nat k ≤ firstConfirmed confirmations quorum (S k) n ≤ n.
Proof.
  revert n. induction k as [|k IH]; intros n.
  - cbn [firstConfirmed]. destruct (_ <? _); lia.
  - change (firstConfirmed confirmations quorum (S (S k)) n)
      with (if quorum <? Z.of_nat (distinctSigners confirmations n) then n
            else firstConfirmed confirmations quorum (S k) (n - 1)).
    destruct (_ <? _); [lia|]. specialize (IH (n - 1)). lia.
Qed.

(** X16. On a snapshot the engine can hold, from block [quorum - 1] on,
    [getLastConfirmedBlockNumber] is the walk over the [quorum] heights from
    the number of the snapshot down, with [quorum = MaxSignerCount*2/3]: the
    first height that more than [quorum] distinct signers confirmed, and
    the lowest height of the walk when there is none. *)
Theorem getLastConfirmedBlockNumber_reachable (growslice : nat → nat)
    (config : params.AlienConfig) (s : Snapshot) (pending : list Confirmation) :
  let quorum := params.MaxSignerCount config * 2 / 3 in
  reachable growslice config s →
  2 ≤ params.MaxSignerCount config < 2 ^ 62 →
  quorum - 1 ≤ Number s < 2 ^ 63 →
  getLastConfirmedBlockNumber s pending
  = firstConfirmed (foldl addConfirmation (Confirmations s) pending) quorum
      (Z.to_nat quorum) (Number s).
Proof.
  intros quorum Hs HM HN.
  pose proof (reachable_config _ _ _ Hs) as Hconfig.
  apply reachable_confirmers_unique in Hs as [Hunique _].
  assert (1 ≤ quorum < 2 ^ 62) as Hquorum.
  { unfold quorum. split.
    - apply Z.div_le_lower_bound; lia.
    - apply Z.div_lt_upper_bound; lia. }
  unfold getLastConfirmedBlockNumber. rewrite Hconfig.
  assert (u64_mul (params.MaxSignerCount config) 2 / 3 = quorum) as ->.
  { unfold u64_mul. rewrite u64_small by (unfold two64; lia). done. }
  rewrite (int64_small quorum) by lia.
  assert (Number s - u64_add (u64_sub (Number s) quorum) 1 = quorum - 1) as ->.
  { destruct (decide (Number s = quorum - 1)) as [Heq|Hne].
    - rewrite u64_sub_underflow by (unfold two64; lia).
      unfold u64_add.
      replace (two64 - (quorum - Number s) + 1) with (1 * two64) by lia.
      unfold u64. rewrite Z.mod_mul by (unfold two64; lia). lia.
    - rewrite u64_sub_exact by (unfold two64; lia).
      unfold u64_add. rewrite u64_small by (unfold two64; lia). lia. }
  rewrite confirmed_loop_firstConfirmed
    by (lia || by apply foldl_addConfirmation_unique).
  replace (S (Z.to_nat (quorum - 1))) with (Z.to_nat quorum) by lia.
  apply int64_small.
  pose proof (firstConfirmed_range
                (foldl addConfirmation (Confirmations s) pending) quorum
                (Z.to_nat (quorum - 1)) (Number s)) as Hrange.
  replace (S (Z.to_nat (quorum - 1))) with (Z.to_nat quorum) in Hrange by lia.
  lia.
Qed.

Lemma getLastConfirmedBlockNumber_reachable_witness :
  getLastConfirmedBlockNumber missedSnapshot (confirmBlock 100)
  = firstConfirmed
      (foldl addConfirmation (Confirmations missedSnapshot) (confirmBlock 100))
      (params.MaxSignerCount chainConfig * 2 / 3)
      (Z.to_nat (params.MaxSignerCount chainConfig * 2 / 3))
      (Number missedSnapshot).
Proof.
  apply (getLastConfirmedBlockNumber_reachable growslice_double chainConfig
           missedSnapshot (confirmBlock 100) missedSnapshot_reachable).
  - split; [discriminate | reflexivity].
  - split; [vm_compute; discriminate | vm_compute; reflexivity].
Defined.

(** ** Sums over maps *)

Lemma map_sum_empty : map_sum ∅ = 0.
Proof. unfold map_sum. by rewrite map_fold_empty. Qed.

Lemma map_sum_insert (m : gmap Address Z) k v :
  m !! k = None → map_sum (<[k := v]> m) = v + map_sum m.
Proof.
  intros Hk. unfold map_sum. rewrite map_fold_insert_L; [done| |done].
  intros. lia.
Qed.

Lemma map_sum_delete (m : gmap Address Z) k v :
  m !! k = Some v → map_sum m = v + map_sum (delete k m).
Proof.
  intros Hk. rewrite <-(insert_delete_id m k v) at 1 by done.
  apply map_sum_insert, lookup_delete_eq.
Qed.

Lemma map_sum_nonneg (m : gmap Address Z) :
  map_Forall (λ _ v, 0 ≤ v) m → 0 ≤ map_sum m.
Proof.
  induction m as [|k v m Hk IH] using map_ind; intros Hm.
  - by rewrite map_sum_empty.
  - rewrite map_sum_insert by done.
    apply map_Forall_insert in Hm as [? ?]; [|done].
    specialize (IH ltac:(done)). lia.
Qed.

(** The shares of [votersReward] by stake: the rounding loses less than
    one unit a share. *)
Lemma map_sum_shares (m : gmap Address Z) (reward total : Z) :
  0 < total → 0 ≤ reward →
  map_Forall (λ _ v, 0 ≤ v) m →
  map_sum ((λ v, v * reward / total) <$> m) * total ≤ map_sum m * reward
  ∧ map_sum m * reward
    ≤ map_sum ((λ v, v * reward / total) <$> m) * total
      + Z.of_nat (size m) * (total - 1)
  ∧ map_Forall (λ _ v, 0 ≤ v) ((λ v, v * reward / total) <$> m).
Proof.
  intros Htotal Hreward.
  induction m as [|k v m Hk IH] using map_ind; intros Hm.
  - rewrite fmap_empty, map_sum_empty, map_size_empty.
    split; [lia|]. split; [lia | apply map_Forall_empty].
  - apply map_Forall_insert in Hm as [Hv Hm]; [|done].
    destruct (IH Hm) as (IH1 & IH2 & IH3).
    rewrite fmap_insert, !map_sum_insert, map_size_insert_None
      by (done || by rewrite lookup_fmap, Hk).
    pose proof (Z.div_mod (v * reward) total ltac:(lia)) as Hdiv.
    pose proof (Z.mod_pos_bound (v * reward) total Htotal) as Hmod.
    split; [nia|]. split; [nia|].
    apply map_Forall_insert_2; [|done].
    apply Z.div_pos; nia.
Qed.

(** ** The rewards of the voters *)

Lemma rewardedStakes_lookup s coinbase voter stake :
  rewardedStakes s coinbase !! voter = Some stake ↔
  ∃ vote, Votes s !! voter = Some vote ∧ Stake vote = stake
          ∧ Candidate vote = coinbase
          ∧ (1507109 ≤ Number s → Cancelers s !! voter = None).
Proof.
  unfold rewardedStakes. rewrite lookup_fmap, fmap_Some. split.
  - intros (vote & Hvote & ->).
    apply map_lookup_filter_Some in Hvote as [Hvote [Hc Hn]]. by exists vote.
  - intros (vote & Hvote & <- & Hc & Hn). exists vote. split; [|done].
    by apply map_lookup_filter_Some.
Qed.

Lemma calculateReward_Ret s coinbase votersReward rewards :
  0 ≤ votersReward →
  map_Forall (λ _ vote, 0 ≤ Stake vote) (Votes s) →
  calculateReward s coinbase votersReward = Ret rewards →
  (∀ voter, is_Some (rewards !! voter) ↔
     ∃ vote, Votes s !! voter = Some vote ∧ Candidate vote = coinbase
             ∧ (1507109 ≤ Number s → Cancelers s !! voter = None))
  ∧ map_Forall (λ _ reward, 0 ≤ reward) rewards
  ∧ map_sum rewards ≤ votersReward
  ∧ (rewards ≠ ∅ →
     votersReward - Z.of_nat (size rewards) < map_sum rewards).
Proof.
  intros Hreward Hstakes. unfold calculateReward.
  assert (map_Forall (λ _ stake, 0 ≤ stake) (rewardedStakes s coinbase))
    as Hnonneg.
  { intros voter stake Hstake.
    apply rewardedStakes_lookup in Hstake as (vote & Hvote & <- & _).
    by apply Hstakes in Hvote. }
  assert (∀ voter, is_Some (rewardedStakes s coinbase !! voter) ↔
            ∃ vote, Votes s !! voter = Some vote ∧ Candidate vote = coinbase
                    ∧ (1507109 ≤ Number s → Cancelers s !! voter = None))
    as Hwho.
  { intros voter. split.
    - intros [stake Hstake].
      apply rewardedStakes_lookup in Hstake as (vote & ? & _ & ? & ?).
      by exists vote.
    - intros (vote & ? & ? & ?). exists (Stake vote).
      apply rewardedStakes_lookup. by exists vote. }
  pose proof (map_sum_nonneg _ Hnonneg) as Hsum.
  revert Hnonneg Hwho Hsum. generalize (rewardedStakes s coinbase).
  intros stakes Hnonneg Hwho Hsum.
  destruct (decide (stakes = ∅)) as [->|Hne].
  { intros [= <-]. split; [|split; [|split]].
    - intros voter. rewrite <-Hwho. done.
    - apply map_Forall_empty.
    - by rewrite map_sum_empty.
    - done. }
  destruct (decide (map_sum stakes = 0)) as [|Hpos]; [done|].
  rewrite (proj2 (Z.ltb_lt 0 (map_sum stakes))) by lia.
  intros [= <-].
  destruct (map_sum_shares stakes votersReward (map_sum stakes))
    as (Hle & Hge & Hshares); [lia | done | done |].
  split; [|split; [done|split]].
  - intros voter. rewrite <-Hwho, lookup_fmap. apply fmap_is_Some.
  - nia.
  - intros _. rewrite map_size_fmap.
    assert (0 < size stakes)%nat.
    { destruct (decide (size stakes = 0%nat)) as [Hsize|]; [|lia].
      by apply map_size_empty_iff in Hsize. }
    nia.
Qed.

(** X17. [calculateReward] pays the voters of the coinbase, from block 1507109
    on only those that are not cancelling. With stakes that are not
    negative, no share is negative, the shares add up to at most
    [votersReward], and less than one unit a voter is left over. With
    voters whose stakes add up to zero the division panics. *)
Theorem calculateReward_shares (s : Snapshot) (coinbase : Address)
    (votersReward : Z) :
  0 ≤ votersReward →
  map_Forall (λ _ vote, 0 ≤ Stake vote) (Votes s) →
  (rewardedStakes s coinbase ≠ ∅ ∧ map_sum (rewardedStakes s coinbase) = 0 →
   calculateReward s coinbase votersReward = Panic)
  ∧ ∀ rewards,
      calculateReward s coinbase votersReward = Ret rewards →
      (∀ voter, is_Some (rewards !! voter) ↔
         ∃ vote, Votes s !! voter = Some vote ∧ Candidate vote = coinbase
                 ∧ (1507109 ≤ Number s → Cancelers s !! voter = None))
      ∧ map_Forall (λ _ reward, 0 ≤ reward) rewards
      ∧ map_sum rewards ≤ votersReward
      ∧ (rewards ≠ ∅ →
         votersReward - Z.of_nat (size rewards) < map_sum rewards).
Proof.
  intros Hreward Hstakes. split.
  - intros [Hne Hzero]. unfold calculateReward.
    rewrite decide_False by done. by rewrite decide_True.
  - intros rewards. by apply calculateReward_Ret.
Qed.

Lemma rewardSnapshot_stakes :
  map_Forall (λ _ vote, 0 ≤ Stake vote) (Votes rewardSnapshot).
Proof. apply (bool_decide_unpack _). vm_compute. exact I. Qed.

Lemma calculateReward_shares_witness :
  map_sum ({[addrA := 490; addrE := 9]} : gmap Address Z) ≤ 500.
Proof.
  apply (proj2 (calculateReward_shares rewardSnapshot addrA 500
                  ltac:(discriminate) rewardSnapshot_stakes)
           {[addrA := 490; addrE := 9]}).
  vm_compute. reflexivity.
Defined.

(** ** The block reward *)

Lemma map_sum_AddBalance (state : StateDB) a amount :
  map_sum (AddBalance state a amount) = map_sum state + amount.
Proof.
  unfold AddBalance, GetBalance. destruct (state !! a) as [v|] eqn:Hv; simpl.
  - rewrite <-insert_delete_eq, map_sum_insert by apply lookup_delete_eq.
    rewrite (map_sum_delete state a v) by done. lia.
  - rewrite map_sum_insert by done. lia.
Qed.

Lemma map_sum_credit (rewards : gmap Address Z) (state : StateDB) :
  map_sum (foldl (λ state entry, AddBalance state entry.1 entry.2) state
             (map_to_list rewards))
  = map_sum state + map_sum rewards.
Proof.
  unfold map_sum at 3. rewrite map_fold_foldr.
  revert state. induction (map_to_list rewards) as [|[k v] l IH]; intros state.
  - simpl. lia.
  - cbn [foldl foldr]. rewrite IH, map_sum_AddBalance. simpl. lia.
Qed.

(** X18. [accumulateRewards] adds no more than the block reward of the year to
    the balances, all of them together: on a side chain the whole reward,
    to the coinbase; on the main chain 618 thousandths to the coinbase and
    the shares of the voters, which add up to no more than the rest. *)
Theorem accumulateRewards_supply (config : params.AlienConfig)
    (state state' : StateDB) (header : types.Header) (snap : Snapshot) :
  let blockReward :=
    Z.shiftr SignerBlockReward
      (Uint64 (types.Number header) / (SecondsPerYear / params.Period config)) in
  let minerReward := blockReward * MinerRewardPerThousand / 1000 in
  0 ≤ params.Period config →
  map_Forall (λ _ vote, 0 ≤ Stake vote) (Votes snap) →
  accumulateRewards config state header snap = Ret state' →
  0 ≤ minerReward ≤ blockReward ∧ blockReward ≤ SignerBlockReward
  ∧ (if params.SideChain config
     then state' = AddBalance state (types.Coinbase header) blockReward
     else map_sum state + minerReward ≤ map_sum state'
          ∧ map_sum state' ≤ map_sum state + blockReward).
Proof.
  intros blockReward minerReward Hperiod Hstakes. unfold accumulateRewards.
  destruct (decide (params.Period config = 0)); [done|].
  destruct (decide (SecondsPerYear / params.Period config = 0)); [done|].
  fold blockReward. fold minerReward.
  assert (0 ≤ Uint64 (types.Number header)
              / (SecondsPerYear / params.Period config)) as Hyear.
  { pose proof (u64_range (Z.abs (types.Number header))) as Hnumber.
    fold (Uint64 (types.Number header)) in Hnumber.
    apply Z.div_pos; [lia|].
    assert (0 ≤ SecondsPerYear / params.Period config); [|lia].
    apply Z.div_pos; [done | lia]. }
  assert (0 ≤ blockReward) as Hpos.
  { unfold blockReward. apply Z.shiftr_nonneg. unfold SignerBlockReward. lia. }
  assert (0 ≤ minerReward ≤ blockReward) as Hminer.
  { unfold minerReward, MinerRewardPerThousand. split.
    - apply Z.div_pos; lia.
    - apply Z.div_le_upper_bound; lia. }
  intros Hret. split; [done|]. split.
  { unfold blockReward. rewrite Z.shiftr_div_pow2 by done.
    assert (0 < 2 ^ (Uint64 (types.Number header)
                     / (SecondsPerYear / params.Period config))) as Hpow
      by (by apply Z.pow_pos_nonneg).
    apply Z.div_le_upper_bound; [done|].
    unfold SignerBlockReward. nia. }
  destruct (params.SideChain config); simpl in Hret.
  { by injection Hret as <-. }
  destruct (calculateReward snap (types.Coinbase header) (blockReward - minerReward))
    as [rewards| | |] eqn:Hrewards; try done.
  simpl in Hret. injection Hret as <-.
  apply calculateReward_Ret in Hrewards as (_ & Hnonneg & Hle & _);
    [|lia|done].
  apply map_sum_nonneg in Hnonneg.
  rewrite map_sum_AddBalance, map_sum_credit. lia.
Qed.

Lemma accumulateRewards_supply_witness :
  map_sum (∅ : StateDB) + 25000000000000000000 * 618 / 1000
  ≤ map_sum rewardedState
  ∧ map_sum rewardedState ≤ map_sum (∅ : StateDB) + 25000000000000000000.
Proof.
  refine (proj2 (proj2 (accumulateRewards_supply chainConfig ∅ rewardedState
                          (block 1507110 [] [] []) rewardSnapshot _
                          rewardSnapshot_stakes _))).
  - discriminate.
  - vm_compute. reflexivity.
Defined.

(** ** The turn of a signer *)

(** X19. The signer at index [i] of the queue is in turn during period [i] of
    every loop after [LoopStartTime]: there [inturn] holds for the coinbase
    of the header when it is that signer, and for no other address. *)
Theorem inturn_slot (s : Snapshot) (signer : Address) (header : types.Header)
    (i n : nat) (a : Address) :
  let period := params.Period (config s) in
  let slot := Z.of_nat n * Z.of_nat (length (Signers s)) + Z.of_nat i in
  0 < period → 0 ≤ LoopStartTime s →
  Signers s !! i = Some a →
  LoopStartTime s + slot * period ≤ types.Time header →
  types.Time header < LoopStartTime s + (slot + 1) * period →
  types.Time header < two64 →
  inturn s signer header
  = Ret (bool_decide (types.Coinbase header = signer ∧ a = signer)).
Proof.
  intros period slot Hperiod Hstart Hi Hfrom Hto Htime. unfold inturn.
  assert (0 ≤ slot) as Hslot by (unfold slot; lia).
  destruct (decide (types.Coinbase header ≠ signer)) as [Hne|Heq].
  { rewrite bool_decide_eq_false_2; [done | by intros [? _]]. }
  apply dec_stable in Heq.
  destruct (Signers s) as [|first rest] eqn:Hsigners; [done|].
  rewrite <-Hsigners in *. fold period.
  pose proof (lookup_lt_Some _ _ _ Hi) as Hlt.
  rewrite decide_False by lia.
  rewrite Uint64_small by nia.
  rewrite u64_sub_exact by nia.
  assert ((types.Time header - LoopStartTime s) / period = slot) as ->.
  { symmetry. apply Z.div_unique_pos
      with (r := types.Time header - LoopStartTime s - slot * period); nia. }
  assert (slot mod Z.of_nat (length (Signers s)) = Z.of_nat i) as ->.
  { symmetry. apply Z.mod_unique_pos with (q := Z.of_nat n); [lia|].
    unfold slot. rewrite Hsigners. lia. }
  rewrite Nat2Z.id, Hi. f_equal.
  apply bool_decide_ext. split; [done | by intros [_ ?]].
Qed.

Lemma inturn_slot_witness :
  inturn cancelledSnapshot addrA (block 2 [] [] [])
  = Ret (bool_decide (types.Coinbase (block 2 [] [] []) = addrA ∧ addrA = addrA)).
Proof.
  apply (inturn_slot cancelledSnapshot addrA (block 2 [] [] []) 0 1 addrA).
  - vm_compute. reflexivity.
  - vm_compute. discriminate.
  - vm_compute. reflexivity.
  - vm_compute. discriminate.
  - vm_compute. reflexivity.
  - vm_compute. reflexivity.
Defined.

(** ** The weights of the tally slice *)

(** X20. [buildTallySlice] lists every candidate with a positive tally once,
    and no other address; the weighted stake of a candidate is its tally
    times 1000 when it has no punishment, and never less than its tally
    times 300. *)
Theorem buildTallySlice_weights (s : Snapshot) :
  map_Forall (λ _ punished, 0 ≤ punished < two64) (Punished s) →
  NoDup (addr <$> buildTallySlice s)
  ∧ (∀ a, a ∈ addr <$> buildTallySlice s ↔
       ∃ tally, Tally s !! a = Some tally ∧ 0 < tally)
  ∧ (∀ item tally,
       item ∈ buildTallySlice s → Tally s !! addr item = Some tally →
       minCalSignerQueueCredit * tally ≤ stake item ≤ defaultFullCredit * tally
       ∧ (Punished s !! addr item = None →
          stake item = defaultFullCredit * tally)).
Proof.
  intros Hpunished. split; [apply buildTallySlice_NoDup|]. split.
  - intros a. split.
    + intros Ha. apply list_elem_of_fmap in Ha as (item & -> & Hitem).
      by apply buildTallySlice_elem.
    + intros (tally & Htally & Hpos).
      destruct (tallyItemOf s (a, tally)) as [item|] eqn:Hitem.
      * pose proof Hitem as Haddr.
        apply tallyItemOf_Some in Haddr as (Haddr & _). simpl in Haddr.
        rewrite <-Haddr. apply list_elem_of_fmap_2. unfold buildTallySlice.
        apply list_elem_of_omap. exists (a, tally).
        split; [by apply elem_of_map_to_list | done].
      * unfold tallyItemOf in Hitem.
        rewrite (proj2 (Z.leb_gt tally 0)) in Hitem by lia.
        by destruct (Punished s !! a).
  - intros item tally Hitem Htally. unfold buildTallySlice in Hitem.
    apply list_elem_of_omap in Hitem as ([a t] & Hentry & Hitem).
    apply elem_of_map_to_list in Hentry.
    apply tallyItemOf_Some in Hitem as (Haddr & Hpos & ->). simpl in *.
    rewrite Haddr, Hentry in Htally. injection Htally as ->.
    unfold defaultFullCredit, minCalSignerQueueCredit.
    destruct (Punished s !! a) as [punished|] eqn:Hp; rewrite Haddr, Hp;
      [|split; [lia | intros _; lia]].
    split; [|done]. apply Hpunished in Hp. simpl in Hp.
    destruct (Z.ltb_spec (1000 - 300) punished).
    + rewrite int64_small by lia. nia.
    + rewrite u64_sub_exact by (unfold two64; lia).
      rewrite int64_small by lia. nia.
Qed.

Lemma buildTallySlice_weights_witness :
  NoDup (addr <$> buildTallySlice queueSnapshot).
Proof.
  refine (proj1 (buildTallySlice_weights queueSnapshot _)).
  apply map_Forall_singleton. split; [discriminate | reflexivity].
Defined.

(** ** The votes of a block *)

Section votes.
Variable growslice : nat → nat.

Lemma updateSnapshotByVotes_step_cases headerNumber s vote st st' s' :
  updateSnapshotByVotes_step growslice headerNumber s vote st = (st', Ret s') →
  s' = s
  ∨ (Votes s !! Voter vote = None
     ∧ Votes s' = <[Voter vote := vote]> (Votes s)
     ∧ Voters s' = <[Voter vote := headerNumber]> (Voters s)
     ∧ ∃ sl, Candidates s' = <[Candidate vote := sl]> (Candidates s)).
Proof.
  unfold updateSnapshotByVotes_step. intros Hstep.
  destruct (bool_decide_reflect (is_Some (Votes s !! Voter vote))) as [|Hnew];
    [apply retM_Ret in Hstep as [-> _]; by left|].
  destruct (negb (isCandidate s (Candidate vote))
            && negb (bool_decide (Candidate vote = Voter vote)));
    [apply retM_Ret in Hstep as [-> _]; by left|].
  apply bindM_Ret in Hstep as (st1 & tally & _ & Hstep).
  destruct (slice_append _ _ _ _) as [st2 sl]. injection Hstep as _ <-.
  right. simpl. split; [|split; [done|split; [done|by exists sl]]].
  by apply eq_None_not_Some.
Qed.

(** X21. [updateSnapshotByVotes] keeps every vote of the snapshot: a vote of a
    block is taken only from an address without a vote, it is then filed
    under its voter with the number of the block, and its candidate is a
    candidate afterwards. *)
Theorem updateSnapshotByVotes_first_vote_wins (s : Snapshot)
    (votes : list Vote) (headerNumber : Z) (st st' : store) (s' : Snapshot) :
  updateSnapshotByVotes growslice s votes headerNumber st = (st', Ret s') →
  Votes s ⊆ Votes s'
  ∧ (∀ voter, is_Some (Votes s !! voter) →
       Voters s' !! voter = Voters s !! voter)
  ∧ (∀ voter vote,
       Votes s' !! voter = Some vote → Votes s !! voter = None →
       vote ∈ votes ∧ Voter vote = voter
       ∧ Voters s' !! voter = Some headerNumber
       ∧ is_Some (Candidates s' !! Candidate vote)).
Proof.
  unfold updateSnapshotByVotes. intros Hfold.
  assert (Votes s ⊆ Votes s'
          ∧ dom (Candidates s) ⊆ dom (Candidates s')
          ∧ (∀ voter, is_Some (Votes s !! voter) →
               Voters s' !! voter = Voters s !! voter)
          ∧ (∀ voter vote,
               Votes s' !! voter = Some vote → Votes s !! voter = None →
               vote ∈ votes ∧ Voter vote = voter
               ∧ Voters s' !! voter = Some headerNumber
               ∧ is_Some (Candidates s' !! Candidate vote))) as (?&_&?&?);
    [|done].
  revert s st Hfold. induction votes as [|v rest IH]; intros s st Hfold.
  { apply retM_Ret in Hfold as [-> _].
    split; [done|]. split; [done|]. split; [done|].
    intros voter vote Hsome Hnone. congruence. }
  cbn [foldM] in Hfold. apply bindM_Ret in Hfold as (st1 & s1 & Hstep & Hfold).
  apply IH in Hfold as (Hsub & Hcand & Hold & Hnew).
  apply updateSnapshotByVotes_step_cases in Hstep
    as [->|(Hfresh & Hvotes & Hvoters & sl & Hcandidates)].
  { split; [done|]. split; [done|]. split; [done|].
    intros voter vote Hsome Hnone.
    destruct (Hnew voter vote Hsome Hnone) as (? & ? & ? & ?).
    split; [by right | done]. }
  assert (Votes s ⊆ Votes s1) as Hsub1.
  { rewrite Hvotes. by apply insert_subseteq. }
  split; [by etrans|]. split.
  { etrans; [|done]. rewrite Hcandidates, dom_insert_L.
    apply union_subseteq_r. }
  split.
  { intros voter Hvoter. rewrite Hold.
    - rewrite Hvoters. apply lookup_insert_ne. intros <-.
      rewrite Hfresh in Hvoter. by destruct Hvoter.
    - destruct Hvoter as [x Hx]. exists x. by eapply lookup_weaken. }
  intros voter vote Hsome Hnone.
  destruct (Votes s1 !! voter) as [x|] eqn:Hs1.
  - rewrite Hvotes in Hs1. apply lookup_insert_Some in Hs1 as [[<- <-]|[_ ?]];
      [|congruence].
    assert (Votes s' !! Voter v = Some v) as Hv.
    { eapply lookup_weaken; [|done]. rewrite Hvotes. apply lookup_insert_eq. }
    rewrite Hv in Hsome. injection Hsome as <-.
    split; [by left|]. split; [done|]. split.
    + rewrite Hold by (rewrite Hvotes, lookup_insert_eq; by eexists).
      rewrite Hvoters. apply lookup_insert_eq.
    + apply elem_of_dom, Hcand. rewrite Hcandidates, dom_insert_L.
      apply elem_of_union_l. by apply elem_of_singleton.
  - destruct (Hnew voter vote Hsome Hs1) as (? & ? & ? & ?).
    split; [by right | done].
Qed.

End votes.

Lemma updateSnapshotByVotes_first_vote_wins_witness :
  Votes genesisSnapshot
  ⊆ Votes (result_snapshot
             (updateSnapshotByVotes growslice_double genesisSnapshot
                [voteD; voteA; voteE] 1 genesisStore)).
Proof.
  refine (proj1 (updateSnapshotByVotes_first_vote_wins growslice_double
                   genesisSnapshot [voteD; voteA; voteE] 1 genesisStore
                   (updateSnapshotByVotes growslice_double genesisSnapshot
                      [voteD; voteA; voteE] 1 genesisStore).1 _ _)).
  vm_compute. reflexivity.
Defined.

Lemma confirmedResult_Ret :
  confirmedResult = (confirmedResult.1, Ret confirmedSnapshot).
Proof. vm_compute. reflexivity. Qed.

Lemma confirmedSnapshot_reachable :
  reachable growslice_double chainConfig confirmedSnapshot.
Proof.
  eapply reachable_apply; [|exact confirmedResult_Ret].
  eapply reachable_genesis. exact genesis_Ret.
Qed.

Lemma reachable_confirmations_witness :
  NoDup [addrA; addrB]
  ∧ u64_sub (Number confirmedSnapshot) 0 ≤ params.MaxSignerCount chainConfig.
Proof.
  apply (reachable_confirmations growslice_double chainConfig confirmedSnapshot
           0 [addrA; addrB] confirmedSnapshot_reachable).
  vm_compute. reflexivity.
Defined.

(** ** The errors of apply, all of them *)

(** X22. An error of [apply] is [errInvalidVotingChain] from the sanity checks,
    [errUnauthorized] from a seal that is not the coinbase's,
    [errIncorrectTallyCount] from the final check, or an error of
    [ecrecover] or of the decoder on one of the headers. *)
Theorem apply_error_values (growslice : nat → nat) (fuel : nat) (s : Snapshot)
    (headers : list types.Header) (st st' : store) (e : error) :
  apply growslice fuel s headers st = (st', Fail e) →
  (e = errInvalidVotingChain
   ∧ (consecutive headers = false
      ∨ ∃ first, head headers = Some first
                 ∧ Uint64 (types.Number first) ≠ u64_add (Number s) 1))
  ∨ e = errUnauthorized
  ∨ e = errIncorrectTallyCount
  ∨ ∃ header, header ∈ headers
              ∧ (types.ecrecover header = Fail e ∨ types.Extra header = Fail e).
Proof.
  unfold apply. destruct headers as [|first rest]; [done|].
  destruct (consecutive (first :: rest)) eqn:Hcons; simpl.
  2: { intros [= _ <-]. left. split; [done | by left]. }
  destruct (decide _) as [Hfirst|Hfirst].
  { intros [= _ <-]. left. split; [done|]. right. by exists first. }
  intros H. right.
  apply bindM_Fail in H as [H|(st1 & snap & _ & H)].
  - apply (foldM_Fail (applyHeader growslice fuel s) (first :: rest))
      in H as (b & h & st1 & st2 & Hin & H).
    apply applyHeader_Fail in H as [?|[?|?]].
    + right. right. exists h. split; [done | by left].
    + by left.
    + right. right. exists h. split; [done | by right].
  - apply bindM_Fail in H as [H|(st2 & [] & _ & H)]; [|done].
    unfold liftM in H. injection H as _ H.
    apply verifyTallyCnt_Fail in H. right. by left.
Qed.

Lemma apply_error_values_witness :
  (errUnauthorized = errInvalidVotingChain
   ∧ (consecutive [block 6 [] [] []; forged 7] = false
      ∨ ∃ first, head [block 6 [] [] []; forged 7] = Some first
                 ∧ Uint64 (types.Number first) ≠ u64_add (Number receiver) 1))
  ∨ errUnauthorized = errUnauthorized
  ∨ errUnauthorized = errIncorrectTallyCount
  ∨ ∃ header, header ∈ [block 6 [] [] []; forged 7]
              ∧ (types.ecrecover header = Fail errUnauthorized
                 ∨ types.Extra header = Fail errUnauthorized).
Proof.
  apply (apply_error_values growslice_double 4 receiver
           [block 6 [] [] []; forged 7] receiverStore failedResult.1).
  vm_compute. reflexivity.
Defined.

(** ** The freeze queries of the interface *)

(** X23. On a snapshot the engine can hold, with a period that is not zero,
    [GetRemainingFreezeTime] answers for exactly the addresses with a
    cancel, and for each of them [GetFreezeBalance] answers with the stake
    of a vote. *)
Theorem freeze_queries_agree (growslice : nat → nat)
    (config : params.AlienConfig) (s : Snapshot) (header : types.Header)
    (address : Address) :
  reachable growslice config s →
  params.Period config ≠ 0 →
  (is_Some (Cancels s !! address)
   ↔ ∃ seconds,
       GetRemainingFreezeTime config (Some header) (Ret s) address
       = Ret seconds)
  ∧ (is_Some (Cancels s !! address) →
     ∃ vote, Votes s !! address = Some vote
             ∧ GetFreezeBalance (Some header) (Ret s) address
               = Ret (Uint64 (Stake vote))).
Proof.
  intros Hs Hperiod.
  apply reachable_snapshot_consistent in Hs
    as (_ & _ & _ & Hcancelers & Hsub).
  unfold GetRemainingFreezeTime, GetFreezeBalance, remainingFreezeTime.
  simpl. split.
  - rewrite <-elem_of_dom, <-Hcancelers, elem_of_dom.
    destruct (Cancelers s !! address) as [n|].
    + rewrite decide_False by done. split; [by eexists | by eexists].
    + split; [by intros [? ?] | by intros [? ?]].
  - intros Hcancel. apply elem_of_dom, Hsub, elem_of_dom in Hcancel as [vote Hvote].
    exists vote. by rewrite Hvote.
Qed.

Lemma freeze_queries_agree_witness :
  (is_Some (Cancels receiver !! addrD)
   ↔ ∃ seconds,
       GetRemainingFreezeTime chainConfig (Some (block 5 [] [] []))
         (Ret receiver) addrD
       = Ret seconds)
  ∧ (is_Some (Cancels receiver !! addrD) →
     ∃ vote, Votes receiver !! addrD = Some vote
             ∧ GetFreezeBalance (Some (block 5 [] [] [])) (Ret receiver) addrD
               = Ret (Uint64 (Stake vote))).
Proof.
  apply (freeze_queries_agree growslice_double chainConfig receiver
           (block 5 [] [] []) addrD receiver_reachable).
  discriminate.
Defined.

(** ** The cancels of a block *)

Lemma cancels_added_refl headerNumber s : cancels_added headerNumber s s.
Proof.
  split; [done|]. split; [done|]. split; [done|]. split; [done|].
  split; [done|]. split; [done|]. intros ? ? ? ?. congruence.
Qed.

Lemma updateSnapshotByCancels_loop_added st headerNumber fuel :
  ∀ cancels s s',
    updateSnapshotByCancels_loop st headerNumber fuel cancels s = Ret s' →
    cancels_added headerNumber s s'.
Proof.
  induction fuel as [|fuel IH]; intros [|cancel rest] s s'; simpl; try done.
  - intros [= <-]. apply cancels_added_refl.
  - intros [= <-]. apply cancels_added_refl.
  - destruct (bool_decide_reflect (is_Some (Cancels s !! Canceler cancel)))
      as [|Hnew]; [by apply IH|].
    apply eq_None_not_Some in Hnew.
    destruct (Votes s !! Canceler cancel) as [vote|] eqn:Hvote; [|by apply IH].
    destruct (Tally s !! Candidate vote) as [t|] eqn:Htally; [|by apply IH].
    intros Hloop.
    apply IH in Hloop as (Hv & Hvs & Hc & Hcs & Ht & Hold & Hfresh).
    simpl in *.
    split; [done|]. split; [done|]. split; [done|]. split.
    { etrans; [|done]. by apply insert_subseteq. }
    split.
    { rewrite Ht, dom_insert_L. apply elem_of_dom_2 in Htally.
      apply subseteq_union_1_L. by apply singleton_subseteq_l. }
    split.
    { intros canceler Hcanceler.
      assert (canceler ≠ Canceler cancel) as Hne.
      { intros ->. rewrite Hnew in Hcanceler. by destruct Hcanceler. }
      rewrite Hold by (by rewrite lookup_insert_ne).
      by rewrite lookup_insert_ne. }
    intros canceler c Hc' Hnone.
    destruct (decide (canceler = Canceler cancel)) as [->|Hne].
    + assert (Cancels s' !! Canceler cancel
              = Some (mkCancel (Canceler cancel) (Passive cancel))) as Hc''.
      { eapply lookup_weaken; [|done]. apply lookup_insert_eq. }
      rewrite Hc'' in Hc'. injection Hc' as <-. split; [done|]. split.
      * rewrite Hold by (rewrite lookup_insert_eq; by eexists).
        apply lookup_insert_eq.
      * exists vote. split; [done | by eexists].
    + destruct (Hfresh canceler c Hc') as (? & ? & vote' & ? & Ht').
      { by rewrite lookup_insert_ne. }
      split; [done|]. split; [done|]. exists vote'. split; [done|].
      apply elem_of_dom. apply elem_of_dom in Ht'.
      rewrite dom_insert_L in Ht'. apply elem_of_union in Ht' as [Ht'|Ht']; [|done].
      apply elem_of_singleton in Ht' as ->. by apply elem_of_dom_2 in Htally.
Qed.

(** Every cancel of the list whose canceler has a vote for a candidate
    with a tally is in the snapshot when the loop returns. *)
Lemma updateSnapshotByCancels_loop_all st headerNumber fuel :
  ∀ cancels s s' cancel vote,
    updateSnapshotByCancels_loop st headerNumber fuel cancels s = Ret s' →
    cancel ∈ cancels →
    Votes s !! Canceler cancel = Some vote →
    is_Some (Tally s !! Candidate vote) →
    is_Some (Cancels s' !! Canceler cancel).
Proof.
  induction fuel as [|fuel IH]; intros [|first rest] s s' cancel vote; simpl;
    try done.
  - intros _ Hin. by apply elem_of_nil in Hin.
  - intros _ Hin. by apply elem_of_nil in Hin.
  - intros Hloop Hin Hvote Htally.
    destruct (bool_decide_reflect (is_Some (Cancels s !! Canceler first)))
      as [Hold|Hnew].
    + apply elem_of_cons in Hin as [->|Hin]; [|by eapply IH].
      apply updateSnapshotByCancels_loop_added in Hloop as (_&_&_&Hsub&_).
      destruct Hold as [c Hc]. exists c. by eapply lookup_weaken.
    + apply elem_of_cons in Hin as [->|Hin].
      * rewrite Hvote in Hloop. destruct Htally as [t Ht]. rewrite Ht in Hloop.
        apply updateSnapshotByCancels_loop_added in Hloop as (_&_&_&Hsub&_).
        simpl in Hsub. eexists. eapply lookup_weaken; [|done].
        apply lookup_insert_eq.
      * eapply (IH _ _ _ cancel vote Hloop).
        -- apply elem_of_app. by left.
        -- destruct (Votes s !! Canceler first) as [v|]; [|done].
           by destruct (Tally s !! Candidate v).
        -- destruct (Votes s !! Canceler first) as [v|]; [|done].
           destruct (Tally s !! Candidate v) as [t|] eqn:Ht; [|done].
           simpl. apply elem_of_dom. rewrite dom_insert_L.
           apply elem_of_union_r. by apply elem_of_dom.
Qed.

(** X24. [updateSnapshotByCancels] changes no vote. Every cancel of the block
    whose canceler has a vote for a candidate with a tally is filed, with
    the number of the block; and when a candidate cancels, so is a cancel
    for every voter that its slice of votes shows. *)
Theorem updateSnapshotByCancels_cascade (fuel : nat) (s : Snapshot)
    (cancels : list Cancel) (headerNumber : Z) (st st' : store)
    (s' : Snapshot) :
  updateSnapshotByCancels fuel s cancels headerNumber st = (st', Ret s') →
  st' = st ∧ cancels_added headerNumber s s'
  ∧ (∀ cancel vote,
       cancel ∈ cancels → Votes s !! Canceler cancel = Some vote →
       is_Some (Tally s !! Candidate vote) →
       is_Some (Cancels s' !! Canceler cancel))
  ∧ (∀ cancel sl vote vote',
       head cancels = Some cancel →
       Cancels s !! Canceler cancel = None →
       Candidates s !! Canceler cancel = Some sl →
       vote ∈ view st sl → Voter vote ≠ Canceler cancel →
       Votes s !! Voter vote = Some vote' →
       is_Some (Tally s !! Candidate vote') →
       is_Some (Cancels s' !! Voter vote)).
Proof.
  unfold updateSnapshotByCancels. intros [= <- Hloop].
  split; [done|]. split; [by eapply updateSnapshotByCancels_loop_added|].
  split.
  { intros cancel vote Hin Hvote Htally.
    by eapply updateSnapshotByCancels_loop_all. }
  intros cancel sl vote vote' Hhead Hnew Hcandidate Hin Hne Hvote Htally.
  destruct cancels as [|first rest]; [done|]. injection Hhead as ->.
  destruct fuel as [|fuel]; [done|]. simpl in Hloop.
  rewrite bool_decide_eq_false_2 in Hloop
    by (rewrite Hnew; by intros [? ?]).
  change (Voter vote) with (Canceler (mkCancel (Voter vote) true)).
  eapply (updateSnapshotByCancels_loop_all _ _ _ _ _ _ _ vote' Hloop).
  - apply elem_of_app. right. unfold cascade. rewrite Hcandidate.
    apply list_elem_of_omap. exists vote. split; [done|].
    by rewrite bool_decide_eq_true_2.
  - destruct (Votes s !! Canceler cancel) as [v|]; [|done].
    by destruct (Tally s !! Candidate v).
  - destruct (Votes s !! Canceler cancel) as [v|]; [|done].
    destruct (Tally s !! Candidate v) as [t|] eqn:Ht; [|done].
    simpl. apply elem_of_dom. rewrite dom_insert_L.
    apply elem_of_union_r. by apply elem_of_dom.
Qed.

Lemma votedResult_Ret : votedResult = (votedStore, Ret votedSnapshot).
Proof. vm_compute. reflexivity. Qed.

Lemma updateSnapshotByCancels_cascade_witness :
  is_Some
    (Cancels
       (result_snapshot
          (updateSnapshotByCancels 4 votedSnapshot [mkCancel addrA false] 2
             votedStore))
     !! addrD).
Proof.
  refine (proj2 (proj2 (proj2
            (updateSnapshotByCancels_cascade 4 votedSnapshot
               [mkCancel addrA false] 2 votedStore votedStore
               (result_snapshot
                  (updateSnapshotByCancels 4 votedSnapshot
                     [mkCancel addrA false] 2 votedStore)) _)))
            (mkCancel addrA false) (mkSlice 2 3 4) voteD voteD _ _ _ _ _ _ _).
  - vm_compute. reflexivity.
  - reflexivity.
  - vm_compute. reflexivity.
  - vm_compute. reflexivity.
  - vm_compute. repeat constructor.
  - discriminate.
  - vm_compute. reflexivity.
  - vm_compute. by eexists.
Defined.

(** ** The end of the freeze *)

Lemma removeExtraVotesAndCancel_step_Ret s canceler cancel n st :
  params.Period (config s) ≠ 0 →
  Canceler cancel = canceler →
  Cancelers s !! canceler = Some n →
  is_Some (Votes s !! canceler) →
  ∃ st' s',
    removeExtraVotesAndCancel_step s (canceler, cancel) st = (st', Ret s')
    ∧ config s' = config s ∧ Number s' = Number s
    ∧ (∀ address, address ≠ canceler → same_entries address s s')
    ∧ (if freezeOver s n cancel then no_entries canceler s'
       else same_entries canceler s s').
Proof.
  intros Hperiod Hkey Hn [vote Hvote].
  unfold removeExtraVotesAndCancel_step.
  assert (freezeElapsed s canceler cancel = Ret (freezeOver s n cancel)) as ->.
  { unfold freezeElapsed, freezeOver. rewrite Hkey, Hn.
    destruct (Passive cancel); [done|]. by rewrite decide_False. }
  unfold bindM at 1. unfold liftM at 1.
  destruct (freezeOver s n cancel).
  2: { exists st, s. split; [done|]. split; [done|]. split; [done|].
       split; [|done]. intros address _. done. }
  assert (∃ st1 s1,
            (if isCandidate s canceler then
               retM (set_Candidates (delete canceler (Candidates s))
                       (set_Punished (delete canceler (Punished s)) s))
             else
               match Votes s !! canceler with
               | None => liftM Panic
               | Some vote =>
                   match Candidates s !! Candidate vote with
                   | None => retM s
                   | Some sl =>
                       λ st,
                         let '(st', sl') :=
                           removeVoter_loop canceler (len sl) 0 st sl in
                         (st', Ret (set_Candidates
                                      (<[Candidate vote := sl']> (Candidates s))
                                      s))
                   end
               end) st = (st1, Ret s1)
            ∧ config s1 = config s ∧ Number s1 = Number s
            ∧ Votes s1 = Votes s ∧ Voters s1 = Voters s
            ∧ Cancels s1 = Cancels s ∧ Cancelers s1 = Cancelers s)
    as (st1 & s1 & Hs1 & Hc & Hnum & Hv & Hvs & Hcs & Hcrs).
  { destruct (isCandidate s canceler).
    - by eexists _, _.
    - rewrite Hvote. destruct (Candidates s !! Candidate vote) as [sl|].
      + destruct (removeVoter_loop canceler (len sl) 0 st sl) as [st3 sl'] eqn:E.
        by eexists _, _.
      + by eexists _, _. }
  unfold bindM. rewrite Hs1. eexists _, _. split; [done|]. simpl.
  rewrite Hv, Hvs, Hcs, Hcrs.
  split; [done|]. split; [done|]. split.
  - intros address Hne. unfold same_entries. simpl.
    by rewrite !lookup_delete_ne.
  - unfold no_entries. simpl. by rewrite !lookup_delete_eq.
Qed.

Lemma same_entries_refl address s : same_entries address s s.
Proof. done. Qed.

Lemma same_entries_trans address s1 s2 s3 :
  same_entries address s1 s2 → same_entries address s2 s3 →
  same_entries address s1 s3.
Proof.
  intros (?&?&?&?) (?&?&?&?). unfold same_entries.
  split; [congruence|]. split; [congruence|]. split; congruence.
Qed.

Lemma no_entries_same address s s' :
  no_entries address s → same_entries address s s' → no_entries address s'.
Proof.
  intros (?&?&?&?) (?&?&?&?). unfold no_entries.
  split; [congruence|]. split; [congruence|]. split; congruence.
Qed.

Lemma freezeOver_same s s' n cancel :
  config s' = config s → Number s' = Number s →
  freezeOver s' n cancel = freezeOver s n cancel.
Proof. intros Hc Hn. unfold freezeOver. by rewrite Hc, Hn. Qed.

Lemma removeExtraVotesAndCancel_loop (l : list (Address * Cancel)) :
  ∀ s st,
    params.Period (config s) ≠ 0 →
    NoDup l.*1 →
    (∀ canceler cancel, (canceler, cancel) ∈ l →
       Canceler cancel = canceler ∧ is_Some (Cancelers s !! canceler)
       ∧ is_Some (Votes s !! canceler)) →
    ∃ st' s',
      foldM removeExtraVotesAndCancel_step l s st = (st', Ret s')
      ∧ config s' = config s ∧ Number s' = Number s
      ∧ (∀ address, address ∉ l.*1 → same_entries address s s')
      ∧ (∀ canceler cancel n,
           (canceler, cancel) ∈ l → Cancelers s !! canceler = Some n →
           if freezeOver s n cancel then no_entries canceler s'
           else same_entries canceler s s').
Proof.
  induction l as [|[k c] l IH]; intros s st Hperiod Hnodup Hl.
  { exists st, s. split; [done|]. split; [done|]. split; [done|].
    split; [done|]. intros canceler cancel n Hin. by apply elem_of_nil in Hin. }
  rewrite fmap_cons in Hnodup. apply NoDup_cons in Hnodup as [Hk Hnodup].
  simpl in Hk.
  destruct (Hl k c) as (Hkey & [n Hn] & Hvote); [by left|].
  destruct (removeExtraVotesAndCancel_step_Ret s k c n st)
    as (st1 & s1 & Hstep & Hc1 & Hn1 & Hother & Hself); [done..|].
  destruct (IH s1 st1) as (st' & s' & Hfold & Hc' & Hn' & Hout & Hin).
  { by rewrite Hc1. }
  { done. }
  { intros canceler cancel Hcancel.
    destruct (Hl canceler cancel) as (? & Hcs & Hv); [by right|].
    assert (canceler ≠ k) as Hne.
    { intros ->. apply Hk. by apply (list_elem_of_fmap_2 fst _ (k, cancel)). }
    destruct (Hother canceler Hne) as (Hv1 & _ & _ & Hcs1).
    split; [done|]. by rewrite Hv1, Hcs1. }
  exists st', s'. cbn [foldM]. unfold bindM at 1. rewrite Hstep.
  split; [done|]. split; [congruence|]. split; [congruence|]. split.
  - intros address Haddress. rewrite fmap_cons in Haddress.
    apply not_elem_of_cons in Haddress as [Hne Haddress]. simpl in Hne.
    eapply same_entries_trans; [by apply Hother | by apply Hout].
  - intros canceler cancel n' Hcancel Hlookup.
    apply elem_of_cons in Hcancel as [[= -> ->]|Hcancel].
    + rewrite Hn in Hlookup. injection Hlookup as <-.
      destruct (freezeOver s n c).
      * eapply no_entries_same; [done | by apply Hout].
      * eapply same_entries_trans; [done | by apply Hout].
    + assert (canceler ≠ k) as Hne.
      { intros ->. apply Hk. by apply (list_elem_of_fmap_2 fst _ (k, cancel)). }
      destruct (Hother canceler Hne) as (Hv1 & Hvs1 & Hcl1 & Hcs1).
      specialize (Hin canceler cancel n' Hcancel).
      rewrite Hcs1 in Hin. specialize (Hin Hlookup).
      rewrite (freezeOver_same s s1) in Hin by done.
      destruct (freezeOver s n' cancel); [done|].
      eapply same_entries_trans; [by apply Hother | done].
Qed.

(** X25. On a snapshot whose votes and cancels fit together, with a period that
    is not zero, [removeExtraVotesAndCancel] returns, whatever the order in
    which the cancels are ranged over. It removes the vote, the voter, the
    cancel and the canceler entry of every canceler whose freeze is over,
    and leaves these entries of every other address as they were. *)
Theorem removeExtraVotesAndCancel_expired (s : Snapshot) (st : store) :
  snapshot_consistent s →
  params.Period (config s) ≠ 0 →
  ∃ st' s',
    removeExtraVotesAndCancel s st = (st', Ret s')
    ∧ config s' = config s ∧ Number s' = Number s
    ∧ ∀ address,
        match Cancels s !! address, Cancelers s !! address with
        | Some cancel, Some n =>
            if freezeOver s n cancel then no_entries address s'
            else same_entries address s s'
        | _, _ => same_entries address s s'
        end.
Proof.
  intros (Hvotes & Hcancels & Hvoters & Hcancelers & Hsub) Hperiod.
  destruct (removeExtraVotesAndCancel_loop (map_to_list (Cancels s)) s st)
    as (st' & s' & Hfold & Hc & Hn & Hout & Hin).
  { done. }
  { apply NoDup_fst_map_to_list. }
  { intros canceler cancel Hcancel. apply elem_of_map_to_list in Hcancel.
    split; [by apply Hcancels in Hcancel|]. apply elem_of_dom_2 in Hcancel.
    split; [apply elem_of_dom; by rewrite Hcancelers|].
    by apply elem_of_dom, Hsub. }
  exists st', s'. split; [done|]. split; [done|]. split; [done|].
  intros address.
  destruct (Cancels s !! address) as [cancel|] eqn:Hcancel.
  - destruct (Cancelers s !! address) as [n|] eqn:Hcanceler.
    + apply (Hin address cancel n); [by apply elem_of_map_to_list | done].
    + apply elem_of_dom_2 in Hcancel. rewrite <-Hcancelers in Hcancel.
      apply elem_of_dom in Hcancel as [? ?]. congruence.
  - apply Hout. intros Hin'.
    apply list_elem_of_fmap in Hin' as ([k c] & -> & Hkc).
    apply elem_of_map_to_list in Hkc. simpl in Hcancel. congruence.
Qed.

Lemma removeExtraVotesAndCancel_expired_witness :
  ∃ st' s',
    removeExtraVotesAndCancel receiver receiverStore = (st', Ret s')
    ∧ config s' = config receiver ∧ Number s' = Number receiver
    ∧ ∀ address,
        match Cancels receiver !! address, Cancelers receiver !! address with
        | Some cancel, Some n =>
            if freezeOver receiver n cancel then no_entries address s'
            else same_entries address receiver s'
        | _, _ => same_entries address receiver s'
        end.
Proof.
  apply (removeExtraVotesAndCancel_expired receiver receiverStore).
  - exact (reachable_snapshot_consistent growslice_double chainConfig receiver
             receiver_reachable).
  - vm_compute. discriminate.
Defined.

(** ** The punishment of one block *)

Lemma punishMissing_other punished m a :
  a ≠ m → punishMissing punished m !! a = punished !! a.
Proof.
  intros Hne. unfold punishMissing.
  destruct (punished !! m) as [v|].
  - destruct (v <=? _); [by rewrite lookup_insert_ne | done].
  - by rewrite lookup_insert_ne.
Qed.

Lemma foldl_punishMissing_other signerMissing punished a :
  a ∉ signerMissing →
  foldl punishMissing punished signerMissing !! a = punished !! a.
Proof.
  revert punished. induction signerMissing as [|m l IH]; intros punished Ha;
    [done|].
  apply not_elem_of_cons in Ha as [? ?]. cbn [foldl].
  rewrite IH by done. by apply punishMissing_other.
Qed.

Lemma foldl_punishMissing_once signerMissing punished a :
  a ∈ signerMissing → NoDup signerMissing →
  foldl punishMissing punished signerMissing !! a
  = punishMissing punished a !! a.
Proof.
  revert punished. induction signerMissing as [|m l IH]; intros punished Ha Hnodup.
  { by apply elem_of_nil in Ha. }
  apply NoDup_cons in Hnodup as [Hm Hl]. cbn [foldl].
  apply elem_of_cons in Ha as [->|Ha].
  - by rewrite foldl_punishMissing_other.
  - rewrite IH by done.
    assert (a ≠ m) as Hne by (by intros ->).
    unfold punishMissing at 1 3. rewrite !punishMissing_other by done.
    destruct (punished !! a) as [v|].
    + destruct (v <=? _); [by rewrite !lookup_insert_eq|].
      by apply punishMissing_other.
    + by rewrite !lookup_insert_eq.
Qed.

Lemma rewardSigner_lookup punished coinbase a :
  map_Forall (λ _ v, 0 ≤ v < two64) punished →
  default 0 (rewardSigner punished coinbase !! a)
  = let v := default 0 (punished !! a) in
    if bool_decide (a = coinbase) then (if 100 <? v then v - 100 else 0) else v.
Proof.
  intros Hrange. unfold rewardSigner, signRewardCredit. simpl.
  destruct (bool_decide_reflect (a = coinbase)) as [->|Hne].
  - destruct (punished !! coinbase) as [v|] eqn:Hv; simpl.
    + apply Hrange in Hv. simpl in Hv. destruct (Z.ltb_spec 100 v).
      * rewrite lookup_insert_eq. simpl. by rewrite u64_sub_exact by lia.
      * by rewrite lookup_delete_eq.
    + by rewrite Hv.
  - destruct (punished !! coinbase) as [v|]; [|done].
    destruct (100 <? v).
    + by rewrite lookup_insert_ne.
    + by rewrite lookup_delete_ne.
Qed.

Lemma rewardSigner_range punished coinbase :
  map_Forall (λ _ v, 0 ≤ v < two64) punished →
  map_Forall (λ _ v, 0 ≤ v < two64) (rewardSigner punished coinbase).
Proof.
  intros Hrange. unfold rewardSigner, signRewardCredit.
  destruct (punished !! coinbase) as [v|] eqn:Hv; [|done].
  destruct (Z.ltb_spec 100 v).
  - apply map_Forall_insert_2; [|done]. apply Hrange in Hv. simpl in Hv.
    rewrite u64_sub_exact by lia. lia.
  - by apply map_Forall_delete.
Qed.

Lemma foldl_punishMissing_range signerMissing punished :
  map_Forall (λ _ v, 0 ≤ v < two64) punished →
  map_Forall (λ _ v, 0 ≤ v < two64) (foldl punishMissing punished signerMissing).
Proof.
  revert punished. induction signerMissing as [|m l IH]; intros punished Hrange;
    [done|].
  cbn [foldl]. apply IH. unfold punishMissing, missingPublishCredit.
  destruct (punished !! m) as [v|] eqn:Hv.
  - destruct (v <=? _); [|done]. apply map_Forall_insert_2; [|done].
    apply u64_range.
  - apply map_Forall_insert_2; [|done]. unfold two64. lia.
Qed.

(** X26. The punishment counters after one block, an absent counter read as
    0, for counters in the range of [uint64] and a list of missing signers
    without repetition: a miss adds 100 to a counter of at most 10000, the
    signature of the block takes 100 off the counter of the coinbase, and
    every block takes 1 off every counter; a counter that would come
    to 0 or less is deleted. *)
Theorem updateSnapshotForPunish_counter (s : Snapshot)
    (signerMissing : list Address) (headerNumber : Z) (coinbase a : Address) :
  map_Forall (λ _ v, 0 ≤ v < two64) (Punished s) →
  NoDup signerMissing →
  let before := default 0 (Punished s !! a) in
  let missed :=
    if bool_decide (a ∈ signerMissing ∧ before ≤ 10000) then before + 100
    else before in
  let signed :=
    if bool_decide (a = coinbase)
    then (if 100 <? missed then missed - 100 else 0)
    else missed in
  Punished (updateSnapshotForPunish s signerMissing headerNumber coinbase) !! a
  = if 1 <? signed then Some (signed - 1) else None.
Proof.
  intros Hrange Hnodup before missed signed.
  unfold updateSnapshotForPunish, rewardAll. cbn [Punished set_Punished].
  rewrite lookup_omap.
  assert (default 0 (foldl punishMissing (Punished s) signerMissing !! a)
          = missed) as Hmissed.
  { unfold missed, before.
    destruct (decide (a ∈ signerMissing)) as [Hin|Hout].
    - rewrite foldl_punishMissing_once by done. unfold punishMissing.
      destruct (Punished s !! a) as [v|] eqn:Hv; simpl.
      + pose proof (Hrange _ _ Hv) as Hr. simpl in Hr. unfold defaultFullCredit.
        destruct (Z.leb_spec v (10 * 1000)).
        * rewrite lookup_insert_eq, bool_decide_eq_true_2 by (split; [done|lia]).
          unfold u64_add, missingPublishCredit. simpl.
          by rewrite u64_small by (unfold two64 in *; lia).
        * rewrite Hv, bool_decide_eq_false_2 by (intros [_ ?]; lia). done.
      + rewrite lookup_insert_eq, bool_decide_eq_true_2 by (split; [done|lia]).
        done.
    - rewrite foldl_punishMissing_other by done.
      by rewrite bool_decide_eq_false_2 by (by intros [? _]). }
  pose proof (rewardSigner_lookup
                (foldl punishMissing (Punished s) signerMissing) coinbase a
                (foldl_punishMissing_range _ _ Hrange)) as Hsigned.
  simpl in Hsigned. rewrite Hmissed in Hsigned. fold signed in Hsigned.
  pose proof (rewardSigner_range _ coinbase
                (foldl_punishMissing_range signerMissing _ Hrange)) as Hrange'.
  destruct (rewardSigner _ coinbase !! a) as [v|] eqn:Hv; simpl in *.
  - subst v. apply Hrange' in Hv. simpl in Hv. unfold autoRewardCredit.
    destruct (Z.ltb_spec 1 signed); [|done].
    by rewrite u64_sub_exact by lia.
  - rewrite <-Hsigned. done.
Qed.

Lemma updateSnapshotForPunish_counter_witness :
  Punished (updateSnapshotForPunish punishedSnapshot [addrB] 8 addrA) !! addrB
  = Some 10099.
Proof.
  apply (updateSnapshotForPunish_counter punishedSnapshot [addrB] 8 addrA addrB).
  - apply map_Forall_singleton. split; [discriminate | reflexivity].
  - apply NoDup_singleton.
Defined.

(** ** The seal of a header *)

Lemma sameSignerQueue_loop_Ret parentQueue currentQueue n :
  ∀ i,
    sameSignerQueue_loop parentQueue currentQueue i n = Ret () →
    take n (drop i currentQueue) = take n (drop i parentQueue)
    ∧ ((0 < n)%nat →
       (i + n ≤ length parentQueue)%nat ∧ (i + n ≤ length currentQueue)%nat).
Proof.
  induction n as [|n IH]; intros i; simpl.
  { intros _. rewrite !take_0. split; [done | lia]. }
  destruct (parentQueue !! i) as [p|] eqn:Hp; [|done].
  destruct (currentQueue !! i) as [c|] eqn:Hc; [|done].
  destruct (decide (p ≠ c)) as [|Heq]; [done|].
  apply dec_stable in Heq. subst c. intros Hloop.
  apply IH in Hloop as (Htake & Hbound).
  rewrite (drop_S _ _ _ Hp), (drop_S _ _ _ Hc). simpl.
  split; [by rewrite Htake|]. intros _.
  apply lookup_lt_Some in Hp, Hc.
  destruct n as [|n]; [lia|]. destruct Hbound; lia.
Qed.

Lemma sameSignerMissing_loop_Ret parentSignerMissing signerMissing :
  ∀ i,
    length (drop i parentSignerMissing) = length signerMissing →
    sameSignerMissing_loop parentSignerMissing i signerMissing = Ret () →
    drop i parentSignerMissing = signerMissing.
Proof.
  induction signerMissing as [|m rest IH]; intros i Hlen; simpl.
  { intros _. by apply length_zero_iff_nil. }
  destruct (parentSignerMissing !! i) as [p|] eqn:Hp; [|done].
  destruct (decide (p ≠ m)) as [|Heq]; [done|].
  apply dec_stable in Heq. subst m. intros Hloop.
  rewrite (drop_S _ _ _ Hp) in *. simpl in Hlen.
  f_equal. apply IH; [lia | done].
Qed.

Lemma inturn_true s signer header :
  inturn s signer header = Ret true → types.Coinbase header = signer.
Proof.
  unfold inturn. destruct (decide (types.Coinbase header ≠ signer)) as [|Heq];
    [done|].
  intros _. by apply dec_stable in Heq.
Qed.

Lemma sealStep_Ret {A} (o : outcome error A) a :
  sealStep o = Ret a → o = Ret a.
Proof. destruct o; simpl; congruence. Qed.

Lemma outcome_bind_Ret {E A B} (m : outcome E A) (k : A → outcome E B) b :
  m ≫= k = Ret b → ∃ a, m = Ret a ∧ k a = Ret b.
Proof. destruct m as [a| | |]; simpl; try done. intros H. by exists a. Qed.

Section seal_properties.
Variable sortTally : list TallyItem → list TallyItem.
Variable sortSigners : list SignerItem → list SignerItem.

Lemma verifySignerQueue_Ret s signerQueue mainSigners :
  verifySignerQueue sortTally sortSigners s signerQueue mainSigners = Ret () →
  createSignerQueue sortTally sortSigners s mainSigners = Ret signerQueue.
Proof.
  unfold verifySignerQueue. destruct (_ <? _); [done|].
  destruct (createSignerQueue sortTally sortSigners s mainSigners)
    as [sq| | |]; simpl; try done.
  destruct (_ || _); [done|].
  destruct (bool_decide_reflect (signerQueue = sq)) as [->|]; done.
Qed.

(** X27. A header that [verifySeal] accepts on the main chain is sealed by its
    coinbase, which is in turn in the snapshot of the parent block. Past
    block [MaxSignerCount] its missing signers are those that
    [getSignerMissing] computes from the parent header, and its signer
    queue is the one of [createSignerQueue] in a block that ends a loop,
    and agrees with the queue of the parent on the first [MaxSignerCount]
    entries in any other block. *)
Theorem verifySeal_accepts (config : params.AlienConfig)
    (snapshot : outcome error Snapshot) (parent : option types.Header)
    (header : types.Header) (mainSigners : list Address) :
  let number := Uint64 (types.Number header) in
  let count := Z.to_nat (int64 (params.MaxSignerCount config)) in
  verifySeal sortTally sortSigners config snapshot parent header mainSigners
  = Ret () →
  number ≠ 0
  ∧ ∃ snap,
      snapshot = Ret snap
      ∧ types.ecrecover header = Ret (types.Coinbase header)
      ∧ inturn snap (types.Coinbase header) header = Ret true
      ∧ (params.MaxSignerCount config < number →
         ∃ parentHeader parentHeaderExtra currentHeaderExtra,
           parent = Some parentHeader
           ∧ types.Extra parentHeader = Ret parentHeaderExtra
           ∧ types.Extra header = Ret currentHeaderExtra
           ∧ SignerMissing currentHeaderExtra
             = getSignerMissing (types.Coinbase parentHeader)
                 (types.Coinbase header) parentHeaderExtra
           ∧ if decide (number mod params.MaxSignerCount config = 0)
             then createSignerQueue sortTally sortSigners snap mainSigners
                  = Ret (SignerQueue currentHeaderExtra)
             else take count (SignerQueue currentHeaderExtra)
                  = take count (SignerQueue parentHeaderExtra)).
Proof.
  intros number count. unfold verifySeal. fold number.
  destruct (decide (number = 0)) as [|Hnumber]; [done|].
  intros H. split; [done|].
  apply outcome_bind_Ret in H as (snap & Hsnap & H).
  apply sealStep_Ret in Hsnap.
  apply outcome_bind_Ret in H as (signer & Hsigner & H).
  apply sealStep_Ret in Hsigner.
  apply outcome_bind_Ret in H as ([] & Hchecks & H).
  apply outcome_bind_Ret in H as (inTurn & Hturn & H).
  apply sealStep_Ret in Hturn. destruct inTurn; [|done].
  pose proof (inturn_true _ _ _ Hturn) as <-.
  exists snap. split; [done|]. split; [done|]. split; [done|].
  intros Hpast. rewrite (proj2 (Z.ltb_lt _ _) Hpast) in Hchecks.
  destruct parent as [parentHeader|]; [|done].
  apply outcome_bind_Ret in Hchecks as (parentHeaderExtra & Hparent & Hchecks).
  apply sealStep_Ret in Hparent.
  apply outcome_bind_Ret in Hchecks as (currentHeaderExtra & Hcurrent & Hchecks).
  apply sealStep_Ret in Hcurrent.
  apply outcome_bind_Ret in Hchecks as ([] & Hqueue & Hmissing).
  exists parentHeader, parentHeaderExtra, currentHeaderExtra.
  split; [done|]. split; [done|]. split; [done|]. split.
  - destruct (decide (length _ ≠ length _)) as [|Hlen]; [done|].
    apply dec_stable in Hlen. symmetry.
    by apply (sameSignerMissing_loop_Ret _ _ 0%nat).
  - destruct (decide (params.MaxSignerCount config = 0)); [done|].
    destruct (decide (number mod params.MaxSignerCount config = 0)).
    + apply verifySignerQueue_Ret.
      by destruct (verifySignerQueue _ _ _ _ _) as [[]| | |].
    + by apply sameSignerQueue_loop_Ret in Hqueue as [? _].
Qed.

End seal_properties.

(** Block 4 is accepted. *)
Lemma verifySeal_accepts_witness : Uint64 (types.Number sealHeader) ≠ 0.
Proof.
  refine (proj1 (verifySeal_accepts sortTallyExample sortSignersExample
                   queueConfig (Ret sealSnapshot) (Some sealParent) sealHeader
                   [addrC] _)).
  vm_compute. reflexivity.
Defined.

(** ** The queue that is made is the queue that is accepted *)

Section queue_round_trip.
Variable sortTally : list TallyItem → list TallyItem.
Variable sortSigners : list SignerItem → list SignerItem.

Lemma createSignerQueue_length s mainSigners queue :
  createSignerQueue sortTally sortSigners s mainSigners = Ret queue →
  length queue = Z.to_nat (int64 (params.MaxSignerCount (config s))).
Proof.
  unfold createSignerQueue. intros H.
  repeat case_match; try done;
    match goal with
    | Htop : topStakeAddress _ _ = Ret ?q |- _ =>
        apply topStakeAddress_Ret in Htop as [Hlength _]; congruence
    end.
Qed.

(** X28. The queue that [createSignerQueue] returns for a snapshot is accepted
    by [verifySignerQueue] for the same snapshot, and no other queue is. *)
Theorem createSignerQueue_verifies (s : Snapshot)
    (mainSigners queue signerQueue : list Address) :
  0 < params.MaxSignerCount (config s) < 2 ^ 63 →
  createSignerQueue sortTally sortSigners s mainSigners = Ret queue →
  verifySignerQueue sortTally sortSigners s signerQueue mainSigners = Ret ()
  ↔ signerQueue = queue.
Proof.
  intros HM Hqueue.
  pose proof (createSignerQueue_length _ _ _ Hqueue) as Hlength.
  rewrite int64_small in Hlength by lia.
  unfold verifySignerQueue. rewrite Hqueue, int64_small by lia. simpl.
  split.
  - destruct (_ <? _); [done|]. destruct (_ || _); [done|].
    by destruct (bool_decide_reflect (signerQueue = queue)).
  - intros ->. rewrite (proj2 (Z.ltb_ge _ _)) by lia.
    rewrite (bool_decide_eq_false_2 (length queue = 0%nat)) by lia.
    rewrite (bool_decide_eq_false_2 (length queue ≠ length queue))
      by (by intros ?).
    by rewrite bool_decide_eq_true_2.
Qed.

End queue_round_trip.

Lemma createSignerQueue_verifies_witness :
  verifySignerQueue sortTallyExample sortSignersExample queueSnapshot
    [addrA; addrD; addrE] [addrC]
  = Ret ().
Proof.
  apply (createSignerQueue_verifies sortTallyExample sortSignersExample
           queueSnapshot [addrC] [addrA; addrD; addrE] [addrA; addrD; addrE]).
  - split; reflexivity.
  - vm_compute. reflexivity.
  - reflexivity.
Defined.
